(** * Vessel-tracking ingestion and filtering pipeline

    A shallow embedding of the three scripts of the repository that talk
    to the document store:

    - [full_filter.py]      ([process_vessel_batch]),
    - [parallel_insert.py]  ([process_chunk], [main]),
    - [fault_tolerance_demo.py] (the retry block of
      [run_continuous_queries]),

    followed by the properties of the retry policy, the per-vessel filter,
    the numeric coercion and the chunk reader.

    Documents are Python dicts with string keys: [gmap string value].
    The store is reached only through its driver calls; every call is an
    event of a trace and may fail as the world's [fate] decides, so that
    the statements below hold for every pattern of store failures. *)

From Stdlib Require Import ZArith Lia List String Ascii Bool SpecFloat.
From stdpp Require Import base option list gmap strings.

Local Open Scope string_scope.
Local Open Scope list_scope.
Local Open Scope Z_scope.

(** ** Python floats

    The scripts use three facts about floats: [float(x)] on a string or an
    integer, and [pd.isna]. They are an interface here; [Binary64] below
    is the IEEE 754 instance the examples run on. *)

Class PyFloat := {
  F : Type;
  (** [float(s)] for a [str]; [None] stands for [ValueError]. *)
  float_of_str : string → option F;
  (** [float(n)] for an [int] that the store can hold (at most 64 bits). *)
  float_of_int : Z → F;
  (** [math.isnan], which is what [pd.isna] is on a float. *)
  isnan : F → bool
}.

(** ** Values and documents *)

Section Values.
Context `{PyFloat}.

(** The scalars a document read back from the store holds: the CSV columns
    as pandas typed them (int64, float64, bool, str), [None], and the
    [ObjectId] under ["_id"]. *)
Inductive value :=
| VNone
| VBool (b : bool)
| VInt (n : Z)
| VFloat (x : F)
| VStr (s : string)
| VObjectId (oid : string).

Definition is_None (v : value) : bool :=
  match v with VNone => true | _ => false end.

Definition lower_ascii (c : ascii) : ascii :=
  let n := nat_of_ascii c in
  if (65 <=? n)%nat && (n <=? 90)%nat then ascii_of_nat (n + 32) else c.

Fixpoint lower (s : string) : string :=
  match s with
  | EmptyString => EmptyString
  | String c s' => String (lower_ascii c) (lower s')
  end.

(** [str(v).lower() == 'nan']. The text of an int, a bool or an ObjectId is
    never ["nan"]; the text of a float is ["nan"] exactly for a NaN. *)
Definition str_lower_is_nan (v : value) : bool :=
  match v with
  | VStr s => String.eqb (lower s) "nan"
  | VFloat x => isnan x
  | VNone | VBool _ | VInt _ | VObjectId _ => false
  end.

(** [v == '']. *)
Definition eq_empty_str (v : value) : bool :=
  match v with
  | VStr s => String.eqb s ""
  | _ => false
  end.

(** [pd.isna(v)] on a scalar. *)
Definition pd_isna (v : value) : bool :=
  match v with
  | VNone => true
  | VFloat x => isnan x
  | _ => false
  end.

(** [float(v)]; [None] stands for the [ValueError] or [TypeError] that the
    caller catches. *)
Definition py_float (v : value) : option F :=
  match v with
  | VNone => None
  | VBool b => Some (float_of_int (if b then 1 else 0))
  | VInt n => Some (float_of_int n)
  | VFloat x => Some x
  | VStr s => float_of_str s
  | VObjectId _ => None
  end.

End Values.

Abbreviation doc := (gmap string value).

(** ** Per-record validation and coercion ([full_filter.py]) *)

Section Records.
Context `{PyFloat}.

Definition required_fields : list string :=
  ["MMSI"; "Latitude"; "Longitude"; "Navigational status"].

Definition numeric_fields : list string :=
  ["ROT"; "SOG"; "COG"; "Heading"].

(** What [has_required] asks of one field, given the field's entry in the
    document ([None]: the key is absent): [field in doc and doc[field] is
    not None and str(doc[field]).lower() != 'nan' and doc[field] != '' and
    not pd.isna(doc[field])]. *)
Definition field_ok (entry : option value) : bool :=
  match entry with
  | None => false
  | Some v =>
      negb (is_None v)
      && negb (str_lower_is_nan v)
      && negb (eq_empty_str v)
      && negb (pd_isna v)
  end.

Definition has_required (d : doc) : bool :=
  forallb (λ field, field_ok (d !! field)) required_fields.

(** [if '_id' in doc: del doc['_id']] *)
Definition del_id (d : doc) : doc := delete "_id" d.

(** One round of the loop over [numeric_fields]. *)
Definition coerce_field (d : doc) (field : string) : doc :=
  match d !! field with
  | Some v =>
      if is_None v then d
      else match py_float v with
           | Some val =>
               if negb (isnan val) then <[field := VFloat val]> d
               else <[field := VNone]> d
           | None => <[field := VNone]> d
           end
  | None => d
  end.

Definition coerce_numeric (d : doc) : doc :=
  foldl coerce_field d numeric_fields.

(** The loop [for doc in docs] that builds [filtered]. *)
Fixpoint filter_docs (docs filtered : list doc) : list doc :=
  match docs with
  | [] => filtered
  | d :: rest =>
      let d := del_id d in
      if negb (has_required d) then filter_docs rest filtered
      else filter_docs rest (filtered ++ [coerce_numeric d])
  end.

End Records.

(** ** The world outside the scripts

    The store, the clock and the log are seen through the calls made on
    them. Each driver call consumes one [outcome] from [fate]; the trace
    keeps every call, sleep and message in the order they happen. *)

(** What a driver call does: return, or raise. An unordered bulk insert
    that raises may still have stored some of its documents; [accepted]
    marks them by position (absent positions are not stored). *)
Inductive outcome :=
| Succeed
| Raise (accepted : list bool).

(** The lines the scripts log and print, without the text of the
    exception and the timings they may carry. *)
Inductive message :=
| MsgChunkError (attempt max_retries : nat)
| MsgIndividualInsertsFailed
| MsgBatchError (attempt max_retries : nat)
| MsgFailedAllRetries
| MsgCsvNotFound
| MsgTotalRows (n : Z)
| MsgTargetRows (n : Z)
| MsgConnectionOk
| MsgIndexCreated
| MsgConnectionError
| MsgProcessingBatch (number first last : Z)
| MsgProgress (rows : Z)
| MsgBatchComplete (rows : Z)
| MsgSummary (rows : Z)
| MsgUnhandled
| MsgRecovered (retry : nat)
| MsgRetryFailed (retry max_retries : nat) (delay : Z).

(** The input file: absent, present but not openable, or a header line
    followed by rows. *)
Inductive file_state {A : Type} :=
| Missing
| Unreadable
| Readable (rows : list A).
Arguments file_state : clear implicits.

(** What a computation ends with: a value, or a Python [Exception]. *)
Inductive result (A : Type) :=
| Ret (a : A)
| Exc.
Arguments Ret {A} a.
Arguments Exc {A}.

Declare Scope prog_scope.
Delimit Scope prog_scope with prog.

Section World.
Context `{PyFloat}.
Local Open Scope prog_scope.

(** Driver calls, and what else the scripts do that can be observed:
    handing a chunk to the worker pool, sleeping, logging, printing. *)
Inductive event :=
| EConnect
| EPing
| ECreateIndex
| EClose
| EFind (key : value)
| EInsertMany (batch : list doc)
| EInsertOne (d : doc)
| ESubmit (chunk : list doc)
| ESleep (seconds : Z)
| ELog (m : message)
| EPrint (m : message).

Record world := World {
  (** the collection that is read, as the answers of [find({"MMSI": k})] *)
  source : value → list doc;
  (** the collection that is written, in arrival order *)
  stored : list doc;
  (** the input file of the ingestion script *)
  csv : file_state doc;
  (** the outcome of the n-th driver call *)
  fate : nat → outcome;
  (** driver calls made so far *)
  calls : nat;
  trace : list event
}.

(** A computation reads and changes the world, and returns or raises. *)
Definition prog (A : Type) : Type := world → result A * world.

Definition ret {A} (a : A) : prog A := λ w, (Ret a, w).
Definition raise {A} : prog A := λ w, (Exc, w).
Definition bind {A B} (m : prog A) (k : A → prog B) : prog B :=
  λ w, match m w with
       | (Ret a, w') => k a w'
       | (Exc, w') => (Exc, w')
       end.

Notation "x ← m ; k" := (bind m (λ x, k))
  (at level 20, m at level 100, k at level 200, only parsing) : prog_scope.
Notation "m ;; k" := (bind m (λ _, k))
  (at level 100, k at level 200, right associativity, only parsing)
  : prog_scope.

(** [try: body  except Exception: handler] *)
Definition try_except {A} (body handler : prog A) : prog A :=
  λ w, match body w with
       | (Ret a, w') => (Ret a, w')
       | (Exc, w') => handler w'
       end.

Definition emit (e : event) : prog unit :=
  λ w, (Ret tt, World (source w) (stored w) (csv w) (fate w) (calls w)
                      (trace w ++ [e])).

Definition store (ds : list doc) : prog unit :=
  λ w, (Ret tt, World (source w) (stored w ++ ds) (csv w) (fate w) (calls w)
                      (trace w)).

(** One driver call: the event is recorded and the call's outcome drawn. *)
Definition driver_call (e : event) : prog outcome :=
  λ w, (Ret (fate w (calls w)),
        World (source w) (stored w) (csv w) (fate w) (S (calls w))
              (trace w ++ [e])).

Definition returns_or_raises (o : outcome) : prog unit :=
  match o with
  | Succeed => ret tt
  | Raise _ => raise
  end.

(** [MongoClient(MONGO_URI, ...)] *)
Definition connect : prog unit := bind (driver_call EConnect) returns_or_raises.
(** [client.admin.command('ping')] *)
Definition ping : prog unit := bind (driver_call EPing) returns_or_raises.
(** [db[...].create_index("MMSI")] *)
Definition create_index : prog unit :=
  bind (driver_call ECreateIndex) returns_or_raises.
(** [client.close()] *)
Definition close : prog unit := bind (driver_call EClose) returns_or_raises.

(** [list(db[SOURCE_COLLECTION].find({"MMSI": mmsi}))] *)
Definition find (key : value) : prog (list doc) :=
  o ← driver_call (EFind key);
  match o with
  | Succeed => λ w, (Ret (source w key), w)
  | Raise _ => raise
  end.

(** The documents of [batch] that a failed unordered insert still stored. *)
Fixpoint accepted_docs (accepted : list bool) (batch : list doc) : list doc :=
  match accepted, batch with
  | true :: accepted', d :: batch' => d :: accepted_docs accepted' batch'
  | false :: accepted', _ :: batch' => accepted_docs accepted' batch'
  | _, _ => []
  end.

(** [collection.insert_many(batch, ordered=False)]; the driver refuses an
    empty list. *)
Definition insert_many (batch : list doc) : prog unit :=
  match batch with
  | [] => raise
  | _ =>
      o ← driver_call (EInsertMany batch);
      match o with
      | Succeed => store batch
      | Raise accepted => store (accepted_docs accepted batch) ;; raise
      end
  end.

(** [collection.insert_one(record)] *)
Definition insert_one (d : doc) : prog unit :=
  o ← driver_call (EInsertOne d);
  match o with
  | Succeed => store [d]
  | Raise accepted => store (accepted_docs accepted [d]) ;; raise
  end.

(** [time.sleep(seconds)] *)
Definition sleep (seconds : Z) : prog unit := emit (ESleep seconds).
(** [logging.info] and [logging.error] *)
Definition log (m : message) : prog unit := emit (ELog m).
(** [print] *)
Definition print (m : message) : prog unit := emit (EPrint m).

(** [for x in xs: acc = body(acc, x)] *)
Fixpoint for_each {A S} (body : S → A → prog S) (acc : S) (xs : list A)
  : prog S :=
  match xs with
  | [] => ret acc
  | x :: rest => acc' ← body acc x; for_each body acc' rest
  end.

(** [range(0, stop, step)] for a positive step. *)
Definition range_step (stop step : nat) : list nat :=
  (λ j, j * step)%nat <$> seq 0 ((stop + step - 1) / step)%nat.

(** [xs[i:i + n]] *)
Definition slice {A} (xs : list A) (i n : nat) : list A := take n (drop i xs).

End World.

Notation "x ← m ; k" := (bind m (λ x, k))
  (at level 20, m at level 100, k at level 200, only parsing) : prog_scope.
Notation "m ;; k" := (bind m (λ _, k))
  (at level 100, k at level 200, right associativity, only parsing)
  : prog_scope.

(** ** Settings

    The module-level constants of a script. The functions below take them
    as an argument, so that statements about "any [MAX_RETRIES]" or "any
    chunk size" can be made; the values each script ships with follow. *)

Record settings := Settings {
  MAX_RETRIES : nat;
  RETRY_DELAY : Z;
  CHUNK_SIZE : Z;
  TARGET_ROWS : Z
}.

(** [parallel_insert.py] *)
Definition insert_settings : settings :=
  {| MAX_RETRIES := 3; RETRY_DELAY := 5; CHUNK_SIZE := 5000;
     TARGET_ROWS := 5000000 |}.

(** [full_filter.py] and [fault_tolerance_demo.py]: only the retry
    settings are used. *)
Definition filter_settings : settings :=
  {| MAX_RETRIES := 3; RETRY_DELAY := 5; CHUNK_SIZE := 0;
     TARGET_ROWS := 0 |}.

(** The tuple that [process_vessel_batch] returns. *)
Record counters := Counters {
  vessels_processed : Z;
  vessels_filtered : Z;
  total_docs : Z;
  filtered_docs : Z
}.

Definition len {A} (xs : list A) : Z := Z.of_nat (length xs).

(** ** [full_filter.py]: [process_vessel_batch] *)

Section FullFilter.
Context `{PyFloat}.
Variable cfg : settings.
Local Open Scope prog_scope.

(** [for i in range(0, len(filtered), batch_size): ...] with
    [batch_size = 500]. *)
Definition insert_slice (filtered : list doc) (_ : unit) (i : nat)
  : prog unit :=
  let batch := slice filtered i 500 in
  match batch with
  | [] => ret tt
  | _ => insert_many batch
  end.

Definition insert_batches (filtered : list doc) : prog unit :=
  for_each (insert_slice filtered) tt (range_step (length filtered) 500).

(** The body of [for mmsi in mmsi_batch]. *)
Definition process_vessel (c : counters) (mmsi : value) : prog counters :=
  docs ← find mmsi;
  let c := Counters (vessels_processed c + 1) (vessels_filtered c)
                    (total_docs c + len docs) (filtered_docs c) in
  if (len docs <? 100)%Z then ret c
  else
    let filtered := filter_docs docs [] in
    match filtered with
    | [] => ret c
    | _ =>
        insert_batches filtered ;;
        ret (Counters (vessels_processed c) (vessels_filtered c + 1)
                      (total_docs c) (filtered_docs c + len filtered))
    end.

(** The [try] block of one attempt. *)
Definition vessel_batch_attempt (mmsi_batch : list value) : prog counters :=
  connect ;;
  c ← for_each process_vessel (Counters 0 0 0 0) mmsi_batch;
  close ;;
  ret c.

(** [for attempt in range(MAX_RETRIES)]; running off the end of the loop
    returns Python's [None]. *)
Fixpoint vessel_batch_attempts (attempts : list nat) (mmsi_batch : list value)
  : prog (option counters) :=
  match attempts with
  | [] => ret None
  | attempt :: rest =>
      try_except
        (c ← vessel_batch_attempt mmsi_batch; ret (Some c))
        (log (MsgBatchError (attempt + 1) (MAX_RETRIES cfg)) ;;
         if (attempt <? MAX_RETRIES cfg - 1)%nat then
           sleep (RETRY_DELAY cfg) ;;
           vessel_batch_attempts rest mmsi_batch
         else
           log MsgFailedAllRetries ;;
           ret (Some (Counters 0 0 0 0)))
  end.

Definition process_vessel_batch (mmsi_batch : list value)
  : prog (option counters) :=
  vessel_batch_attempts (seq 0 (MAX_RETRIES cfg)) mmsi_batch.

End FullFilter.

(** ** [parallel_insert.py]: [process_chunk] *)

Section ParallelInsert.
Context `{PyFloat}.
Variable cfg : settings.
Local Open Scope prog_scope.

(** The [try] block of one attempt: one bulk insert of the whole chunk. *)
Definition bulk_attempt (chunk_df : list doc) : prog (option nat) :=
  connect ;;
  let records := chunk_df in
  match records with
  | [] => ret tt
  | _ => insert_many records
  end ;;
  close ;;
  ret (Some (length records)).

(** One round of [for record in records]: [try: insert_one(record);
    successful += 1  except Exception: pass]. *)
Definition insert_counted (successful : nat) (record : doc) : prog nat :=
  try_except (insert_one record ;; ret (successful + 1)%nat)
             (ret successful).

Definition insert_individually (records : list doc) : prog nat :=
  for_each insert_counted 0%nat records.

(** The last resort after the final failed attempt: insert the records one
    by one. *)
Definition last_resort (chunk_df : list doc) : prog (option nat) :=
  try_except
    (connect ;;
     successful ← insert_individually chunk_df;
     close ;;
     ret (Some successful))
    (log MsgIndividualInsertsFailed ;;
     ret (Some 0%nat)).

Fixpoint chunk_attempts (attempts : list nat) (chunk_df : list doc)
  : prog (option nat) :=
  match attempts with
  | [] => ret None
  | attempt :: rest =>
      try_except
        (bulk_attempt chunk_df)
        (log (MsgChunkError (attempt + 1) (MAX_RETRIES cfg)) ;;
         if (attempt <? MAX_RETRIES cfg - 1)%nat then
           sleep (RETRY_DELAY cfg) ;;
           chunk_attempts rest chunk_df
         else last_resort chunk_df)
  end.

Definition process_chunk (chunk_df : list doc) : prog (option nat) :=
  chunk_attempts (seq 0 (MAX_RETRIES cfg)) chunk_df.

End ParallelInsert.

(** ** [parallel_insert.py]: [main] *)

Section Ingestion.
Context `{PyFloat}.
Variable cfg : settings.
Local Open Scope prog_scope.

(** [os.path.exists(CSV_PATH)] *)
Definition path_exists : prog bool :=
  λ w, (Ret (match csv w with Missing => false | _ => true end), w).

(** [sum(1 for _ in open(CSV_PATH)) - 1]: the file has a header line and
    one line per row. *)
Definition count_rows : prog Z :=
  λ w, match csv w with
       | Readable rows => (Ret (1 + len rows - 1), w)
       | _ => (Exc, w)
       end.

(** The frames that [pd.read_csv(CSV_PATH, chunksize=n)] yields: [n] rows
    each, the last one shorter; a file with a header and no row yields one
    empty frame. A chunk size below 1 is refused. *)
Definition frames (chunksize : nat) (rows : list doc) : list (list doc) :=
  match rows with
  | [] => [[]]
  | _ => (λ i, slice rows i chunksize) <$> range_step (length rows) chunksize
  end.

Definition read_csv (chunksize : Z) : prog (list (list doc)) :=
  λ w, match csv w with
       | Readable rows =>
           if chunksize <? 1 then (Exc, w)
           else (Ret (frames (Z.to_nat chunksize) rows), w)
       | _ => (Exc, w)
       end.

(** [a // b] *)
Definition floordiv (a b : Z) : prog Z :=
  if b =? 0 then raise else ret (a / b).

(** [range(0, stop, step)] on integers, for a positive step. *)
Definition zrange_step (stop step : Z) : list Z :=
  (λ j, Z.of_nat j * step) <$> seq 0 (Z.to_nat ((stop + step - 1) / step)).

(** [chunk_df.head(n)]: the first [n] rows, or all but the last [-n]. *)
Definition head {A} (n : Z) (rows : list A) : list A :=
  if 0 <=? n then take (Z.to_nat n) rows
  else take (Z.to_nat (len rows + n)) rows.

(** [for i, chunk_df in enumerate(reader)], from index [i] on. *)
Fixpoint collect_chunks (total_inserted batch_start batch_end i : Z)
    (reader chunks : list (list doc)) : prog (list (list doc)) :=
  match reader with
  | [] => ret chunks
  | chunk_df :: rest =>
      lo ← floordiv (batch_start * CHUNK_SIZE cfg) (CHUNK_SIZE cfg);
      if i <? lo then
        collect_chunks total_inserted batch_start batch_end (i + 1) rest chunks
      else
        hi ← floordiv (batch_end * CHUNK_SIZE cfg) (CHUNK_SIZE cfg);
        if hi <=? i then ret chunks
        else
          let chunk_df :=
            if TARGET_ROWS cfg <? total_inserted + len chunk_df then
              let remaining := TARGET_ROWS cfg - total_inserted in
              head remaining chunk_df
            else chunk_df in
          collect_chunks total_inserted batch_start batch_end (i + 1) rest
                         (chunks ++ [chunk_df])
  end.

(** [for result in pool.imap_unordered(process_chunk, chunks)]. The
    workers are run one after the other, in submission order; a result that
    is not a number cannot be added. The real pool runs four workers at a
    time and hands the results over as they complete, so the order in which
    the rows of different chunks reach the target is the one of this run
    only. What is said about a run of the pool below does not depend on
    it. *)
Definition pool_step (totals : Z * Z) (chunk_df : list doc) : prog (Z * Z) :=
  let '(batch_inserted, total_inserted) := totals in
  emit (ESubmit chunk_df) ;;
  result ← process_chunk cfg chunk_df;
  match result with
  | None => raise
  | Some n =>
      let batch_inserted := batch_inserted + Z.of_nat n in
      let total_inserted := total_inserted + Z.of_nat n in
      (if total_inserted mod 100000 =? 0
       then log (MsgProgress total_inserted)
       else ret tt) ;;
      ret (batch_inserted, total_inserted)
  end.

Definition run_pool (chunks : list (list doc)) (total_inserted : Z)
  : prog (Z * Z) :=
  for_each pool_step (0, total_inserted) chunks.

Definition main_batch_size : Z := 10.

(** [for batch_start in range(0, total_chunks, batch_size)] *)
Fixpoint batch_loop (total_chunks : Z) (batch_starts : list Z)
    (total_inserted : Z) : prog Z :=
  match batch_starts with
  | [] => ret total_inserted
  | batch_start :: rest =>
      let batch_end := Z.min (batch_start + main_batch_size) total_chunks in
      reader ← read_csv (CHUNK_SIZE cfg);
      chunks ← collect_chunks total_inserted batch_start batch_end 0 reader [];
      log (MsgProcessingBatch (batch_start / main_batch_size + 1)
                              batch_start (batch_end - 1)) ;;
      print (MsgProcessingBatch (batch_start / main_batch_size + 1)
                                batch_start (batch_end - 1)) ;;
      totals ← run_pool chunks total_inserted;
      let '(batch_inserted, total_inserted) := totals in
      log (MsgBatchComplete batch_inserted) ;;
      if TARGET_ROWS cfg <=? total_inserted then ret total_inserted
      else batch_loop total_chunks rest total_inserted
  end.

Definition main : prog unit :=
  try_except
    (found ← path_exists;
     if negb found then
       log MsgCsvNotFound ;;
       print MsgCsvNotFound
     else
       total_rows_possible ← count_rows;
       log (MsgTotalRows total_rows_possible) ;;
       print (MsgTotalRows total_rows_possible) ;;
       print (MsgTargetRows (TARGET_ROWS cfg)) ;;
       available ←
         try_except
           (connect ;; ping ;; close ;;
            log MsgConnectionOk ;;
            connect ;; create_index ;; close ;;
            log MsgIndexCreated ;;
            ret true)
           (log MsgConnectionError ;;
            print MsgConnectionError ;;
            ret false);
       if negb available then ret tt
       else
         total_chunks ←
           floordiv (TARGET_ROWS cfg + CHUNK_SIZE cfg - 1) (CHUNK_SIZE cfg);
         total_inserted ←
           batch_loop total_chunks (zrange_step total_chunks main_batch_size) 0;
         print (MsgSummary total_inserted) ;;
         log (MsgSummary total_inserted))
    (log MsgUnhandled ;;
     print MsgUnhandled).

(** The status the interpreter exits with after
    [if __name__ == "__main__": main()]: 0 when [main] returns, 1 when an
    exception leaves it. *)
Definition exit_status {A} (r : result A) : Z :=
  match r with
  | Ret _ => 0
  | Exc => 1
  end.

Definition run_script (w : world) : Z * world :=
  let (r, w') := main w in (exit_status r, w').

End Ingestion.

(** ** [fault_tolerance_demo.py]: the retry block of
    [run_continuous_queries] *)

Section QueryDemo.
Context `{PyFloat}.
Variable cfg : settings.
Local Open Scope prog_scope.

(** [list(collection.find({'MMSI': mmsi}, limit=5))] *)
Definition find_limit (mmsi : value) (limit : nat) : prog (list doc) :=
  docs ← find mmsi; ret (take limit docs).

(** One round of [for retry in range(MAX_RETRIES)]: reconnect and query
    again; on failure wait [RETRY_DELAY * (retry + 1)] seconds. The result
    tells whether the round ended in [break]. *)
Definition query_attempt (retry : nat) (mmsi : value) : prog bool :=
  try_except
    (connect ;;
     result ← find_limit mmsi 5;
     print (MsgRecovered retry) ;;
     ret true)
    (let retry_delay := RETRY_DELAY cfg * (Z.of_nat retry + 1) in
     print (MsgRetryFailed (retry + 1) (MAX_RETRIES cfg) retry_delay) ;;
     sleep retry_delay ;;
     ret false).

Fixpoint query_retries (retries : list nat) (mmsi : value) : prog unit :=
  match retries with
  | [] => ret tt
  | retry :: rest =>
      recovered ← query_attempt retry mmsi;
      if recovered : bool then ret tt else query_retries rest mmsi
  end.

Definition retry_query (mmsi : value) : prog unit :=
  query_retries (seq 0 (MAX_RETRIES cfg)) mmsi.

End QueryDemo.

(** ** IEEE 754 binary64, the floats of the examples

    Python's [float] is a C [double]. [spec_float] at precision 53 is its
    value space; [of_string] reads the ASCII part of the grammar of
    [float(str)] and rounds to nearest, ties to even. *)

Module Binary64.

Definition prec : Z := 53.
Definition emax : Z := 1024.

Definition is_nan (x : spec_float) : bool :=
  match x with S754_nan => true | _ => false end.

Definition of_Z (n : Z) : spec_float := binary_normalize prec emax n 0 false.

(** The double nearest to [(-1)^neg * m * 10^e], for [m >= 0]. *)
Definition of_decimal (neg : bool) (m : Z) (e : Z) : spec_float :=
  if m =? 0 then S754_zero neg
  else if 0 <=? e then
    binary_normalize prec emax ((if neg then -1 else 1) * (m * 10 ^ e)) 0 false
  else
    let '(q, e', l) := SFdiv_core_binary prec emax m 0 (10 ^ (- e)) 0 in
    binary_round_aux prec emax neg q e' l.

Definition digit_of (c : ascii) : option Z :=
  let n := nat_of_ascii c in
  if (48 <=? n)%nat && (n <=? 57)%nat then Some (Z.of_nat (n - 48)) else None.

Definition is_blank (c : ascii) : bool :=
  let n := nat_of_ascii c in
  (n =? 32)%nat || ((9 <=? n)%nat && (n <=? 13)%nat).

Fixpoint lstrip (s : string) : string :=
  match s with
  | String c s' => if is_blank c then lstrip s' else s
  | EmptyString => s
  end.

Fixpoint all_blank (s : string) : bool :=
  match s with
  | String c s' => is_blank c && all_blank s'
  | EmptyString => true
  end.

(** The rest of a digit part: digits, each possibly after one underscore.
    Returns the value, the number of digits read and what follows. *)
Fixpoint more_digits (s : string) (acc count : Z) : Z * Z * string :=
  match s with
  | String c s' =>
      match digit_of c with
      | Some d => more_digits s' (10 * acc + d) (count + 1)
      | None =>
          if Ascii.eqb c "_" then
            match s' with
            | String c' s'' =>
                match digit_of c' with
                | Some d => more_digits s'' (10 * acc + d) (count + 1)
                | None => (acc, count, s)
                end
            | EmptyString => (acc, count, s)
            end
          else (acc, count, s)
      end
  | EmptyString => (acc, count, s)
  end.

Definition digit_part (s : string) : option (Z * Z * string) :=
  match s with
  | String c s' =>
      match digit_of c with
      | Some d => Some (more_digits s' d 1)
      | None => None
      end
  | EmptyString => None
  end.

Definition sign_of (s : string) : bool * string :=
  match s with
  | String c s' =>
      if Ascii.eqb c "-" then (true, s')
      else if Ascii.eqb c "+" then (false, s')
      else (false, s)
  | EmptyString => (false, s)
  end.

(** [e] or [E], a sign, a digit part; nothing but blanks may follow. *)
Definition exponent_of (s : string) : option Z :=
  match s with
  | String c s' =>
      if Ascii.eqb c "e" || Ascii.eqb c "E" then
        let (neg, s'') := sign_of s' in
        match digit_part s'' with
        | Some (v, _, tail) =>
            if all_blank tail then Some (if neg then - v else v) else None
        | None => None
        end
      else if all_blank s then Some 0 else None
  | EmptyString => Some 0
  end.

Definition number_of (neg : bool) (s : string) : option spec_float :=
  let '(ip, icount, s1) :=
    match digit_part s with
    | Some r => r
    | None => (0, 0, s)
    end in
  let '(fp, fcount, s2) :=
    match s1 with
    | String c s1' =>
        if Ascii.eqb c "." then
          match digit_part s1' with
          | Some r => r
          | None => (0, 0, s1')
          end
        else (0, 0, s1)
    | EmptyString => (0, 0, s1)
    end in
  if icount + fcount =? 0 then None
  else
    match exponent_of s2 with
    | Some e => Some (of_decimal neg (ip * 10 ^ fcount + fp) (e - fcount))
    | None => None
    end.

Fixpoint rstrip_blank_eqb (s word : string) : bool :=
  match s, word with
  | String c s', String k word' =>
      Ascii.eqb (lower_ascii c) k && rstrip_blank_eqb s' word'
  | _, EmptyString => all_blank s
  | EmptyString, String _ _ => false
  end.

(** [float(s)] for a string. *)
Definition of_string (s : string) : option spec_float :=
  let (neg, body) := sign_of (lstrip s) in
  if rstrip_blank_eqb body "nan" then Some S754_nan
  else if rstrip_blank_eqb body "inf" || rstrip_blank_eqb body "infinity"
  then Some (S754_infinity neg)
  else number_of neg body.

End Binary64.

Definition binary64 : PyFloat :=
  {| F := spec_float;
     float_of_str := Binary64.of_string;
     float_of_int := Binary64.of_Z;
     isnan := Binary64.is_nan |}.

(** ** Example stores and inputs *)

Module Example.
#[local] Existing Instance binary64.

Definition oid (i : nat) : value := VObjectId (String (ascii_of_nat i) "").

(** A complete record of vessel [mmsi], as the ingestion stored it. *)
Definition record (mmsi : Z) (i : nat) : doc :=
  <["_id" := oid i]> (
  <["MMSI" := VInt mmsi]> (
  <["Latitude" := VFloat (Binary64.of_Z 55)]> (
  <["Longitude" := VFloat (Binary64.of_Z 12)]> (
  <["Navigational status" := VStr "Under way using engine"]> (
  <["ROT" := VStr "12.5"]> (
  <["SOG" := VStr "abc"]> (
  <["Ship type" := VStr "Cargo"]> ∅))))))).

Definition without (field : string) (d : doc) : doc := delete field d.

(** Vessel A: 150 records, the last 20 without a latitude. *)
Definition group_A : list doc :=
  (record 219000001 <$> seq 0 130)
  ++ (without "Latitude" ∘ record 219000001 <$> seq 130 20).

(** Vessel B: 50 complete records. *)
Definition group_B : list doc := record 219000002 <$> seq 0 50.

(** Vessel C: 120 records, none with a navigational status. *)
Definition group_C : list doc :=
  without "Navigational status" ∘ record 219000003 <$> seq 0 120.

Definition vessel_A : value := VInt 219000001.
Definition vessel_B : value := VInt 219000002.
Definition vessel_C : value := VInt 219000003.
Definition zero : counters := Counters 0 0 0 0.

Definition raw_data (key : value) : list doc :=
  match key with
  | VInt 219000001 => group_A
  | VInt 219000002 => group_B
  | VInt 219000003 => group_C
  | _ => []
  end.

Definition calm : nat → outcome := λ _, Succeed.

(** The third driver call of each of the first three attempts (the bulk
    insert, after the connection and the read) raises and stores nothing;
    every other call returns. *)
Definition bulk_insert_down : nat → outcome :=
  λ n, if (n <? 9)%nat && (n mod 3 =? 2)%nat then Raise [] else Succeed.

(** The second driver call of the first two attempts (the bulk insert,
    after the connection) raises; every other call returns. *)
Definition two_failures : nat → outcome :=
  λ n, if (n <? 4)%nat && (n mod 2 =? 1)%nat then Raise [] else Succeed.

Definition filter_world (fate : nat → outcome) : world :=
  {| source := raw_data; stored := []; csv := Missing; fate := fate;
     calls := 0; trace := [] |}.

Definition rows (n : nat) : list doc := record 219000001 <$> seq 0 n.

Definition ingest_world (file : file_state doc) (fate : nat → outcome)
  : world :=
  {| source := λ _, []; stored := []; csv := file; fate := fate;
     calls := 0; trace := [] |}.

(** A run with 10 rows per chunk and a ceiling of 25 rows. *)
Definition small_settings : settings :=
  {| MAX_RETRIES := 3; RETRY_DELAY := 5; CHUNK_SIZE := 10;
     TARGET_ROWS := 25 |}.

Definition rot (text : string) : doc := <["ROT" := VStr text]> ∅.

(** A record whose ROT column was empty in the CSV: pandas reads NaN. *)
Definition rot_missing : doc := <["ROT" := VFloat S754_nan]> ∅.

(** Five records that lack a usable required field, one for each way: a
    latitude that is null, a longitude that is the empty text, a
    navigational status that reads NaN, a latitude that is the float NaN,
    no MMSI. *)
Definition unusable_records : list doc :=
  [ <["Latitude" := VNone]> (record 219000004 100);
    <["Longitude" := VStr ""]> (record 219000004 101);
    <["Navigational status" := VStr "NaN"]> (record 219000004 102);
    <["Latitude" := VFloat S754_nan]> (record 219000004 103);
    without "MMSI" (record 219000004 104) ].

(** Vessel D: 100 complete records, and the five above among them. *)
Definition group_D : list doc :=
  (record 219000004 <$> seq 0 50)
  ++ unusable_records
  ++ (record 219000004 <$> seq 50 50).

Definition vessel_D : value := VInt 219000004.

Definition checks_world : world :=
  {| source := λ key, match key with VInt 219000004 => group_D | _ => [] end;
     stored := []; csv := Missing; fate := calm; calls := 0; trace := [] |}.

(** A complete record whose ROT is the text nan. *)
Definition rot_nan_record : doc := <["ROT" := VStr "nan"]> (record 219000001 0).

(** The first two driver calls raise; every other call returns. *)
Definition two_calls_down : nat → outcome :=
  λ n, if (n <? 2)%nat then Raise [] else Succeed.

(** Every driver call raises. *)
Definition always_down : nat → outcome := λ _, Raise [].

End Example.

(** ** What a run added to the trace, and event counts *)

Section Observations.
Context `{PyFloat}.

Definition new_events (w w' : world) : list event :=
  drop (length (trace w)) (trace w').

Definition new_docs (w w' : world) : list doc :=
  drop (length (stored w)) (stored w').

Definition is_connect (e : event) : bool :=
  match e with EConnect => true | _ => false end.
Definition is_bulk_insert (e : event) : bool :=
  match e with EInsertMany _ => true | _ => false end.
Definition is_single_insert (e : event) : bool :=
  match e with EInsertOne _ => true | _ => false end.
Definition is_driver_call (e : event) : bool :=
  match e with
  | EConnect | EPing | ECreateIndex | EClose
  | EFind _ | EInsertMany _ | EInsertOne _ => true
  | _ => false
  end.
Definition is_chunk_error (e : event) : bool :=
  match e with ELog (MsgChunkError _ _) => true | _ => false end.

Definition count (p : event → bool) (evs : list event) : nat :=
  length (List.filter p evs).

(** The delays slept, in order. *)
Definition sleeps (evs : list event) : list Z :=
  omap (λ e, match e with ESleep s => Some s | _ => None end) evs.

(** The chunks handed to the pool, in order. *)
Definition submitted (evs : list event) : list (list doc) :=
  omap (λ e, match e with ESubmit c => Some c | _ => None end) evs.

(** Linear backoff, in the words of the retry policy: the delay after the
    k-th failed attempt, counting from 1, is [base * k]. *)
Definition linear_backoff (base : Z) (delays : list Z) : Prop :=
  ∀ k delay, delays !! k = Some delay → delay = base * (Z.of_nat k + 1).

Fixpoint nondecreasing (delays : list Z) : Prop :=
  match delays with
  | a :: (b :: _) as rest => a ≤ b ∧ nondecreasing rest
  | _ => True
  end.

(** How many of the [n] driver calls from call number [from] on return. *)
Fixpoint returning (fate : nat → outcome) (from n : nat) : nat :=
  match n with
  | O => 0
  | S n' =>
      (match fate from with Succeed => 1 | Raise _ => 0 end
       + returning fate (S from) n')%nat
  end.

(** The records of a vessel group that the filter keeps, in the words of
    the filtering rule: none of a group of fewer than 100, otherwise those
    that pass the required-field check, without their ["_id"] and with
    their numeric fields coerced. *)
Definition retained (docs : list doc) : list doc :=
  if len docs <? 100 then []
  else coerce_numeric <$> List.filter has_required (del_id <$> docs).

(** What the coercion makes of a numeric field's entry. *)
Definition coerced (entry : option value) : option value :=
  match entry with
  | None => None
  | Some VNone => Some VNone
  | Some v =>
      match py_float v with
      | Some x => if isnan x then Some VNone else Some (VFloat x)
      | None => Some VNone
      end
  end.

(** Events of the last resort. *)
Definition fallback_event (e : event) : bool :=
  match e with
  | EConnect | EInsertOne _ | EClose | ELog MsgIndividualInsertsFailed => true
  | _ => false
  end.

(** Events of one bulk attempt. *)
Definition bulk_event (e : event) : bool :=
  match e with
  | EConnect | EInsertMany _ | EClose => true
  | _ => false
  end.

(** What the last resort does when it starts at driver call number [from]:
    it reconnects; if that fails it logs and gives 0; otherwise it tries
    every record of the chunk once, in order, closes, and gives the number
    of single inserts that returned, or logs and gives 0 when closing
    fails. *)
Definition fallback_outcome (chunk : list doc) (fate : nat → outcome)
    (from : nat) (fb : list event) (r : option nat) : Prop :=
  match fate from with
  | Raise _ => fb = [EConnect; ELog MsgIndividualInsertsFailed] ∧ r = Some 0%nat
  | Succeed =>
      match fate (from + 1 + length chunk)%nat with
      | Succeed =>
          fb = EConnect :: (EInsertOne <$> chunk) ++ [EClose]
          ∧ r = Some (returning fate (from + 1) (length chunk))
      | Raise _ =>
          fb = EConnect :: (EInsertOne <$> chunk)
                 ++ [EClose; ELog MsgIndividualInsertsFailed]
          ∧ r = Some 0%nat
      end
  end.

Definition counters_ok (c : counters) : Prop :=
  0 ≤ vessels_filtered c ≤ vessels_processed c
  ∧ 0 ≤ filtered_docs c ≤ total_docs c.

(** The counters after one more vessel group, in the words of the
    filtering rule: one more vessel and its records seen; one more vessel
    and its retained records kept, when any record is retained. *)
Definition count_vessel (c : counters) (docs : list doc) : counters :=
  let kept := retained docs in
  {| vessels_processed := vessels_processed c + 1;
     vessels_filtered :=
       vessels_filtered c + match kept with [] => 0 | _ => 1 end;
     total_docs := total_docs c + len docs;
     filtered_docs := filtered_docs c + len kept |}.

(** The counters and the stored records after the groups of a batch. *)
Definition tally (src : value → list doc) (c : counters)
    (mmsi_batch : list value) : counters :=
  foldl (λ c mmsi, count_vessel c (src mmsi)) c mmsi_batch.

Definition all_retained (src : value → list doc) (mmsi_batch : list value)
  : list doc :=
  flat_map (λ mmsi, retained (src mmsi)) mmsi_batch.

(** The world after [k] more driver calls that left the events [evs] and
    stored the documents [ds]. *)
Definition advance (w : world) (k : nat) (evs : list event) (ds : list doc)
  : world :=
  {| source := source w; stored := stored w ++ ds; csv := csv w;
     fate := fate w; calls := calls w + k; trace := trace w ++ evs |}.

(** [m], run in [w], ends with [r] after [k] driver calls, the events [evs]
    and the stored documents [ds]. *)
Definition runs {A} (m : prog A) (w : world) (r : result A) (k : nat)
    (evs : list event) (ds : list doc) : Prop :=
  m w = (r, advance w k evs ds).

(** No driver call raises, from the world's next call on. *)
Definition calm (w : world) : Prop :=
  ∀ n, (calls w ≤ n)%nat → fate w n = Succeed.

(** Every driver call raises, from the world's next call on. *)
Definition down (w : world) : Prop :=
  ∀ n, (calls w ≤ n)%nat → fate w n ≠ Succeed.

(** Events of the per-vessel work: reads and bulk inserts only. *)
Definition vessel_event (e : event) : bool :=
  match e with EFind _ | EInsertMany _ => true | _ => false end.

End Observations.

(** ** [full_filter.py]: the batches of [main] and its worker pool *)

Section FilterMain.
Context `{PyFloat}.
Variable cfg : settings.
Local Open Scope prog_scope.

Definition N_PROCESSES : Z := 4.

(** [max(1, count_distinct // (N_PROCESSES * 2))] *)
Definition mmsi_batch_size (count_distinct : Z) : Z :=
  Z.max 1 (count_distinct / (N_PROCESSES * 2)).

(** [[distinct_mmsis[i:i + batch_size]
      for i in range(0, count_distinct, batch_size)]] *)
Definition mmsi_batches (distinct_mmsis : list value) : list (list value) :=
  let count_distinct := len distinct_mmsis in
  let batch_size := mmsi_batch_size count_distinct in
  (λ i, slice distinct_mmsis (Z.to_nat i) (Z.to_nat batch_size))
    <$> zrange_step count_distinct batch_size.

(** One round of [for result in pool.imap_unordered(process_vessel_batch,
    mmsi_batches)]: the result is unpacked into four numbers, which are
    added to the totals; a result that is not a tuple cannot be unpacked.
    As for the ingestion, the workers are run one after the other, in
    submission order: the real pool runs four of them at a time and hands
    the results over as they complete, so the order in which the records
    of different batches reach the target is the one of this run only.
    What is said about a run of the pool below does not depend on it. *)
Definition add_result (totals : counters) (mmsi_batch : list value)
  : prog counters :=
  result ← process_vessel_batch cfg mmsi_batch;
  match result with
  | None => raise
  | Some c =>
      ret {| vessels_processed := vessels_processed totals + vessels_processed c;
             vessels_filtered := vessels_filtered totals + vessels_filtered c;
             total_docs := total_docs totals + total_docs c;
             filtered_docs := filtered_docs totals + filtered_docs c |}
  end.

(** The part of [main] between the answer of [distinct("MMSI")] and the
    summary: the identifiers are cut into batches, the pool runs
    [process_vessel_batch] on each of them, and the four totals are summed. *)
Definition filter_pool (distinct_mmsis : list value) : prog counters :=
  for_each add_result (Counters 0 0 0 0) (mmsi_batches distinct_mmsis).

End FilterMain.

(** ** [fault_tolerance_demo.py]: the header lines

    [print_separator] and [print_header] only print; they are given here
    by the lines they print. *)

Section Header.

Fixpoint repeat_char (c : ascii) (n : nat) : string :=
  match n with
  | O => EmptyString
  | S n' => String c (repeat_char c n')
  end.

(** [s.center(width)] with the default fill character, a space: [s] itself
    when it is at least [width] long; otherwise the padding is split in
    two, and a padding of odd size puts the extra space on the left when
    [width] is odd and on the right when it is even. *)
Definition center (s : string) (width : nat) : string :=
  if (width <=? String.length s)%nat then s
  else
    let marg := (width - String.length s)%nat in
    let left := (marg / 2 + Nat.land (Nat.land marg width) 1)%nat in
    repeat_char " " left +:+ s +:+ repeat_char " " (marg - left).

(** [print("=" * 80)] *)
Definition print_separator : list string := [repeat_char "=" 80].

(** [print_separator(); print(f" {title} ".center(80)); print_separator()] *)
Definition print_header (title : string) : list string :=
  print_separator ++ [center (" " +:+ title +:+ " ") 80] ++ print_separator.

End Header.

(** ** Further observations *)

Section Totals.
Context `{PyFloat}.

(** The time slept, in seconds. *)
Definition total_sleep (evs : list event) : Z := foldr Z.add 0 (sleeps evs).

(** The batches given to [insert_many], in order. *)
Definition bulk_batches (evs : list event) : list (list doc) :=
  omap (λ e, match e with EInsertMany batch => Some batch | _ => None end) evs.

(** The line that tells that a retry of the demo's query succeeded. *)
Definition is_recovered (e : event) : bool :=
  match e with EPrint (MsgRecovered _) => true | _ => false end.

End Totals.

(** ** The rules, in the words of the specification *)

Section Rules.
Context `{PyFloat}.

(** The spellings of the sentinel text: nan in any letter case. *)
Definition nan_text (s : string) : bool :=
  existsb (String.eqb s)
    ["nan"; "naN"; "nAn"; "nAN"; "Nan"; "NaN"; "NAn"; "NAN"].

(** A required field is usable when it is present and its value is not
    null, not the empty text, not the sentinel text and not a NaN. *)
Definition usable (entry : option value) : bool :=
  match entry with
  | None => false
  | Some VNone => false
  | Some (VStr s) => negb (String.eqb s "") && negb (nan_text s)
  | Some (VFloat x) => negb (isnan x)
  | Some (VBool _) | Some (VInt _) | Some (VObjectId _) => true
  end.

(** A record passes the required-field rule when MMSI, Latitude,
    Longitude and Navigational status are all usable. *)
Definition complete_record (d : doc) : bool :=
  usable (d !! "MMSI")
  && usable (d !! "Latitude")
  && usable (d !! "Longitude")
  && usable (d !! "Navigational status").

(** The filtering rule: none of the records of a group of fewer than 100;
    otherwise the complete records, without their ["_id"] and with their
    numeric fields coerced. *)
Definition kept_records (docs : list doc) : list doc :=
  if len docs <? 100 then []
  else coerce_numeric <$> List.filter complete_record (del_id <$> docs).

(** The attempt that an error line reports as failed, for each of the
    three retry loops. The line is the first statement of the [except]
    block of the attempt: it is written when, and only when, the attempt
    raised. *)
Definition chunk_failure (e : event) : option nat :=
  match e with ELog (MsgChunkError attempt _) => Some attempt | _ => None end.
Definition batch_failure (e : event) : option nat :=
  match e with ELog (MsgBatchError attempt _) => Some attempt | _ => None end.
Definition retry_failure (e : event) : option nat :=
  match e with EPrint (MsgRetryFailed retry _ _) => Some retry | _ => None end.

(** For each reported failure, in order: the number of the failed attempt
    and the delay slept right after the report, if the next thing that
    happens is a sleep. *)
Fixpoint pauses (failure : event → option nat) (evs : list event)
  : list (nat * option Z) :=
  match evs with
  | [] => []
  | e :: rest =>
      match failure e with
      | Some attempt =>
          (attempt, match rest with ESleep s :: _ => Some s | _ => None end)
            :: pauses failure rest
      | None => pauses failure rest
      end
  end.

(** The retry policy of the demo, for [failed] failed retries in a row:
    after the k-th, counted from 1, [base * k] seconds are slept. *)
Definition linear_pauses (base : Z) (failed : nat) : list (nat * option Z) :=
  (λ k, (k, Some (base * Z.of_nat k))) <$> seq 1 failed.

(** The retry policy of the two workers, for [failed] failed attempts in a
    row out of [max_retries]: after each, [base] seconds are slept, except
    after attempt number [max_retries], the last. *)
Definition constant_pauses (base : Z) (max_retries failed : nat)
  : list (nat * option Z) :=
  (λ k, (k, if (k <? max_retries)%nat then Some base else None))
    <$> seq 1 failed.

End Rules.

(** * Properties *)

(** ** Running computations *)

Section Running.
Context `{PyFloat}.
Implicit Types (w : world) (evs : list event) (ds : list doc).

Lemma advance_zero w : advance w 0 [] [] = w.
Proof.
  destruct w; unfold advance; simpl.
  by rewrite !app_nil_r, Nat.add_0_r.
Qed.

Lemma advance_advance w k1 evs1 ds1 k2 evs2 ds2 :
  advance (advance w k1 evs1 ds1) k2 evs2 ds2
  = advance w (k1 + k2) (evs1 ++ evs2) (ds1 ++ ds2).
Proof.
  unfold advance; simpl. by rewrite !app_assoc, Nat.add_assoc.
Qed.

Lemma new_events_advance w k evs ds : new_events w (advance w k evs ds) = evs.
Proof. unfold new_events; simpl. by rewrite drop_app_length. Qed.

Lemma new_docs_advance w k evs ds : new_docs w (advance w k evs ds) = ds.
Proof. unfold new_docs; simpl. by rewrite drop_app_length. Qed.

Lemma calm_advance w k evs ds : calm w → calm (advance w k evs ds).
Proof. intros Hc n Hn. apply Hc. simpl in Hn. lia. Qed.

Lemma calm_next w : calm w → fate w (calls w) = Succeed.
Proof. intros Hc. by apply Hc. Qed.

Lemma down_advance w k evs ds : down w → down (advance w k evs ds).
Proof. intros Hd n Hn. apply Hd. simpl in Hn. lia. Qed.

Lemma down_next w : down w → fate w (calls w) ≠ Succeed.
Proof. intros Hd. by apply Hd. Qed.

Lemma runs_ret {A} (a : A) w : runs (ret a) w (Ret a) 0 [] [].
Proof. unfold runs, ret. by rewrite advance_zero. Qed.

Lemma runs_raise {A} w : runs (@raise _ A) w Exc 0 [] [].
Proof. unfold runs, raise. by rewrite advance_zero. Qed.

Lemma runs_bind {A B} (m : prog A) (f : A → prog B) w a k1 evs1 ds1
    r k2 evs2 ds2 :
  runs m w (Ret a) k1 evs1 ds1 →
  runs (f a) (advance w k1 evs1 ds1) r k2 evs2 ds2 →
  runs (bind m f) w r (k1 + k2) (evs1 ++ evs2) (ds1 ++ ds2).
Proof.
  unfold runs, bind. intros -> ->. by rewrite advance_advance.
Qed.

Lemma runs_bind_exc {A B} (m : prog A) (f : A → prog B) w k evs ds :
  runs m w Exc k evs ds → runs (bind m f) w Exc k evs ds.
Proof. unfold runs, bind. by intros ->. Qed.

Lemma runs_try {A} (body handler : prog A) w a k evs ds :
  runs body w (Ret a) k evs ds → runs (try_except body handler) w (Ret a) k evs ds.
Proof. unfold runs, try_except. by intros ->. Qed.

Lemma runs_except {A} (body handler : prog A) w k1 evs1 ds1 r k2 evs2 ds2 :
  runs body w Exc k1 evs1 ds1 →
  runs handler (advance w k1 evs1 ds1) r k2 evs2 ds2 →
  runs (try_except body handler) w r (k1 + k2) (evs1 ++ evs2) (ds1 ++ ds2).
Proof.
  unfold runs, try_except. intros -> ->. by rewrite advance_advance.
Qed.

Lemma runs_emit e w : runs (emit e) w (Ret tt) 0 [e] [].
Proof.
  unfold runs, emit, advance. by rewrite app_nil_r, Nat.add_0_r.
Qed.

Lemma runs_store docs w : runs (store docs) w (Ret tt) 0 [] docs.
Proof.
  unfold runs, store, advance. by rewrite app_nil_r, Nat.add_0_r.
Qed.

Lemma runs_driver_call e w :
  runs (driver_call e) w (Ret (fate w (calls w))) 1 [e] [].
Proof.
  unfold runs, driver_call, advance. by rewrite app_nil_r, Nat.add_1_r.
Qed.

(** A call that only returns or raises: [connect], [ping], [create_index],
    [close]. *)
Lemma runs_plain_call e w :
  runs (bind (driver_call e) returns_or_raises) w
       (match fate w (calls w) with Succeed => Ret tt | Raise _ => Exc end)
       1 [e] [].
Proof.
  unfold runs, bind, driver_call, returns_or_raises, advance.
  rewrite app_nil_r, Nat.add_1_r.
  by destruct (fate w (calls w)).
Qed.

Lemma runs_find key w :
  runs (find key) w
       (match fate w (calls w) with
        | Succeed => Ret (source w key)
        | Raise _ => Exc
        end)
       1 [EFind key] [].
Proof.
  unfold runs, find, bind, driver_call, raise, advance.
  rewrite app_nil_r, Nat.add_1_r.
  by destruct (fate w (calls w)).
Qed.

Lemma runs_insert_many d batch w :
  runs (insert_many (d :: batch)) w
       (match fate w (calls w) with Succeed => Ret tt | Raise _ => Exc end)
       1 [EInsertMany (d :: batch)]
       (match fate w (calls w) with
        | Succeed => d :: batch
        | Raise accepted => accepted_docs accepted (d :: batch)
        end).
Proof.
  unfold runs, insert_many, bind, driver_call, store, raise, advance.
  rewrite Nat.add_1_r.
  by destruct (fate w (calls w)).
Qed.

Lemma runs_insert_one d w :
  runs (insert_one d) w
       (match fate w (calls w) with Succeed => Ret tt | Raise _ => Exc end)
       1 [EInsertOne d]
       (match fate w (calls w) with
        | Succeed => [d]
        | Raise accepted => accepted_docs accepted [d]
        end).
Proof.
  unfold runs, insert_one, bind, driver_call, store, raise, advance.
  rewrite Nat.add_1_r.
  by destruct (fate w (calls w)).
Qed.

Lemma accepted_docs_subset accepted (batch : list doc) d :
  d ∈ accepted_docs accepted batch → d ∈ batch.
Proof.
  revert batch. induction accepted as [|[] accepted IH]; intros [|d' batch];
    simpl; try (by intros ?%elem_of_nil).
  - intros [->|Hin]%elem_of_cons; [left | right; by apply IH].
  - intros Hin. right. by apply IH.
Qed.

(** A run ends in one way only. *)
Lemma runs_inj {A} (m : prog A) w r k evs ds r' k' evs' ds' :
  runs m w r k evs ds → runs m w r' k' evs' ds' →
  r = r' ∧ evs = evs' ∧ ds = ds'.
Proof.
  unfold runs. intros -> [= -> Hds _ Hevs].
  by apply app_inv_head in Hds, Hevs.
Qed.

(** A driver call that returns, or raises, in front of a computation. *)
Lemma call_returns {A} e (m : prog A) w r k evs ds :
  fate w (calls w) = Succeed →
  runs m (advance w 1 [e] []) r k evs ds →
  runs (bind (bind (driver_call e) returns_or_raises) (λ _, m)) w r
       (1 + k) ([e] ++ evs) ([] ++ ds).
Proof.
  intros Hfate Hm. pose proof (runs_plain_call e w) as Hcall.
  rewrite Hfate in Hcall. by eapply runs_bind.
Qed.

Lemma call_raises {A} e (m : prog A) w :
  fate w (calls w) ≠ Succeed →
  runs (bind (bind (driver_call e) returns_or_raises) (λ _, m)) w Exc 1 [e] [].
Proof.
  intros Hfate. pose proof (runs_plain_call e w) as Hcall.
  destruct (fate w (calls w)); [done|]. by apply runs_bind_exc.
Qed.

Lemma emit_then {A} e (m : prog A) w r k evs ds :
  runs m (advance w 0 [e] []) r k evs ds →
  runs (bind (emit e) (λ _, m)) w r (0 + k) ([e] ++ evs) ([] ++ ds).
Proof. intros Hm. eapply runs_bind; [apply runs_emit|done]. Qed.

End Running.

(** ** Records: validation and coercion *)

Section RecordFacts.
Context `{PyFloat}.
Implicit Types (d : doc) (docs : list doc).

Lemma filter_docs_app docs filtered :
  filter_docs docs filtered
  = filtered ++ (coerce_numeric <$> List.filter has_required (del_id <$> docs)).
Proof.
  revert filtered. induction docs as [|d docs IH]; intros filtered; simpl.
  - by rewrite app_nil_r.
  - destruct (has_required (del_id d)); simpl; rewrite IH; [|done].
    by rewrite <- app_assoc.
Qed.

Lemma filter_docs_nil docs :
  filter_docs docs []
  = coerce_numeric <$> List.filter has_required (del_id <$> docs).
Proof. by rewrite filter_docs_app. Qed.

Lemma filter_docs_length docs : (length (filter_docs docs []) ≤ length docs)%nat.
Proof.
  rewrite filter_docs_nil, length_fmap.
  etransitivity; [apply filter_length_le|]. by rewrite length_fmap.
Qed.

Lemma coerce_field_lookup d field key :
  coerce_field d field !! key
  = if decide (key = field) then coerced (d !! field) else d !! key.
Proof.
  unfold coerce_field, coerced.
  destruct (decide (key = field)) as [->|Hne].
  - destruct (d !! field) as [v|] eqn:Hv; [|done].
    destruct v; simpl; try done;
      repeat match goal with
             | |- context [match ?x with _ => _ end] => destruct x eqn:?
             end; simpl; rewrite ?lookup_insert_eq; try done.
  - destruct (d !! field) as [v|] eqn:Hv; [|done].
    destruct (is_None v); [done|].
    destruct (py_float v) as [x|]; [destruct (negb (isnan x))|];
      by rewrite lookup_insert_ne.
Qed.

Lemma foldl_coerce_lookup fields d key :
  NoDup fields →
  foldl coerce_field d fields !! key
  = if decide (key ∈ fields) then coerced (d !! key) else d !! key.
Proof.
  intros Hnd. revert d. induction Hnd as [|field fields Hnotin Hnd IH];
    intros d; simpl.
  - destruct (decide (key ∈ [])) as [Hin|]; [by apply elem_of_nil in Hin|done].
  - rewrite IH, !coerce_field_lookup.
    destruct (decide (key = field)) as [->|Hne].
    + destruct (decide (field ∈ fields)); [done|].
      destruct (decide (field ∈ field :: fields)) as [|Hn]; [done|].
      exfalso. apply Hn. left.
    + destruct (decide (key ∈ fields)) as [Hin|Hnin];
        destruct (decide (key ∈ field :: fields)) as [Hin'|Hnin']; try done.
      * exfalso. apply Hnin'. by right.
      * apply elem_of_cons in Hin' as [->|?]; done.
Qed.

Lemma numeric_fields_NoDup : NoDup numeric_fields.
Proof. apply (bool_decide_unpack _). by vm_compute. Qed.

Lemma coerce_numeric_lookup d key :
  coerce_numeric d !! key
  = if decide (key ∈ numeric_fields) then coerced (d !! key) else d !! key.
Proof. apply foldl_coerce_lookup, numeric_fields_NoDup. Qed.

Lemma id_not_numeric : "_id" ∉ numeric_fields.
Proof. apply (bool_decide_unpack _). by vm_compute. Qed.

(** What the filter writes for a source record: no ["_id"], the numeric
    fields coerced, every other field as it was. *)
Lemma written_record_lookup d key :
  coerce_numeric (del_id d) !! key
  = if decide (key = "_id") then None
    else if decide (key ∈ numeric_fields) then coerced (d !! key)
    else d !! key.
Proof.
  rewrite coerce_numeric_lookup. unfold del_id.
  destruct (decide (key = "_id")) as [->|Hne].
  - destruct (decide ("_id" ∈ numeric_fields)) as [Hin|_].
    + by destruct id_not_numeric.
    + apply lookup_delete_eq.
  - by rewrite lookup_delete_ne.
Qed.

Lemma retained_small docs : len docs < 100 → retained docs = [].
Proof. unfold retained. intros Hlt. by apply Z.ltb_lt in Hlt as ->. Qed.

Lemma retained_large docs :
  100 ≤ len docs → retained docs = filter_docs docs [].
Proof.
  unfold retained. intros Hge.
  destruct (Z.ltb_spec (len docs) 100); [lia|]. by rewrite filter_docs_nil.
Qed.

Lemma elem_of_retained docs d' :
  d' ∈ retained docs →
  100 ≤ len docs
  ∧ ∃ d, d ∈ docs ∧ has_required (del_id d) = true
         ∧ d' = coerce_numeric (del_id d).
Proof.
  unfold retained. destruct (Z.ltb_spec (len docs) 100) as [|Hge].
  - by intros ?%elem_of_nil.
  - intros (d1 & -> & Hin)%list_elem_of_fmap. split; [done|].
    apply list_elem_of_In, filter_In in Hin as [Hin Hreq].
    apply list_elem_of_In, list_elem_of_fmap in Hin as (d & -> & Hd).
    eauto.
Qed.

(** The check of the code is the required-field rule. *)
Lemma lower_ascii_n c :
  Ascii.eqb (lower_ascii c) "n" = Ascii.eqb c "n" || Ascii.eqb c "N".
Proof. destruct c as [[] [] [] [] [] [] [] []]; reflexivity. Qed.

Lemma lower_ascii_a c :
  Ascii.eqb (lower_ascii c) "a" = Ascii.eqb c "a" || Ascii.eqb c "A".
Proof. destruct c as [[] [] [] [] [] [] [] []]; reflexivity. Qed.

Lemma lower_nan_text s : String.eqb (lower s) "nan" = nan_text s.
Proof.
  unfold nan_text.
  destruct s as [|c1 [|c2 [|c3 [|c4 s]]]];
    cbn [existsb String.eqb lower];
    rewrite ?lower_ascii_n, ?lower_ascii_a;
    repeat match goal with
           | |- context [Ascii.eqb ?a ?b] => destruct (Ascii.eqb a b)
           end;
    reflexivity.
Qed.

Lemma field_ok_usable entry : field_ok entry = usable entry.
Proof.
  destruct entry as [[| | |x|s|]|]; try reflexivity.
  - unfold field_ok, usable; simpl. by destruct (isnan x).
  - unfold field_ok, usable; simpl. rewrite lower_nan_text.
    by destruct (String.eqb s ""), (nan_text s).
Qed.

Lemma has_required_complete d : has_required d = complete_record d.
Proof.
  unfold has_required, complete_record, required_fields.
  cbn [forallb]. rewrite !field_ok_usable, andb_true_r.
  by rewrite !andb_assoc.
Qed.

Lemma filter_complete docs :
  List.filter has_required docs = List.filter complete_record docs.
Proof.
  induction docs as [|d docs IH]; [done|]. cbn [List.filter].
  by rewrite has_required_complete, IH.
Qed.

Lemma retained_kept docs : retained docs = kept_records docs.
Proof. unfold retained, kept_records. by rewrite filter_complete. Qed.

End RecordFacts.

(** ** One vessel group *)

Section VesselFacts.
Context `{PyFloat}.
Implicit Types (w : world) (evs : list event) (ds docs : list doc).

Lemma for_each_cons {A S} (body : S → A → prog S) acc x rest :
  for_each body acc (x :: rest)
  = bind (body acc x) (λ acc', for_each body acc' rest).
Proof. done. Qed.

Lemma slices_step {A} (l : list A) a n :
  slice l (a * 500) 500 ++ take (n * 500) (drop (S a * 500) l)
  = take (S n * 500) (drop (a * 500) l).
Proof.
  unfold slice.
  replace (S a * 500)%nat with (a * 500 + 500)%nat by lia.
  replace (S n * 500)%nat with (500 + n * 500)%nat by lia.
  rewrite <- drop_drop. apply take_take_drop.
Qed.

Lemma slice_subset {A} (l : list A) i n x : x ∈ slice l i n → x ∈ l.
Proof.
  unfold slice. intros Hin.
  apply (subseteq_drop i l), (subseteq_take n _), Hin.
Qed.

(** The sub-batch loop from batch number [a] on, for [n] rounds. *)
Lemma insert_batches_from filtered n a w :
  ∃ r k evs ds,
    runs (for_each (insert_slice filtered) tt ((λ j, j * 500)%nat <$> seq a n))
         w r k evs ds
    ∧ forallb vessel_event evs = true
    ∧ (∀ d, d ∈ ds → d ∈ filtered)
    ∧ (r = Ret tt → ds = take (n * 500) (drop (a * 500) filtered))
    ∧ (calm w → r = Ret tt).
Proof.
  revert a w. induction n as [|n IH]; intros a w.
  - exists (Ret tt), 0%nat, [], []. split; [apply runs_ret|].
    repeat split; try done. by intros ? ?%elem_of_nil.
  - cbn [seq fmap list_fmap]. rewrite for_each_cons.
    unfold insert_slice at 1.
    destruct (slice filtered (a * 500) 500) as [|d batch] eqn:Hslice.
    + destruct (IH (S a) (advance w 0 [] [])) as (r & k & evs & ds & Hrun & Hev & Hsub & Hret & Hcalm).
      exists r, (0 + k)%nat, ([] ++ evs), ([] ++ ds).
      split; [eapply runs_bind; [apply runs_ret|done]|].
      repeat split; try done.
      * intros Hr. rewrite <- slices_step, Hslice. by apply Hret.
      * intros Hc. by apply Hcalm, calm_advance.
    + pose proof (runs_insert_many d batch w) as Hins.
      destruct (fate w (calls w)) as [|accepted] eqn:Hfate.
      * destruct (IH (S a) (advance w 1 [EInsertMany (d :: batch)] (d :: batch)))
          as (r & k & evs & ds & Hrun & Hev & Hsub & Hret & Hcalm).
        exists r, (1 + k)%nat, ([EInsertMany (d :: batch)] ++ evs),
               ((d :: batch) ++ ds).
        split; [eapply runs_bind; [apply Hins|done]|].
        repeat split; try done.
        -- intros d' [Hin|Hin]%elem_of_app; [|by apply Hsub].
           rewrite <- Hslice in Hin. by eapply slice_subset.
        -- intros Hr. rewrite <- slices_step, Hslice. f_equal. by apply Hret.
        -- intros Hc. by apply Hcalm, calm_advance.
      * exists Exc, 1%nat, [EInsertMany (d :: batch)],
               (accepted_docs accepted (d :: batch)).
        split; [by apply runs_bind_exc|].
        repeat split; try done.
        -- intros d' Hin%accepted_docs_subset.
           rewrite <- Hslice in Hin. by eapply slice_subset.
        -- intros Hc. apply calm_next in Hc. congruence.
Qed.

Lemma range_step_covers n : (n ≤ (n + 500 - 1) / 500 * 500)%nat.
Proof.
  pose proof (Nat.div_mod_eq (n + 500 - 1) 500) as Hdiv.
  pose proof (Nat.mod_upper_bound (n + 500 - 1) 500). lia.
Qed.

Lemma insert_batches_runs filtered w :
  ∃ r k evs ds,
    runs (insert_batches filtered) w r k evs ds
    ∧ forallb vessel_event evs = true
    ∧ (∀ d, d ∈ ds → d ∈ filtered)
    ∧ (r = Ret tt → ds = filtered)
    ∧ (calm w → r = Ret tt).
Proof.
  unfold insert_batches, range_step.
  destruct (insert_batches_from filtered ((length filtered + 500 - 1) / 500) 0 w)
    as (r & k & evs & ds & Hrun & Hev & Hsub & Hret & Hcalm).
  exists r, k, evs, ds. repeat split; try done.
  intros Hr. rewrite (Hret Hr). simpl. rewrite drop_0.
  apply take_ge, range_step_covers.
Qed.

Lemma retained_length docs : len (retained docs) ≤ len docs.
Proof.
  unfold retained. destruct (len docs <? 100).
  - unfold len; simpl; lia.
  - rewrite <- filter_docs_nil. pose proof (filter_docs_length docs).
    unfold len; lia.
Qed.

Lemma count_vessel_ok c docs : counters_ok c → counters_ok (count_vessel c docs).
Proof.
  unfold counters_ok, count_vessel; simpl. intros [Hv Hd].
  pose proof (retained_length docs) as Hlen.
  assert (0 ≤ len (retained docs)) by (unfold len; lia).
  assert (0 ≤ len docs) by (unfold len; lia).
  destruct (retained docs); lia.
Qed.

(** One round of [for mmsi in mmsi_batch]. When it returns, the group's
    retained records, and nothing else, have been stored; when it raises,
    a part of them may have been. *)
Lemma process_vessel_runs c mmsi w :
  ∃ r k evs ds,
    runs (process_vessel c mmsi) w r k evs ds
    ∧ forallb vessel_event evs = true
    ∧ (∀ d, d ∈ ds → d ∈ retained (source w mmsi))
    ∧ (∀ c', r = Ret c' →
         ds = retained (source w mmsi)
         ∧ c' = count_vessel c (source w mmsi))
    ∧ (count is_bulk_insert evs ≠ 0%nat → retained (source w mmsi) ≠ [])
    ∧ (calm w → ∃ c', r = Ret c').
Proof.
  unfold process_vessel.
  pose proof (runs_find mmsi w) as Hfind.
  destruct (fate w (calls w)) as [|accepted] eqn:Hfate.
  2:{ exists Exc, 1%nat, [EFind mmsi], [].
      split; [by apply runs_bind_exc|].
      repeat split; try done.
      - by intros ? ?%elem_of_nil.
      - intros Hc. apply calm_next in Hc. congruence. }
  set (docs := source w mmsi) in *.
  destruct (Z.ltb_spec (len docs) 100) as [Hsmall|Hlarge].
  - exists (Ret (count_vessel c docs)), (1 + 0)%nat, ([EFind mmsi] ++ []), ([] ++ []).
    split.
    { eapply runs_bind; [apply Hfind|]. simpl.
      rewrite (proj2 (Z.ltb_lt _ _) Hsmall).
      unfold count_vessel. rewrite (retained_small docs Hsmall).
      change (len (@nil doc)) with 0. rewrite !Z.add_0_r.
      apply runs_ret. }
    rewrite (retained_small docs Hsmall).
    repeat split; try done; try congruence. eauto.
  - rewrite (retained_large docs Hlarge).
    destruct (filter_docs docs []) as [|d0 filtered] eqn:Hfiltered.
    + exists (Ret (count_vessel c docs)), (1 + 0)%nat, ([EFind mmsi] ++ []), ([] ++ []).
      split.
      { eapply runs_bind; [apply Hfind|]. simpl.
        rewrite (proj2 (Z.ltb_ge _ _) Hlarge), Hfiltered.
        unfold count_vessel.
        rewrite (retained_large docs Hlarge), Hfiltered.
        change (len (@nil doc)) with 0. rewrite !Z.add_0_r.
        apply runs_ret. }
      repeat split; try done; try congruence. eauto.
    + destruct (insert_batches_runs (d0 :: filtered) (advance w 1 [EFind mmsi] []))
        as (r & k & evs & ds & Hrun & Hev & Hsub & Hret & Hcalm).
      destruct r as [[]|].
      * exists (Ret (count_vessel c docs)), (1 + (k + 0))%nat,
          ([EFind mmsi] ++ evs ++ []), ([] ++ ds ++ []).
        split.
        { eapply runs_bind; [apply Hfind|]. simpl.
          rewrite (proj2 (Z.ltb_ge _ _) Hlarge), Hfiltered.
          eapply runs_bind; [apply Hrun|].
          unfold count_vessel.
          rewrite (retained_large docs Hlarge), Hfiltered.
          apply runs_ret. }
        rewrite !app_nil_r. simpl.
        repeat split; try done.
        -- by rewrite Hret.
        -- congruence.
        -- eauto.
      * exists Exc, (1 + k)%nat, ([EFind mmsi] ++ evs), ([] ++ ds).
        split.
        { eapply runs_bind; [apply Hfind|]. simpl.
          rewrite (proj2 (Z.ltb_ge _ _) Hlarge), Hfiltered.
          by apply runs_bind_exc. }
        simpl. repeat split; try done.
        intros Hc. apply (calm_advance _ 1 [EFind mmsi] []) in Hc.
        by apply Hcalm in Hc.
Qed.

End VesselFacts.

(** ** Counting events *)

Section EventFacts.
Context `{PyFloat}.
Implicit Types (evs : list event).

Lemma count_app p evs1 evs2 :
  count p (evs1 ++ evs2) = (count p evs1 + count p evs2)%nat.
Proof. unfold count. by rewrite List.filter_app, length_app. Qed.

Lemma count_cons p e evs :
  count p (e :: evs) = ((if p e then 1 else 0) + count p evs)%nat.
Proof. unfold count; simpl. by destruct (p e). Qed.

Lemma count_nil p : count p [] = 0%nat.
Proof. done. Qed.

Lemma sleeps_app evs1 evs2 : sleeps (evs1 ++ evs2) = sleeps evs1 ++ sleeps evs2.
Proof. apply omap_app. Qed.

Lemma submitted_app evs1 evs2 :
  submitted (evs1 ++ evs2) = submitted evs1 ++ submitted evs2.
Proof. apply omap_app. Qed.

(** Events of one kind do not count as another. *)
Lemma count_none p q evs :
  (∀ e, q e = true → p e = false) → forallb q evs = true → count p evs = 0%nat.
Proof.
  intros Hpq. induction evs as [|e evs IH]; [done|]; simpl.
  intros [He Hevs]%andb_true_iff. rewrite count_cons, (Hpq e He). by apply IH.
Qed.

Lemma sleeps_none q evs :
  (∀ e, q e = true → match e with ESleep _ => False | _ => True end) →
  forallb q evs = true → sleeps evs = [].
Proof.
  intros Hq. induction evs as [|e evs IH]; [done|]; simpl.
  intros [He Hevs]%andb_true_iff. specialize (Hq e He).
  destruct e; try done; by apply IH.
Qed.

Lemma vessel_events_quiet evs :
  forallb vessel_event evs = true →
  count is_connect evs = 0%nat
  ∧ count is_single_insert evs = 0%nat
  ∧ sleeps evs = [].
Proof.
  intros Hev. repeat split.
  - apply (count_none _ vessel_event); [by intros []|done].
  - apply (count_none _ vessel_event); [by intros []|done].
  - apply (sleeps_none vessel_event); [by intros []|done].
Qed.

Lemma nondecreasing_replicate n (x : Z) : nondecreasing (replicate n x).
Proof.
  induction n as [|[|n] IH]; simpl; first [done | split; [lia|apply IH]].
Qed.

End EventFacts.

(** Counts of events over an explicit list. *)
Ltac count_simpl :=
  rewrite ?count_app, ?count_cons, ?count_nil; simpl.

(** The routine side conditions of the run lemmas. *)
Ltac settle :=
  try done; try lia;
  try (by intros ? ?%elem_of_nil);
  try (exists 0%nat; split; [lia|done]);
  eauto.

(** ** [process_vessel_batch]: one attempt, and the retries *)

Section VesselBatchFacts.
Context `{PyFloat}.
Variable cfg : settings.
Implicit Types (w : world) (evs : list event) (ds docs : list doc).

Lemma tally_ok src c batch : counters_ok c → counters_ok (tally src c batch).
Proof.
  revert c. induction batch as [|mmsi batch IH]; intros c Hc; [done|].
  apply IH. by apply count_vessel_ok.
Qed.

Lemma zero_counters_ok : counters_ok (Counters 0 0 0 0).
Proof. unfold counters_ok; simpl; lia. Qed.

Lemma vessels_loop_runs batch c w :
  ∃ r k evs ds,
    runs (for_each process_vessel c batch) w r k evs ds
    ∧ forallb vessel_event evs = true
    ∧ (∀ d, d ∈ ds → d ∈ all_retained (source w) batch)
    ∧ (∀ c', r = Ret c' →
         ds = all_retained (source w) batch ∧ c' = tally (source w) c batch)
    ∧ (calm w → ∃ c', r = Ret c').
Proof.
  revert c w. induction batch as [|mmsi batch IH]; intros c w.
  - exists (Ret c), 0%nat, [], []. split; [apply runs_ret|].
    split_and!; try done.
    + by intros c' [= <-].
    + eauto.
  - rewrite for_each_cons.
    destruct (process_vessel_runs c mmsi w)
      as (r1 & k1 & evs1 & ds1 & Hrun1 & Hev1 & Hsub1 & Hret1 & _ & Hcalm1).
    destruct r1 as [c1|].
    + destruct (Hret1 c1 eq_refl) as [-> ->].
      destruct (IH (count_vessel c (source w mmsi))
                   (advance w k1 evs1 (retained (source w mmsi))))
        as (r & k & evs & ds & Hrun & Hev & Hsub & Hret & Hcalm).
      exists r, (k1 + k)%nat, (evs1 ++ evs), (retained (source w mmsi) ++ ds).
      split; [by eapply runs_bind|].
      split_and!.
      * rewrite forallb_app. by rewrite Hev1, Hev.
      * intros d [Hin|Hin]%elem_of_app; simpl; apply elem_of_app; auto.
      * intros c' Hc'. by destruct (Hret c' Hc') as [-> ->].
      * intros Hc. by apply Hcalm, calm_advance.
    + exists Exc, k1, evs1, ds1. split; [by apply runs_bind_exc|].
      split_and!; try done.
      intros d Hin. simpl. apply elem_of_app. left. by apply Hsub1.
Qed.

Lemma vessel_batch_attempt_runs batch w :
  ∃ r k evs ds,
    runs (vessel_batch_attempt batch) w r k evs ds
    ∧ count is_connect evs = 1%nat
    ∧ count is_single_insert evs = 0%nat
    ∧ sleeps evs = []
    ∧ (∀ d, d ∈ ds → d ∈ all_retained (source w) batch)
    ∧ (∀ c, r = Ret c →
         ds = all_retained (source w) batch
         ∧ c = tally (source w) (Counters 0 0 0 0) batch)
    ∧ (calm w → ∃ c, r = Ret c).
Proof.
  unfold vessel_batch_attempt, connect, close.
  pose proof (runs_plain_call EConnect w) as Hconn.
  destruct (fate w (calls w)) as [|accepted] eqn:Hfate.
  2:{ exists Exc, 1%nat, [EConnect], []. split; [by apply runs_bind_exc|].
      split_and!; try done.
      - by intros ? ?%elem_of_nil.
      - intros Hc. apply calm_next in Hc. congruence. }
  set (w1 := advance w 1 [EConnect] []) in *.
  destruct (vessels_loop_runs batch (Counters 0 0 0 0) w1)
    as (r & k & evs & ds & Hrun & Hev & Hsub & Hret & Hcalm).
  destruct (vessel_events_quiet evs Hev) as (Hc1 & Hc2 & Hc3).
  destruct r as [c|].
  2:{ exists Exc, (1 + k)%nat, ([EConnect] ++ evs), ([] ++ ds).
      split; [eapply runs_bind; [apply Hconn|by apply runs_bind_exc]|].
      rewrite !count_app, sleeps_app, Hc1, Hc2, Hc3.
      split_and!; try done.
      intros Hc. apply (calm_advance _ 1 [EConnect] []) in Hc.
      destruct (Hcalm Hc) as [? [=]]. }
  destruct (Hret c eq_refl) as [-> ->].
  set (w2 := advance w1 k evs (all_retained (source w1) batch)) in *.
  pose proof (runs_plain_call EClose w2) as Hclose.
  destruct (fate w2 (calls w2)) as [|accepted] eqn:Hfate2.
  - exists (Ret (tally (source w) (Counters 0 0 0 0) batch)), (1 + (k + (1 + 0)))%nat,
      ([EConnect] ++ evs ++ [EClose] ++ []),
      ([] ++ all_retained (source w) batch ++ [] ++ []).
    split.
    { eapply runs_bind; [apply Hconn|].
      eapply runs_bind; [apply Hrun|].
      eapply runs_bind; [apply Hclose|]. apply runs_ret. }
    rewrite !count_app, !sleeps_app, Hc1, Hc2, Hc3, !app_nil_r.
    split_and!; try done; eauto.
  - exists Exc, (1 + (k + 1))%nat, ([EConnect] ++ evs ++ [EClose]),
      ([] ++ all_retained (source w) batch ++ []).
    split.
    { eapply runs_bind; [apply Hconn|].
      eapply runs_bind; [apply Hrun|]. by apply runs_bind_exc. }
    rewrite !count_app, !sleeps_app, Hc1, Hc2, Hc3, !app_nil_r.
    split_and!; try done.
    intros Hc. apply (calm_advance _ 1 [EConnect] []) in Hc.
    apply (calm_advance _ k evs (all_retained (source w1) batch)) in Hc.
    apply calm_next in Hc. fold w1 w2 in Hc. congruence.
Qed.

(** The retry loop from attempt number [a] on, with [n] attempts left. It
    always returns; it connects once per attempt, never inserts record by
    record, and sleeps [RETRY_DELAY] after each failed attempt but the
    last. *)
Lemma vessel_batch_attempts_runs n a batch w :
  (a + n)%nat = MAX_RETRIES cfg →
  ∃ r k evs ds,
    runs (vessel_batch_attempts cfg (seq a n) batch) w (Ret r) k evs ds
    ∧ (count is_connect evs ≤ n)%nat
    ∧ count is_single_insert evs = 0%nat
    ∧ (∃ j, (j ≤ n - 1)%nat ∧ sleeps evs = replicate j (RETRY_DELAY cfg))
    ∧ (∀ d, d ∈ ds → d ∈ all_retained (source w) batch)
    ∧ (∀ c, r = Some c →
         c = tally (source w) (Counters 0 0 0 0) batch ∨ c = Counters 0 0 0 0)
    ∧ (n ≠ 0%nat → ∃ c, r = Some c)
    ∧ (calm w → n ≠ 0%nat →
         r = Some (tally (source w) (Counters 0 0 0 0) batch)
         ∧ ds = all_retained (source w) batch
         ∧ (count is_connect evs = 1)%nat
         ∧ sleeps evs = []).
Proof.
  revert a w. induction n as [|n IH]; intros a w Hmax.
  - exists None, 0%nat, [], []. split; [apply runs_ret|].
    split_and!; try done.
    + exists 0%nat; split; [lia|done].
    + by intros ? ?%elem_of_nil.
  - cbn [seq vessel_batch_attempts].
    destruct (vessel_batch_attempt_runs batch w)
      as (r1 & k1 & evs1 & ds1 & Hrun1 & Hconn1 & Hone1 & Hsl1 & Hsub1 & Hret1 & Hcalm1).
    destruct r1 as [c|].
    { destruct (Hret1 c eq_refl) as [-> ->].
      exists (Some (tally (source w) (Counters 0 0 0 0) batch)), (k1 + 0)%nat,
        (evs1 ++ []), (all_retained (source w) batch ++ []).
      split.
      { apply runs_try. eapply runs_bind; [apply Hrun1|apply runs_ret]. }
      rewrite !app_nil_r, Hconn1, Hone1, Hsl1.
      split_and!; try done; eauto.
      - lia.
      - exists 0%nat; split; [lia|done].
      - intros c [= <-]. by left. }
    set (w1 := advance w k1 evs1 ds1).
    set (e1 := ELog (MsgBatchError (a + 1) (MAX_RETRIES cfg))).
    destruct (a <? MAX_RETRIES cfg - 1)%nat eqn:Hlast.
    + apply Nat.ltb_lt in Hlast.
      destruct (IH (S a) (advance (advance w1 0 [e1] []) 0
                                   [ESleep (RETRY_DELAY cfg)] []))
        as (r & k & evs & ds & Hrun & Hconn & Hone & (j & Hj & Hsl) & Hsub & Hok & Hsome & _);
        [lia|].
      exists r, (k1 + (0 + (0 + k)))%nat,
        (evs1 ++ [e1] ++ [ESleep (RETRY_DELAY cfg)] ++ evs),
        (ds1 ++ [] ++ [] ++ ds).
      split.
      { eapply runs_except; [by apply runs_bind_exc|].
        eapply runs_bind; [apply runs_emit|].
        eapply runs_bind; [apply runs_emit|]. apply Hrun. }
      subst e1.
      rewrite !count_app, !sleeps_app, !count_cons, !count_nil,
        Hconn1, Hone1, Hsl1, Hone, Hsl.
      split_and!; try done.
      * simpl. lia.
      * exists (S j). split; [lia|done].
      * intros d [Hin|Hin]%elem_of_app; [by apply Hsub1|by apply Hsub].
      * intros _. apply Hsome. lia.
      * intros Hc. by destruct (Hcalm1 Hc) as [? [=]].
    + apply Nat.ltb_ge in Hlast.
      exists (Some (Counters 0 0 0 0)), (k1 + (0 + (0 + 0)))%nat,
        (evs1 ++ [e1] ++ [ELog MsgFailedAllRetries] ++ []),
        (ds1 ++ [] ++ [] ++ []).
      split.
      { eapply runs_except; [by apply runs_bind_exc|].
        eapply runs_bind; [apply runs_emit|].
        eapply runs_bind; [apply runs_emit|]. apply runs_ret. }
      subst e1.
      rewrite !app_nil_r, !count_app, !sleeps_app, !count_cons, !count_nil,
        Hconn1, Hone1, Hsl1.
      split_and!; try done; eauto.
      * simpl. lia.
      * exists 0%nat; split; [lia|done].
      * intros c [= <-]. by right.
      * intros Hc. by destruct (Hcalm1 Hc) as [? [=]].
Qed.

Lemma process_vessel_batch_runs batch w :
  ∃ r k evs ds,
    runs (process_vessel_batch cfg batch) w (Ret r) k evs ds
    ∧ (count is_connect evs ≤ MAX_RETRIES cfg)%nat
    ∧ count is_single_insert evs = 0%nat
    ∧ (∃ j, (j ≤ MAX_RETRIES cfg - 1)%nat
            ∧ sleeps evs = replicate j (RETRY_DELAY cfg))
    ∧ (∀ d, d ∈ ds → d ∈ all_retained (source w) batch)
    ∧ (∀ c, r = Some c →
         c = tally (source w) (Counters 0 0 0 0) batch ∨ c = Counters 0 0 0 0)
    ∧ (MAX_RETRIES cfg ≠ 0%nat → ∃ c, r = Some c)
    ∧ (calm w → MAX_RETRIES cfg ≠ 0%nat →
         r = Some (tally (source w) (Counters 0 0 0 0) batch)
         ∧ ds = all_retained (source w) batch
         ∧ (count is_connect evs = 1)%nat
         ∧ sleeps evs = []).
Proof. by apply vessel_batch_attempts_runs. Qed.

Lemma elem_of_all_retained src batch d :
  d ∈ all_retained src batch → ∃ mmsi, mmsi ∈ batch ∧ d ∈ retained (src mmsi).
Proof.
  unfold all_retained.
  intros (mmsi & Hin & Hd)%list_elem_of_In%in_flat_map.
  exists mmsi. by rewrite !list_elem_of_In.
Qed.

Lemma retained_none docs :
  (∀ d, d ∈ docs → has_required (del_id d) = false) → retained docs = [].
Proof.
  intros Hnone. unfold retained. destruct (len docs <? 100); [done|].
  replace (List.filter has_required (del_id <$> docs)) with (@nil doc); [done|].
  symmetry. induction docs as [|d docs IH]; [done|]; simpl.
  rewrite (Hnone d) by left. apply IH. intros d' Hd'. apply Hnone. by right.
Qed.

End VesselBatchFacts.

(** ** The filter: claims *)

Section FilterClaims.
Context `{PyFloat}.
Implicit Types (w : world) (c : counters) (d : doc) (docs : list doc).

(** C1. The check of the code is the required-field rule: a record
    passes it exactly when MMSI, Latitude, Longitude and Navigational
    status are each present and neither null, nor the empty text, nor the
    text nan in any letter case, nor a NaN. For every vessel group that
    [process_vessel_batch] processes (one round of its loop over the batch,
    under any pattern of store failures): a group of fewer than 100 records
    leaves the target collection as it was; for a group of at least 100
    records, when the round completes, the target has grown by exactly the
    records that pass the rule (without ["_id"], numeric fields coerced),
    in order; whatever the round stores comes from such a record; and when
    no store call raises, the round does complete. For a whole batch,
    retries included: whatever is stored is a kept record of a group of the
    batch, and on a store that does not fail the target grows by exactly
    the kept records of its groups. *)
Theorem vessel_group_filtering cfg (mmsi_batch : list value) c mmsi w :
  let docs := source w mmsi in
  let round := process_vessel c mmsi w in
  let run := process_vessel_batch cfg mmsi_batch w in
  (∀ d, has_required d = complete_record d)
  ∧ (∀ group, retained group = kept_records group)
  ∧ (len docs < 100 → stored round.2 = stored w)
  ∧ (100 ≤ len docs → (∃ c', round.1 = Ret c') →
       stored round.2
       = stored w
         ++ (coerce_numeric <$> List.filter complete_record (del_id <$> docs)))
  ∧ (∀ d', d' ∈ new_docs w round.2 →
       100 ≤ len docs
       ∧ ∃ d, d ∈ docs ∧ complete_record (del_id d) = true
              ∧ d' = coerce_numeric (del_id d))
  ∧ (calm w → ∃ c', round.1 = Ret c')
  ∧ (∀ d', d' ∈ new_docs w run.2 →
       ∃ mmsi', mmsi' ∈ mmsi_batch ∧ d' ∈ kept_records (source w mmsi'))
  ∧ (calm w → MAX_RETRIES cfg ≠ 0%nat →
       run.1 = Ret (Some (tally (source w) (Counters 0 0 0 0) mmsi_batch))
       ∧ stored run.2
         = stored w
           ++ flat_map (λ mmsi', kept_records (source w mmsi')) mmsi_batch).
Proof.
  intros docs round run. subst docs.
  destruct (process_vessel_runs c mmsi w)
    as (r & k & evs & ds & Hrun & _ & Hsub & Hret & _ & Hcalm).
  assert (round = (r, advance w k evs ds)) as Hround by apply Hrun.
  destruct (process_vessel_batch_runs cfg mmsi_batch w)
    as (r' & k' & evs' & ds' & Hrun' & _ & _ & _ & Hsub' & _ & _ & Hcalm').
  assert (run = (Ret r', advance w k' evs' ds')) as Hbatch by apply Hrun'.
  assert (all_retained (source w) mmsi_batch
          = flat_map (λ mmsi', kept_records (source w mmsi')) mmsi_batch)
    as Hkept.
  { unfold all_retained. apply flat_map_ext. intros mmsi'.
    apply retained_kept. }
  rewrite Hround, Hbatch; simpl. split_and!.
  - apply has_required_complete.
  - apply retained_kept.
  - intros Hsmall. replace ds with (@nil doc); [by rewrite app_nil_r|].
    destruct ds as [|d ds]; [done|].
    specialize (Hsub d). rewrite (retained_small _ Hsmall) in Hsub.
    exfalso. eapply elem_of_nil, Hsub. left.
  - intros Hlarge [c' ->]. destruct (Hret c' eq_refl) as [-> _].
    by rewrite (retained_large _ Hlarge), filter_docs_nil, filter_complete.
  - rewrite new_docs_advance. intros d' Hin.
    apply Hsub, elem_of_retained in Hin as (Hlarge & d & Hd & Hreq & ->).
    rewrite has_required_complete in Hreq. eauto.
  - done.
  - rewrite new_docs_advance. intros d' Hin.
    apply Hsub', elem_of_all_retained in Hin as (mmsi' & Hm & Hin).
    rewrite retained_kept in Hin. eauto.
  - intros Hc Hmax. destruct (Hcalm' Hc Hmax) as (-> & -> & _).
    by rewrite Hkept.
Qed.

(** C8. Whatever counters [process_vessel_batch] returns satisfy
    [vessels_filtered ≤ vessels_processed] and [filtered_docs ≤ total_docs]
    with all four non-negative; they are the tally of the batch or, after
    the last failed attempt, all zero; and with at least one attempt
    configured the function does return counters. *)
Theorem counters_invariant cfg (mmsi_batch : list value) w :
  let run := process_vessel_batch cfg mmsi_batch w in
  (∀ c, run.1 = Ret (Some c) →
     (c = tally (source w) (Counters 0 0 0 0) mmsi_batch ∨ c = Counters 0 0 0 0)
     ∧ 0 ≤ vessels_filtered c ≤ vessels_processed c
     ∧ 0 ≤ filtered_docs c ≤ total_docs c
     ∧ 0 ≤ vessels_processed c ∧ 0 ≤ total_docs c)
  ∧ ((1 ≤ MAX_RETRIES cfg)%nat → ∃ c, run.1 = Ret (Some c)).
Proof.
  intros run.
  destruct (process_vessel_batch_runs cfg mmsi_batch w)
    as (r & k & evs & ds & Hrun & _ & _ & _ & _ & Hshape & Hsome & _).
  assert (run = (Ret r, advance w k evs ds)) as -> by apply Hrun.
  simpl. split.
  - intros c [= ->]. specialize (Hshape c eq_refl).
    assert (counters_ok c) as [Hv Hd].
    { destruct Hshape as [-> | ->];
        [apply tally_ok|]; apply zero_counters_ok. }
    split_and!; try done; lia.
  - intros Hmax. destruct Hsome as [c ->]; [lia|]. by exists c.
Qed.

(** C9. Every document that a run of [process_vessel_batch] adds to the
    target collection, under any pattern of store failures, comes from a
    source document of a vessel of the batch and differs from it only in
    this: it has no ["_id"] field, and its four numeric fields are
    coerced; every other field is as in the source document. *)
Theorem written_documents_frame cfg (mmsi_batch : list value) w d' :
  d' ∈ new_docs w (process_vessel_batch cfg mmsi_batch w).2 →
  ∃ mmsi d,
    mmsi ∈ mmsi_batch ∧ d ∈ source w mmsi
    ∧ d' !! "_id" = None
    ∧ (∀ key, key ≠ "_id" → key ∉ numeric_fields → d' !! key = d !! key)
    ∧ (∀ key, key ∈ numeric_fields → d' !! key = coerced (d !! key)).
Proof.
  destruct (process_vessel_batch_runs cfg mmsi_batch w)
    as (r & k & evs & ds & Hrun & _ & _ & _ & Hsub & _).
  rewrite Hrun; simpl. rewrite new_docs_advance. intros Hin.
  apply Hsub, elem_of_all_retained in Hin as (mmsi & Hmmsi & Hin).
  apply elem_of_retained in Hin as (_ & d & Hd & _ & ->).
  exists mmsi, d. split_and!; try done.
  - rewrite written_record_lookup. by destruct (decide ("_id" = "_id")).
  - intros key Hid Hnum. rewrite written_record_lookup.
    destruct (decide (key = "_id")); [done|].
    by destruct (decide (key ∈ numeric_fields)).
  - intros key Hnum. rewrite written_record_lookup.
    destruct (decide (key = "_id")) as [->|_].
    + by destruct id_not_numeric.
    + by destruct (decide (key ∈ numeric_fields)).
Qed.

(** C10. A vessel group of at least 100 records none of which passes the
    required-field check causes no insert call, stores nothing and leaves
    [vessels_filtered] as it was; and whenever a round of the loop returns
    with [vessels_filtered] changed, it was incremented by one and at least
    one record of the group, namely all its retained records, has been
    written. *)
Theorem empty_group_not_counted c mmsi w :
  let docs := source w mmsi in
  let round := process_vessel c mmsi w in
  (100 ≤ len docs →
   (∀ d, d ∈ docs → has_required (del_id d) = false) →
     count is_bulk_insert (new_events w round.2) = 0%nat
     ∧ stored round.2 = stored w
     ∧ ∀ c', round.1 = Ret c' → vessels_filtered c' = vessels_filtered c)
  ∧ (∀ c', round.1 = Ret c' →
       vessels_filtered c' ≠ vessels_filtered c →
       vessels_filtered c' = vessels_filtered c + 1
       ∧ new_docs w round.2 = retained docs
       ∧ new_docs w round.2 ≠ []).
Proof.
  intros docs round. subst docs.
  destruct (process_vessel_runs c mmsi w)
    as (r & k & evs & ds & Hrun & _ & Hsub & Hret & Hins & _).
  assert (round = (r, advance w k evs ds)) as -> by apply Hrun.
  simpl. rewrite new_events_advance, new_docs_advance. split.
  - intros _ Hnone. apply retained_none in Hnone.
    rewrite Hnone in *. split_and!.
    + destruct (count is_bulk_insert evs); [done|]. by destruct Hins.
    + destruct ds as [|d ds]; [by rewrite app_nil_r|].
      exfalso. eapply elem_of_nil, Hsub. left.
    + intros c' Hc'. destruct (Hret c' Hc') as [_ ->].
      unfold count_vessel; simpl. rewrite Hnone. lia.
  - intros c' Hc' Hchanged. destruct (Hret c' Hc') as [-> ->].
    unfold count_vessel in *; simpl in *.
    destruct (retained (source w mmsi)); [lia|]. split_and!; [lia|done|done].
Qed.

End FilterClaims.

(** ** [process_chunk]: bulk attempts and the last resort *)

Section ChunkFacts.
Context `{PyFloat}.
Variable cfg : settings.
Implicit Types (w : world) (evs : list event) (ds chunk : list doc).

Lemma runs_eq {A} (m : prog A) w r r' k k' evs evs' ds ds' :
  runs m w r k evs ds →
  r = r' → k = k' → evs = evs' → ds = ds' →
  runs m w r' k' evs' ds'.
Proof. by intros ? -> -> -> ->. Qed.

Lemma returning_le fate from n : (returning fate from n ≤ n)%nat.
Proof.
  revert from. induction n as [|n IH]; intros from; simpl; [done|].
  specialize (IH (S from)). destruct (fate from); lia.
Qed.

(** The record-by-record loop never raises: every record is tried once, in
    order, and the result counts the inserts that returned. *)
Lemma insert_counted_loop records acc w :
  ∃ ds,
    runs (for_each insert_counted acc records) w
         (Ret (acc + returning (fate w) (calls w) (length records))%nat)
         (length records) (EInsertOne <$> records) ds
    ∧ ∀ d, d ∈ ds → d ∈ records.
Proof.
  revert acc w. induction records as [|d records IH]; intros acc w.
  - exists []. split; [|by intros ? ?%elem_of_nil].
    eapply runs_eq; [apply runs_ret|simpl; f_equal; lia|done..].
  - rewrite for_each_cons. unfold insert_counted at 1.
    pose proof (runs_insert_one d w) as Hins.
    destruct (fate w (calls w)) as [|accepted] eqn:Hfate.
    + destruct (IH (acc + 1)%nat (advance w (1 + 0) ([EInsertOne d] ++ []) ([d] ++ [])))
        as (ds & Hrun & Hsub).
      exists (([d] ++ []) ++ ds). split.
      * eapply runs_eq.
        { eapply runs_bind; [|apply Hrun].
          apply runs_try. eapply runs_bind; [apply Hins|apply runs_ret]. }
        -- simpl. rewrite Hfate.
           replace (calls w + 1)%nat with (S (calls w)) by lia. f_equal. lia.
        -- done.
        -- done.
        -- done.
      * intros d' [Hin|Hin]%elem_of_app.
        -- rewrite app_nil_r in Hin. apply list_elem_of_singleton in Hin as ->. left.
        -- right. by apply Hsub.
    + destruct (IH acc (advance w (1 + 0) ([EInsertOne d] ++ [])
                                (accepted_docs accepted [d] ++ [])))
        as (ds & Hrun & Hsub).
      exists ((accepted_docs accepted [d] ++ []) ++ ds). split.
      * eapply runs_eq.
        { eapply runs_bind; [|apply Hrun].
          eapply runs_except; [by apply runs_bind_exc|apply runs_ret]. }
        -- simpl. rewrite Hfate.
           by replace (calls w + 1)%nat with (S (calls w)) by lia.
        -- done.
        -- done.
        -- done.
      * intros d' [Hin|Hin]%elem_of_app.
        -- rewrite app_nil_r in Hin. apply accepted_docs_subset in Hin.
           apply list_elem_of_singleton in Hin as ->. left.
        -- right. by apply Hsub.
Qed.

Lemma single_inserts_count chunk :
  count is_single_insert (EInsertOne <$> chunk) = length chunk.
Proof.
  induction chunk as [|d chunk IH]; [done|].
  cbn [fmap list_fmap]. rewrite count_cons; simpl. by f_equal.
Qed.

Lemma single_inserts_fallback chunk :
  forallb fallback_event (EInsertOne <$> chunk) = true.
Proof. by induction chunk. Qed.

Lemma fallback_outcome_events chunk fate from fb r :
  fallback_outcome chunk fate from fb r →
  forallb fallback_event fb = true
  ∧ count is_connect fb = 1%nat
  ∧ (count is_single_insert fb ≤ length chunk)%nat
  ∧ ∃ m, r = Some m ∧ (m ≤ length chunk)%nat.
Proof.
  unfold fallback_outcome.
  assert (count is_connect (EInsertOne <$> chunk) = 0%nat) as Hnc.
  { apply (count_none _ is_single_insert); [by intros []|].
    by induction chunk. }
  destruct (fate from).
  - destruct (fate (from + 1 + length chunk)%nat); intros [-> ->].
    + rewrite !count_cons, !count_app, !count_cons, !count_nil,
        single_inserts_count, Hnc. simpl.
      rewrite forallb_app, single_inserts_fallback.
      split_and!; try done; try lia.
      eexists. split; [done|]. apply returning_le.
    + rewrite !count_cons, !count_app, !count_cons, !count_nil,
        single_inserts_count, Hnc. simpl.
      rewrite forallb_app, single_inserts_fallback.
      split_and!; try done; try lia.
      exists 0%nat. split; [done|lia].
  - intros [-> ->]. rewrite !count_cons, !count_nil. simpl.
    split_and!; try done; try lia.
    exists 0%nat. split; [done|lia].
Qed.

Lemma last_resort_runs chunk w :
  ∃ r k evs ds,
    runs (last_resort chunk) w (Ret r) k evs ds
    ∧ (∀ d, d ∈ ds → d ∈ chunk)
    ∧ fallback_outcome chunk (fate w) (calls w) evs r.
Proof.
  unfold last_resort, connect, close, fallback_outcome, insert_individually.
  pose proof (runs_plain_call EConnect w) as Hconn.
  destruct (fate w (calls w)) as [|accepted] eqn:Hfate.
  2:{ exists (Some 0%nat), (1 + (0 + 0))%nat,
        ([EConnect] ++ [ELog MsgIndividualInsertsFailed] ++ []), ([] ++ [] ++ []).
      split_and!; try done.
      - eapply runs_except; [by apply runs_bind_exc|].
        eapply runs_bind; [apply runs_emit|apply runs_ret].
      - by intros ? ?%elem_of_nil. }
  set (w1 := advance w 1 [EConnect] []) in *.
  destruct (insert_counted_loop chunk 0%nat w1) as (ds & Hloop & Hsub).
  set (n := returning (fate w1) (calls w1) (length chunk)) in *.
  set (w2 := advance w1 (length chunk) (EInsertOne <$> chunk) ds) in *.
  pose proof (runs_plain_call EClose w2) as Hclose.
  change (fate w2 (calls w2)) with (fate w (calls w + 1 + length chunk)%nat)
    in Hclose.
  destruct (fate w (calls w + 1 + length chunk)%nat) as [|accepted].
  - exists (Some n), (1 + (length chunk + (1 + 0)))%nat,
      ([EConnect] ++ (EInsertOne <$> chunk) ++ [EClose] ++ []),
      ([] ++ ds ++ [] ++ []).
    split_and!; try done.
    + apply runs_try.
      eapply runs_bind; [apply Hconn|].
      eapply runs_bind; [apply Hloop|].
      eapply runs_bind; [apply Hclose|apply runs_ret].
    + intros d. rewrite !app_nil_r. apply Hsub.
  - exists (Some 0%nat), ((1 + (length chunk + 1)) + (0 + 0))%nat,
      (([EConnect] ++ (EInsertOne <$> chunk) ++ [EClose])
       ++ [ELog MsgIndividualInsertsFailed] ++ []),
      (([] ++ ds ++ []) ++ [] ++ []).
    split_and!.
    + eapply runs_except.
      * eapply runs_bind; [apply Hconn|].
        eapply runs_bind; [apply Hloop|]. by apply runs_bind_exc.
      * eapply runs_bind; [apply runs_emit|apply runs_ret].
    + intros d. rewrite !app_nil_r. apply Hsub.
    + by rewrite <- !app_assoc.
    + done.
Qed.

Lemma bulk_attempt_runs chunk w :
  ∃ r k evs ds,
    runs (bulk_attempt chunk) w r k evs ds
    ∧ k = count is_driver_call evs
    ∧ forallb bulk_event evs = true
    ∧ count is_connect evs = 1%nat
    ∧ (count is_bulk_insert evs ≤ 1)%nat
    ∧ (∀ d, d ∈ ds → d ∈ chunk)
    ∧ (∀ x, r = Ret x → x = Some (length chunk) ∧ ds = chunk)
    ∧ (calm w → r = Ret (Some (length chunk))).
Proof.
  unfold bulk_attempt, connect, close.
  pose proof (runs_plain_call EConnect w) as Hconn.
  destruct (fate w (calls w)) as [|accepted] eqn:Hfate.
  2:{ exists Exc, 1%nat, [EConnect], []. split; [by apply runs_bind_exc|].
      split_and!; try done.
      - unfold count; simpl; lia.
      - by intros ? ?%elem_of_nil.
      - intros Hc. apply calm_next in Hc. congruence. }
  set (w1 := advance w 1 [EConnect] []) in *.
  assert (∃ r k evs ds,
    runs (match chunk with [] => ret tt | _ => insert_many chunk end)
         w1 r k evs ds
    ∧ k = count is_driver_call evs
    ∧ forallb bulk_event evs = true
    ∧ count is_connect evs = 0%nat
    ∧ (count is_bulk_insert evs ≤ 1)%nat
    ∧ (∀ d, d ∈ ds → d ∈ chunk)
    ∧ (r = Ret tt → ds = chunk)
    ∧ (calm w1 → r = Ret tt)) as (r & k & evs & ds & Hins & Hk & Hev & Hc1 & Hc2 & Hsub & Hret & Hcalm).
  { destruct chunk as [|d chunk].
    - exists (Ret tt), 0%nat, [], []. split; [apply runs_ret|].
      split_and!; try done. unfold count; simpl; lia.
    - pose proof (runs_insert_many d chunk w1) as Hins.
      destruct (fate w1 (calls w1)) as [|accepted] eqn:Hfate1.
      + exists (Ret tt), 1%nat, [EInsertMany (d :: chunk)], (d :: chunk).
        split_and!; try done.
      + exists Exc, 1%nat, [EInsertMany (d :: chunk)],
          (accepted_docs accepted (d :: chunk)).
        split_and!; try done.
        * apply accepted_docs_subset.
        * intros Hc. apply calm_next in Hc. congruence. }
  destruct r as [[]|].
  2:{ exists Exc, (1 + k)%nat, ([EConnect] ++ evs), ([] ++ ds).
      split; [eapply runs_bind; [apply Hconn|by apply runs_bind_exc]|].
      rewrite forallb_app, !count_app, Hev, Hc1, <- Hk.
      split_and!; try done.
      intros Hc. apply (calm_advance _ 1 [EConnect] []) in Hc.
      by apply Hcalm in Hc. }
  rewrite (Hret eq_refl) in *.
  set (w2 := advance w1 k evs chunk) in *.
  pose proof (runs_plain_call EClose w2) as Hclose.
  destruct (fate w2 (calls w2)) as [|accepted] eqn:Hfate2.
  - exists (Ret (Some (length chunk))), (1 + (k + (1 + 0)))%nat,
      ([EConnect] ++ evs ++ [EClose] ++ []), ([] ++ chunk ++ [] ++ []).
    split.
    { eapply runs_bind; [apply Hconn|].
      eapply runs_bind; [apply Hins|].
      eapply runs_bind; [apply Hclose|apply runs_ret]. }
    rewrite !forallb_app, !count_app, Hev, Hc1, <- Hk, !app_nil_r.
    split_and!; try done; try (count_simpl; lia).
    by intros x [= <-].
  - exists Exc, (1 + (k + 1))%nat, ([EConnect] ++ evs ++ [EClose]),
      ([] ++ chunk ++ []).
    split.
    { eapply runs_bind; [apply Hconn|].
      eapply runs_bind; [apply Hins|]. by apply runs_bind_exc. }
    rewrite !forallb_app, !count_app, Hev, Hc1, <- Hk, !app_nil_r.
    split_and!; try done; try (count_simpl; lia).
    intros Hc. apply (calm_advance _ 1 [EConnect] []) in Hc.
    apply (calm_advance _ k evs chunk) in Hc.
    apply calm_next in Hc. fold w1 w2 in Hc. congruence.
Qed.

Lemma bulk_events_quiet evs :
  forallb bulk_event evs = true →
  count is_single_insert evs = 0%nat
  ∧ count is_chunk_error evs = 0%nat
  ∧ sleeps evs = [].
Proof.
  intros Hev. split_and!.
  - apply (count_none _ bulk_event); [by intros []|done].
  - apply (count_none _ bulk_event); [by intros []|done].
  - apply (sleeps_none bulk_event); [by intros []|done].
Qed.

Lemma fallback_events_quiet evs :
  forallb fallback_event evs = true →
  count is_bulk_insert evs = 0%nat ∧ sleeps evs = [].
Proof.
  intros Hev. split.
  - apply (count_none _ fallback_event); [by intros []|done].
  - apply (sleeps_none fallback_event); [by intros []|done].
Qed.

Lemma submitted_none q evs :
  (∀ e, q e = true → match e with ESubmit _ => False | _ => True end) →
  forallb q evs = true → submitted evs = [].
Proof.
  intros Hq. induction evs as [|e evs IH]; [done|]; simpl.
  intros [He Hevs]%andb_true_iff. specialize (Hq e He).
  destruct e; try done; by apply IH.
Qed.

Lemma bulk_events_no_submit evs :
  forallb bulk_event evs = true → submitted evs = [].
Proof. apply submitted_none. by intros []. Qed.

Lemma fallback_events_no_submit evs :
  forallb fallback_event evs = true → submitted evs = [].
Proof. apply submitted_none. by intros []. Qed.

(** The retry loop of [process_chunk] from attempt number [a] on, with [n]
    attempts left. Its events are those of the bulk attempts, [bulk],
    followed by those of the last resort, [fb]. *)
Lemma chunk_attempts_runs n a chunk w :
  (a + n)%nat = MAX_RETRIES cfg →
  ∃ r k bulk fb ds,
    runs (chunk_attempts cfg (seq a n) chunk) w (Ret r) k (bulk ++ fb) ds
    ∧ (count is_connect bulk ≤ n)%nat
    ∧ (count is_bulk_insert bulk ≤ n)%nat
    ∧ count is_single_insert bulk = 0%nat
    ∧ (count is_chunk_error bulk ≤ n)%nat
    ∧ (∃ j, (j ≤ n - 1)%nat ∧ sleeps bulk = replicate j (RETRY_DELAY cfg))
    ∧ (fb = []
       ∨ fallback_outcome chunk (fate w)
           (calls w + count is_driver_call bulk) fb r)
    ∧ (∀ d, d ∈ ds → d ∈ chunk)
    ∧ (n ≠ 0%nat → ∃ m, r = Some m ∧ (m ≤ length chunk)%nat)
    ∧ ((count is_chunk_error bulk < n)%nat →
         fb = [] ∧ r = Some (length chunk))
    ∧ (n ≠ 0%nat → count is_chunk_error bulk = n →
         fallback_outcome chunk (fate w)
           (calls w + count is_driver_call bulk) fb r)
    ∧ (calm w → n ≠ 0%nat → r = Some (length chunk) ∧ ds = chunk)
    ∧ submitted (bulk ++ fb) = [].
Proof.
  revert a w. induction n as [|n IH]; intros a w Hmax.
  - exists None, 0%nat, [], [], []. split; [apply runs_ret|].
    split_and!; settle.
  - cbn [seq chunk_attempts].
    destruct (bulk_attempt_runs chunk w)
      as (r1 & k1 & evs1 & ds1 & Hrun1 & Hk1 & Hev1 & Hconn1 & Hbulk1 & Hsub1
          & Hret1 & Hcalm1).
    destruct (bulk_events_quiet evs1 Hev1) as (Hone1 & Herr1 & Hsl1).
    pose proof (bulk_events_no_submit evs1 Hev1) as Hsubm1.
    destruct r1 as [x|].
    { destruct (Hret1 x eq_refl) as [-> ->].
      exists (Some (length chunk)), k1, evs1, [], chunk.
      split; [rewrite app_nil_r; by apply runs_try|].
      rewrite app_nil_r, Hconn1, Hone1, Herr1, Hsl1, Hsubm1.
      split_and!; settle. }
    set (w1 := advance w k1 evs1 ds1).
    set (e1 := ELog (MsgChunkError (a + 1) (MAX_RETRIES cfg))).
    assert (count is_chunk_error (evs1 ++ [e1]) = 1%nat) as Herr.
    { rewrite count_app, Herr1. done. }
    destruct (a <? MAX_RETRIES cfg - 1)%nat eqn:Hlast.
    + apply Nat.ltb_lt in Hlast.
      destruct (IH (S a) (advance (advance w1 0 [e1] []) 0
                                   [ESleep (RETRY_DELAY cfg)] []))
        as (r & k & bulk & fb & ds & Hrun & Hconn & Hbulk & Hone & Herrs
            & (j & Hj & Hsl) & Hfb & Hsub & Hsome & Hok & Hall & _ & Hsubm);
        [lia|].
      exists r, (k1 + (0 + (0 + k)))%nat,
        (evs1 ++ [e1] ++ [ESleep (RETRY_DELAY cfg)] ++ bulk), fb,
        (ds1 ++ [] ++ [] ++ ds).
      split.
      { eapply runs_eq.
        { eapply runs_except; [apply Hrun1|].
          eapply runs_bind; [apply runs_emit|].
          eapply runs_bind; [apply runs_emit|]. apply Hrun. }
        all: try done. by rewrite <- !app_assoc. }
      assert (∀ kb, (calls w + k1 + 0 + 0 + kb
                     = calls w + (k1 + (0 + (0 + kb))))%nat)
        as Hcalls by (intros; lia).
      simpl in Hfb, Hall. rewrite Hcalls in Hfb, Hall.
      rewrite <- !app_assoc, !submitted_app, Hsubm1, <- submitted_app, Hsubm.
      rewrite !count_app, !sleeps_app, Hconn1, Hone1, Herr1, Hsl1, Hone, Hsl,
        <- Hk1.
      subst e1. count_simpl.
      split_and!; settle.
      * exists (S j). split; [lia|done].
      * intros d [Hin|Hin]%elem_of_app; [by apply Hsub1|by apply Hsub].
      * intros _. apply Hsome. lia.
      * intros Hlt. apply Hok. lia.
      * intros _ Hn. apply Hall; lia.
      * intros Hc. specialize (Hcalm1 Hc). congruence.
    + apply Nat.ltb_ge in Hlast.
      destruct (last_resort_runs chunk (advance w1 0 [e1] []))
        as (r & k & fb & ds & Hrun & Hsub & Hfb).
      simpl in Hfb.
      destruct (fallback_outcome_events _ _ _ _ _ Hfb) as (_ & _ & _ & m & -> & Hm).
      exists (Some m), (k1 + (0 + k))%nat, (evs1 ++ [e1]), fb, (ds1 ++ [] ++ ds).
      split.
      { eapply runs_eq.
        { eapply runs_except; [apply Hrun1|].
          eapply runs_bind; [apply runs_emit|]. apply Hrun. }
        all: try done. by rewrite <- !app_assoc. }
      destruct (fallback_outcome_events _ _ _ _ _ Hfb) as (Hfbev & _).
      rewrite !submitted_app, Hsubm1, (fallback_events_no_submit fb Hfbev).
      rewrite Herr, !count_app, !sleeps_app, Hconn1, Hone1, Hsl1, <- Hk1.
      subst e1. count_simpl.
      replace (calls w + k1 + 0)%nat with (calls w + (k1 + 0))%nat in Hfb by lia.
      split_and!; settle.
      * intros d [Hin|Hin]%elem_of_app; [by apply Hsub1|by apply Hsub].
      * intros Hc. specialize (Hcalm1 Hc). congruence.
Qed.

End ChunkFacts.

(** ** The query retries of the demo *)

Section QueryFacts.
Context `{PyFloat}.
Variable cfg : settings.
Implicit Types (w : world) (evs : list event).

(** The delay after failed retry number [i], counted from 0. *)
Let delay (i : nat) : Z := RETRY_DELAY cfg * (Z.of_nat i + 1).

Lemma query_attempt_runs a mmsi w :
  ∃ recovered k evs,
    runs (query_attempt cfg a mmsi) w (Ret recovered) k evs []
    ∧ count is_connect evs = 1%nat
    ∧ sleeps evs = if recovered : bool then [] else [delay a].
Proof.
  unfold query_attempt, connect, find_limit.
  set (e1 := EPrint (MsgRetryFailed (a + 1) (MAX_RETRIES cfg) (delay a))).
  assert (∀ w', runs
            (bind (print (MsgRetryFailed (a + 1) (MAX_RETRIES cfg) (delay a)))
               (λ _, bind (sleep (delay a)) (λ _, ret false)))
            w' (Ret false) (0 + (0 + 0)) ([e1] ++ [ESleep (delay a)] ++ [])
            ([] ++ [] ++ [])) as Hhandler.
  { intros w'. eapply runs_bind; [apply runs_emit|].
    eapply runs_bind; [apply runs_emit|apply runs_ret]. }
  pose proof (runs_plain_call EConnect w) as Hconn.
  destruct (fate w (calls w)) as [|accepted] eqn:Hfate.
  2:{ exists false, (1 + (0 + (0 + 0)))%nat,
        ([EConnect] ++ [e1] ++ [ESleep (delay a)] ++ []).
      split; [|by subst e1].
      eapply runs_eq; [eapply runs_except;
                         [by apply runs_bind_exc|apply Hhandler]|done..]. }
  set (w1 := advance w 1 [EConnect] []) in *.
  pose proof (runs_find mmsi w1) as Hfind.
  destruct (fate w1 (calls w1)) as [|accepted] eqn:Hfate1.
  2:{ exists false, ((1 + 1) + (0 + (0 + 0)))%nat,
        (([EConnect] ++ [EFind mmsi]) ++ [e1] ++ [ESleep (delay a)] ++ []).
      split; [|by subst e1].
      eapply runs_eq.
      { eapply runs_except; [|apply Hhandler].
        eapply runs_bind; [apply Hconn|].
        apply runs_bind_exc. by apply runs_bind_exc. }
      all: done. }
  exists true, (1 + ((1 + 0) + (0 + 0)))%nat,
    ([EConnect] ++ ([EFind mmsi] ++ []) ++ [EPrint (MsgRecovered a)] ++ []).
  split; [|done].
  eapply runs_eq.
  { apply runs_try.
    eapply runs_bind; [apply Hconn|].
    eapply runs_bind; [eapply runs_bind; [apply Hfind|apply runs_ret]|].
    eapply runs_bind; [apply runs_emit|apply runs_ret]. }
  all: done.
Qed.

Lemma query_retries_runs n a mmsi w :
  ∃ k evs,
    runs (query_retries cfg (seq a n) mmsi) w (Ret tt) k evs []
    ∧ (count is_connect evs ≤ n)%nat
    ∧ ∃ j, (j ≤ n)%nat ∧ sleeps evs = delay <$> seq a j.
Proof.
  revert a w. induction n as [|n IH]; intros a w.
  - exists 0%nat, []. split; [apply runs_ret|]. split; [done|].
    by exists 0%nat.
  - cbn [seq query_retries].
    destruct (query_attempt_runs a mmsi w)
      as (recovered & k1 & evs1 & Hrun1 & Hconn1 & Hsl1).
    destruct recovered.
    + exists (k1 + 0)%nat, (evs1 ++ []).
      split; [eapply runs_eq;
                [eapply runs_bind; [apply Hrun1|apply runs_ret]|done..]|].
      rewrite app_nil_r, Hconn1, Hsl1. split; [lia|].
      exists 0%nat. split; [lia|done].
    + destruct (IH (S a) (advance w k1 evs1 []))
        as (k & evs & Hrun & Hconn & j & Hj & Hsl).
      exists (k1 + k)%nat, (evs1 ++ evs).
      split; [eapply runs_eq;
                [eapply runs_bind; [apply Hrun1|apply Hrun]|done..]|].
      rewrite count_app, sleeps_app, Hconn1, Hsl1, Hsl. split; [lia|].
      exists (S j). split; [lia|done].
Qed.

Lemma linear_backoff_delays j : linear_backoff (RETRY_DELAY cfg) (delay <$> seq 0 j).
Proof.
  intros k d Hk. apply list_lookup_fmap_Some in Hk as (i & -> & Hi).
  apply lookup_seq in Hi as [-> _]. done.
Qed.

Lemma nondecreasing_delays a j :
  0 ≤ RETRY_DELAY cfg → nondecreasing (delay <$> seq a j).
Proof.
  intros Hpos. revert a. induction j as [|[|j] IH]; intros a; try done.
  split; [unfold delay; nia|apply (IH (S a))].
Qed.

End QueryFacts.

(** ** What is slept after each failed attempt *)

Section PauseFacts.
Context `{PyFloat}.
Variable cfg : settings.
Implicit Types (w : world) (evs : list event) (ds chunk : list doc).

Lemma pauses_app_quiet failure q evs1 evs2 :
  (∀ e, q e = true → failure e = None) →
  forallb q evs1 = true →
  pauses failure (evs1 ++ evs2) = pauses failure evs2.
Proof.
  intros Hq. induction evs1 as [|e evs1 IH]; [done|]. cbn [forallb app pauses].
  intros [He Hevs]%andb_true_iff. rewrite (Hq e He). by apply IH.
Qed.

Lemma pauses_quiet failure q evs :
  (∀ e, q e = true → failure e = None) →
  forallb q evs = true → pauses failure evs = [].
Proof.
  intros Hq Hevs. rewrite <- (app_nil_r evs).
  by rewrite (pauses_app_quiet failure q).
Qed.

Lemma no_sleep_first q evs :
  (∀ e, q e = true → match e with ESleep _ => False | _ => True end) →
  forallb q evs = true →
  match evs with ESleep s :: _ => Some s | _ => None end = None.
Proof.
  intros Hq. destruct evs as [|e evs]; [done|]. cbn [forallb].
  intros [He _]%andb_true_iff. specialize (Hq e He). by destruct e.
Qed.

Lemma vessel_events_are_calls evs :
  forallb vessel_event evs = true → forallb is_driver_call evs = true.
Proof.
  induction evs as [|e evs IH]; [done|]. cbn [forallb].
  intros [He Hevs]%andb_true_iff. rewrite (IH Hevs), andb_true_r.
  by destruct e.
Qed.

(** *** [process_chunk] *)

Lemma bulk_attempt_first_fails chunk w :
  fate w (calls w) ≠ Succeed → runs (bulk_attempt chunk) w Exc 1 [EConnect] [].
Proof. intros Hfate. unfold bulk_attempt, connect. by apply call_raises. Qed.

(** The retry loop of [process_chunk] from attempt number [a] on, with [n]
    attempts left: [f] of them fail; each failure is reported with its
    number, counted from 1, and followed at once by a sleep of
    [RETRY_DELAY], unless it is that of the last attempt; nothing else is
    slept. *)
Lemma chunk_attempts_pauses n a chunk w :
  (a + n)%nat = MAX_RETRIES cfg →
  ∃ r k evs ds f,
    runs (chunk_attempts cfg (seq a n) chunk) w (Ret r) k evs ds
    ∧ (f ≤ n)%nat
    ∧ pauses chunk_failure evs
      = (λ i, (i, if (i <? MAX_RETRIES cfg)%nat
                  then Some (RETRY_DELAY cfg) else None)) <$> seq (a + 1) f
    ∧ sleeps evs = omap snd (pauses chunk_failure evs)
    ∧ (fate w (calls w) ≠ Succeed → n ≠ 0%nat → f ≠ 0%nat)
    ∧ (down w → f = n)
    ∧ (calm w → f = 0%nat).
Proof.
  revert a w. induction n as [|n IH]; intros a w Hmax.
  - exists None, 0%nat, [], [], 0%nat. split; [apply runs_ret|]. done.
  - cbn [seq chunk_attempts].
    destruct (bulk_attempt_runs chunk w)
      as (r1 & k1 & evs1 & ds1 & Hrun1 & _ & Hev1 & _ & _ & _ & _ & Hcalm1).
    destruct (bulk_events_quiet evs1 Hev1) as (_ & _ & Hsl1).
    assert (∀ rest, pauses chunk_failure (evs1 ++ rest)
                    = pauses chunk_failure rest) as Hquiet1.
    { intros rest. apply (pauses_app_quiet _ bulk_event); [by intros []|done]. }
    destruct r1 as [x|].
    { exists x, k1, evs1, ds1, 0%nat. split; [by apply runs_try|].
      rewrite (pauses_quiet _ bulk_event evs1), Hsl1 by (by intros [] || done).
      assert (fate w (calls w) ≠ Succeed → False) as Hfirst.
      { intros Hfate. apply (bulk_attempt_first_fails chunk) in Hfate.
        by destruct (runs_inj _ _ _ _ _ _ _ _ _ _ Hrun1 Hfate) as ([=] & _). }
      split_and!; try done; try lia.
      intros Hd%down_next. by destruct Hfirst. }
    assert (¬ calm w) as Hnotcalm.
    { intros Hc. by specialize (Hcalm1 Hc). }
    set (w1 := advance w k1 evs1 ds1).
    set (e1 := ELog (MsgChunkError (a + 1) (MAX_RETRIES cfg))).
    destruct (a <? MAX_RETRIES cfg - 1)%nat eqn:Hlast.
    + apply Nat.ltb_lt in Hlast.
      destruct (IH (S a) (advance (advance w1 0 [e1] []) 0
                                   [ESleep (RETRY_DELAY cfg)] []))
        as (r & k & evs & ds & f & Hrun & Hf & Hpauses & Hsleeps & _ & Hdown
            & _);
        [lia|].
      exists r, (k1 + (0 + (0 + k)))%nat,
        (evs1 ++ [e1] ++ [ESleep (RETRY_DELAY cfg)] ++ evs),
        (ds1 ++ [] ++ [] ++ ds), (S f).
      split.
      { eapply runs_except; [apply Hrun1|].
        eapply runs_bind; [apply runs_emit|].
        eapply runs_bind; [apply runs_emit|]. apply Hrun. }
      rewrite Hquiet1, sleeps_app, Hsl1. subst e1.
      cbn [app pauses chunk_failure sleeps omap list_omap seq fmap list_fmap snd].
      fold (sleeps evs). rewrite Hsleeps, Hpauses.
      rewrite (proj2 (Nat.ltb_lt (a + 1) (MAX_RETRIES cfg))) by lia.
      split_and!; try done; try lia.
      intros Hd. f_equal. apply Hdown. by repeat apply down_advance.
    + apply Nat.ltb_ge in Hlast.
      destruct (last_resort_runs chunk (advance w1 0 [e1] []))
        as (r & k & fb & ds & Hrun & _ & Hfb).
      apply fallback_outcome_events in Hfb as (Hfbev & _).
      destruct (fallback_events_quiet fb Hfbev) as [_ Hslfb].
      exists r, (k1 + (0 + k))%nat, (evs1 ++ [e1] ++ fb), (ds1 ++ [] ++ ds),
        1%nat.
      split.
      { eapply runs_except; [apply Hrun1|].
        eapply runs_bind; [apply runs_emit|]. apply Hrun. }
      rewrite Hquiet1, !sleeps_app, Hsl1, Hslfb. subst e1.
      cbn [app pauses chunk_failure sleeps omap list_omap seq fmap list_fmap snd].
      rewrite (pauses_quiet _ fallback_event fb), (no_sleep_first fallback_event fb)
        by first [done|intros e; destruct e; try done;
                       match goal with m : message |- _ => by destruct m end].
      rewrite (proj2 (Nat.ltb_ge (a + 1) (MAX_RETRIES cfg))) by lia.
      split_and!; try done; lia.
Qed.

(** *** [process_vessel_batch] *)

Lemma vessel_batch_attempt_calls batch w :
  ∃ r k evs ds,
    runs (vessel_batch_attempt batch) w r k evs ds
    ∧ forallb is_driver_call evs = true
    ∧ (fate w (calls w) ≠ Succeed → r = Exc).
Proof.
  unfold vessel_batch_attempt, connect, close.
  destruct (fate w (calls w)) as [|accepted] eqn:Hfate.
  2:{ exists Exc, 1%nat, [EConnect], []. split; [|done].
      apply call_raises. by rewrite Hfate. }
  set (w1 := advance w 1 [EConnect] []).
  destruct (vessels_loop_runs batch (Counters 0 0 0 0) w1)
    as (r & k & evs & ds & Hrun & Hev%vessel_events_are_calls & _).
  destruct r as [c|].
  2:{ exists Exc, (1 + k)%nat, ([EConnect] ++ evs), ([] ++ ds).
      split; [|split; [by rewrite forallb_app, Hev|done]].
      apply call_returns; [done|]. by apply runs_bind_exc. }
  set (w2 := advance w1 k evs ds).
  destruct (fate w2 (calls w2)) as [|accepted] eqn:Hfate2.
  - eexists _, _, ([EConnect] ++ evs ++ [EClose] ++ []), _. split.
    { apply call_returns; [done|].
      eapply runs_bind; [apply Hrun|].
      apply call_returns; [done|apply runs_ret]. }
    split; [by rewrite !forallb_app, Hev|done].
  - eexists _, _, ([EConnect] ++ evs ++ [EClose]), _. split.
    { apply call_returns; [done|].
      eapply runs_bind; [apply Hrun|].
      apply call_raises. change (fate w2 (calls w2) ≠ Succeed).
      by rewrite Hfate2. }
    split; [by rewrite !forallb_app, Hev|done].
Qed.

Lemma vessel_batch_attempts_pauses n a batch w :
  (a + n)%nat = MAX_RETRIES cfg →
  ∃ r k evs ds f,
    runs (vessel_batch_attempts cfg (seq a n) batch) w (Ret r) k evs ds
    ∧ (f ≤ n)%nat
    ∧ pauses batch_failure evs
      = (λ i, (i, if (i <? MAX_RETRIES cfg)%nat
                  then Some (RETRY_DELAY cfg) else None)) <$> seq (a + 1) f
    ∧ sleeps evs = omap snd (pauses batch_failure evs)
    ∧ (fate w (calls w) ≠ Succeed → n ≠ 0%nat → f ≠ 0%nat)
    ∧ (down w → f = n)
    ∧ (calm w → f = 0%nat).
Proof.
  revert a w. induction n as [|n IH]; intros a w Hmax.
  - exists None, 0%nat, [], [], 0%nat. split; [apply runs_ret|]. done.
  - cbn [seq vessel_batch_attempts].
    destruct (vessel_batch_attempt_calls batch w)
      as (r1 & k1 & evs1 & ds1 & Hrun1 & Hev1 & Hfails1).
    destruct (vessel_batch_attempt_runs batch w)
      as (r1' & k1' & evs1' & ds1' & Hrun1' & _ & _ & Hsl1 & _ & _ & Hcalm1).
    destruct (runs_inj _ _ _ _ _ _ _ _ _ _ Hrun1 Hrun1') as (<- & <- & <-).
    assert (∀ rest, pauses batch_failure (evs1 ++ rest)
                    = pauses batch_failure rest) as Hquiet1.
    { intros rest. apply (pauses_app_quiet _ is_driver_call); [by intros []|done]. }
    destruct r1 as [c1|].
    { eexists (Some c1), _, (evs1 ++ []), _, 0%nat. split.
      { apply runs_try. eapply runs_bind; [apply Hrun1|apply runs_ret]. }
      rewrite app_nil_r, (pauses_quiet _ is_driver_call evs1), Hsl1
        by (by intros [] || done).
      split_and!; try done; try lia.
      all: first [intros Hfate _|intros Hfate%down_next].
      all: by specialize (Hfails1 Hfate). }
    assert (¬ calm w) as Hnotcalm.
    { intros Hc. by destruct (Hcalm1 Hc). }
    set (w1 := advance w k1 evs1 ds1).
    set (e1 := ELog (MsgBatchError (a + 1) (MAX_RETRIES cfg))).
    destruct (a <? MAX_RETRIES cfg - 1)%nat eqn:Hlast.
    + apply Nat.ltb_lt in Hlast.
      destruct (IH (S a) (advance (advance w1 0 [e1] []) 0
                                   [ESleep (RETRY_DELAY cfg)] []))
        as (r & k & evs & ds & f & Hrun & Hf & Hpauses & Hsleeps & _ & Hdown
            & _);
        [lia|].
      exists r, (k1 + (0 + (0 + k)))%nat,
        (evs1 ++ [e1] ++ [ESleep (RETRY_DELAY cfg)] ++ evs),
        (ds1 ++ [] ++ [] ++ ds), (S f).
      split.
      { eapply runs_except; [by apply runs_bind_exc|].
        eapply runs_bind; [apply runs_emit|].
        eapply runs_bind; [apply runs_emit|]. apply Hrun. }
      rewrite Hquiet1, sleeps_app, Hsl1. subst e1.
      cbn [app pauses batch_failure sleeps omap list_omap seq fmap list_fmap snd].
      fold (sleeps evs). rewrite Hsleeps, Hpauses.
      rewrite (proj2 (Nat.ltb_lt (a + 1) (MAX_RETRIES cfg))) by lia.
      split_and!; try done; try lia.
      intros Hd. f_equal. apply Hdown. by repeat apply down_advance.
    + apply Nat.ltb_ge in Hlast.
      exists (Some (Counters 0 0 0 0)), (k1 + (0 + (0 + 0)))%nat,
        (evs1 ++ [e1] ++ [ELog MsgFailedAllRetries] ++ []),
        (ds1 ++ [] ++ [] ++ []), 1%nat.
      split.
      { eapply runs_except; [by apply runs_bind_exc|].
        eapply runs_bind; [apply runs_emit|].
        eapply runs_bind; [apply runs_emit|]. apply runs_ret. }
      rewrite Hquiet1, !sleeps_app, Hsl1. subst e1.
      cbn [app pauses batch_failure sleeps omap list_omap seq fmap list_fmap snd].
      rewrite (proj2 (Nat.ltb_ge (a + 1) (MAX_RETRIES cfg))) by lia.
      split_and!; try done; lia.
Qed.

(** *** The query retries of the demo *)

Lemma query_attempt_pauses a mmsi w :
  ∃ recovered k evs,
    runs (query_attempt cfg a mmsi) w (Ret recovered) k evs []
    ∧ (∀ rest,
         pauses retry_failure (evs ++ rest)
         = (if recovered : bool then []
            else [((a + 1)%nat,
                   Some (RETRY_DELAY cfg * (Z.of_nat a + 1)))])
           ++ pauses retry_failure rest)
    ∧ sleeps evs
      = (if recovered : bool then []
         else [RETRY_DELAY cfg * (Z.of_nat a + 1)])
    ∧ (fate w (calls w) ≠ Succeed → recovered = false)
    ∧ (calm w → recovered = true).
Proof.
  unfold query_attempt, connect, find_limit.
  set (delay := RETRY_DELAY cfg * (Z.of_nat a + 1)).
  set (e1 := EPrint (MsgRetryFailed (a + 1) (MAX_RETRIES cfg) delay)).
  assert (∀ w', runs
            (bind (print (MsgRetryFailed (a + 1) (MAX_RETRIES cfg) delay))
               (λ _, bind (sleep delay) (λ _, ret false)))
            w' (Ret false) (0 + (0 + 0)) ([e1] ++ [ESleep delay] ++ [])
            ([] ++ [] ++ [])) as Hhandler.
  { intros w'. eapply runs_bind; [apply runs_emit|].
    eapply runs_bind; [apply runs_emit|apply runs_ret]. }
  pose proof (runs_plain_call EConnect w) as Hconn.
  destruct (fate w (calls w)) as [|accepted] eqn:Hfate.
  2:{ exists false, (1 + (0 + (0 + 0)))%nat,
        ([EConnect] ++ [e1] ++ [ESleep delay] ++ []).
      split; [|subst e1; split_and!; try done].
      - eapply runs_eq; [eapply runs_except;
                           [by apply runs_bind_exc|apply Hhandler]|done..].
      - intros Hc. apply calm_next in Hc. congruence. }
  set (w1 := advance w 1 [EConnect] []) in *.
  pose proof (runs_find mmsi w1) as Hfind.
  destruct (fate w1 (calls w1)) as [|accepted] eqn:Hfate1.
  2:{ exists false, ((1 + 1) + (0 + (0 + 0)))%nat,
        (([EConnect] ++ [EFind mmsi]) ++ [e1] ++ [ESleep delay] ++ []).
      split; [|subst e1; split_and!; try done].
      - eapply runs_eq.
        { eapply runs_except; [|apply Hhandler].
          eapply runs_bind; [apply Hconn|].
          apply runs_bind_exc. by apply runs_bind_exc. }
        all: done.
      - intros Hc. apply (calm_advance _ 1 [EConnect] []), calm_next in Hc.
        fold w1 in Hc. congruence. }
  exists true, (1 + ((1 + 0) + (0 + 0)))%nat,
    ([EConnect] ++ ([EFind mmsi] ++ []) ++ [EPrint (MsgRecovered a)] ++ []).
  split; [|split_and!; done].
  eapply runs_eq.
  { apply runs_try.
    eapply runs_bind; [apply Hconn|].
    eapply runs_bind; [eapply runs_bind; [apply Hfind|apply runs_ret]|].
    eapply runs_bind; [apply runs_emit|apply runs_ret]. }
  all: done.
Qed.

(** The retries from number [a] on, with [n] left: [f] of them fail; the
    k-th failed retry, counted from 1, is reported and followed at once by
    a sleep of [RETRY_DELAY * k]; nothing else is slept. *)
Lemma query_retries_pauses n a mmsi w :
  ∃ k evs f,
    runs (query_retries cfg (seq a n) mmsi) w (Ret tt) k evs []
    ∧ (f ≤ n)%nat
    ∧ pauses retry_failure evs
      = (λ i, (i, Some (RETRY_DELAY cfg * Z.of_nat i))) <$> seq (a + 1) f
    ∧ sleeps evs = omap snd (pauses retry_failure evs)
    ∧ (fate w (calls w) ≠ Succeed → n ≠ 0%nat → f ≠ 0%nat)
    ∧ (down w → f = n)
    ∧ (calm w → f = 0%nat).
Proof.
  revert a w. induction n as [|n IH]; intros a w.
  - exists 0%nat, [], 0%nat. split; [apply runs_ret|]. done.
  - cbn [seq query_retries].
    destruct (query_attempt_pauses a mmsi w)
      as (recovered & k1 & evs1 & Hrun1 & Hpauses1 & Hsl1 & Hfails1 & Hcalm1).
    destruct recovered.
    + exists (k1 + 0)%nat, (evs1 ++ []), 0%nat.
      split; [eapply runs_eq;
                [eapply runs_bind; [apply Hrun1|apply runs_ret]|done..]|].
      rewrite Hpauses1, sleeps_app, Hsl1.
      split_and!; try done; try lia.
      all: first [intros Hfate _|intros Hfate%down_next].
      all: by specialize (Hfails1 Hfate).
    + destruct (IH (S a) (advance w k1 evs1 []))
        as (k & evs & f & Hrun & Hf & Hpauses & Hsleeps & _ & Hdown & _).
      exists (k1 + k)%nat, (evs1 ++ evs), (S f).
      split; [eapply runs_eq;
                [eapply runs_bind; [apply Hrun1|apply Hrun]|done..]|].
      rewrite Hpauses1, sleeps_app, Hsl1, Hsleeps, Hpauses.
      cbn [app seq fmap list_fmap omap list_omap snd].
      replace (Z.of_nat (a + 1)) with (Z.of_nat a + 1) by lia.
      split_and!; try done; try lia.
      * intros Hd. f_equal. apply Hdown. by apply down_advance.
      * intros Hc. by specialize (Hcalm1 Hc).
Qed.

End PauseFacts.

(** ** The retry policy: claims *)

Section RetryClaims.
Context `{PyFloat}.
Implicit Types (w : world) (chunk : list doc).

Lemma process_chunk_runs cfg chunk w :
  ∃ r k bulk fb ds,
    runs (process_chunk cfg chunk) w (Ret r) k (bulk ++ fb) ds
    ∧ (count is_connect bulk ≤ MAX_RETRIES cfg)%nat
    ∧ (count is_bulk_insert bulk ≤ MAX_RETRIES cfg)%nat
    ∧ count is_single_insert bulk = 0%nat
    ∧ (count is_chunk_error bulk ≤ MAX_RETRIES cfg)%nat
    ∧ (∃ j, (j ≤ MAX_RETRIES cfg - 1)%nat
            ∧ sleeps bulk = replicate j (RETRY_DELAY cfg))
    ∧ (fb = []
       ∨ fallback_outcome chunk (fate w)
           (calls w + count is_driver_call bulk) fb r)
    ∧ (∀ d, d ∈ ds → d ∈ chunk)
    ∧ (MAX_RETRIES cfg ≠ 0%nat → ∃ m, r = Some m ∧ (m ≤ length chunk)%nat)
    ∧ ((count is_chunk_error bulk < MAX_RETRIES cfg)%nat →
         fb = [] ∧ r = Some (length chunk))
    ∧ (MAX_RETRIES cfg ≠ 0%nat → count is_chunk_error bulk = MAX_RETRIES cfg →
         fallback_outcome chunk (fate w)
           (calls w + count is_driver_call bulk) fb r)
    ∧ (calm w → MAX_RETRIES cfg ≠ 0%nat → r = Some (length chunk) ∧ ds = chunk)
    ∧ submitted (bulk ++ fb) = [].
Proof. by apply chunk_attempts_runs. Qed.

Lemma fallback_part_counts chunk fate from fb r :
  fb = [] ∨ fallback_outcome chunk fate from fb r →
  count is_bulk_insert fb = 0%nat
  ∧ sleeps fb = []
  ∧ (count is_connect fb ≤ 1)%nat
  ∧ (count is_single_insert fb ≤ length chunk)%nat.
Proof.
  intros [->|Hfb].
  - split_and!; try done; unfold count; simpl; lia.
  - destruct (fallback_outcome_events _ _ _ _ _ Hfb) as (Hev & Hconn & Hone & _).
    destruct (fallback_events_quiet fb Hev) as [Hbulk Hsl].
    split_and!; try done. lia.
Qed.

(** C2. With [MAX_RETRIES = M], a run of [process_chunk] makes its bulk
    attempts first and its last resort after them: the bulk part holds at
    most [M] connections, at most [M] bulk inserts and no single insert;
    the last resort holds no bulk insert, at most one connection and at
    most one single insert per record of the chunk. A run of
    [process_vessel_batch] holds at most [M] connections, one per attempt,
    and no single insert. Both functions return (neither raises nor loops),
    after at most [M - 1] sleeps. The retry block of the query demo
    likewise returns after at most [M] reconnections. *)
Theorem retry_bound cfg chunk (mmsi_batch : list value) (mmsi : value) w :
  let chunk_run := process_chunk cfg chunk w in
  let batch_run := process_vessel_batch cfg mmsi_batch w in
  let query_run := retry_query cfg mmsi w in
  (∃ r, chunk_run.1 = Ret r)
  ∧ (∃ bulk fb,
       new_events w chunk_run.2 = bulk ++ fb
       ∧ (count is_connect bulk ≤ MAX_RETRIES cfg)%nat
       ∧ (count is_bulk_insert bulk ≤ MAX_RETRIES cfg)%nat
       ∧ count is_single_insert bulk = 0%nat
       ∧ count is_bulk_insert fb = 0%nat
       ∧ (count is_connect fb ≤ 1)%nat
       ∧ (count is_single_insert fb ≤ length chunk)%nat)
  ∧ (length (sleeps (new_events w chunk_run.2)) ≤ MAX_RETRIES cfg - 1)%nat
  ∧ (∃ r, batch_run.1 = Ret r)
  ∧ (count is_connect (new_events w batch_run.2) ≤ MAX_RETRIES cfg)%nat
  ∧ count is_single_insert (new_events w batch_run.2) = 0%nat
  ∧ (length (sleeps (new_events w batch_run.2)) ≤ MAX_RETRIES cfg - 1)%nat
  ∧ query_run.1 = Ret tt
  ∧ (count is_connect (new_events w query_run.2) ≤ MAX_RETRIES cfg)%nat.
Proof.
  intros chunk_run batch_run query_run.
  destruct (query_retries_runs cfg (MAX_RETRIES cfg) 0 mmsi w)
    as (k'' & evs'' & Hrun'' & Hconn'' & _).
  assert (query_run = (Ret tt, advance w k'' evs'' [])) as -> by apply Hrun''.
  destruct (process_chunk_runs cfg chunk w)
    as (r & k & bulk & fb & ds & Hrun & Hconn & Hbulk & Hone & _
        & (j & Hj & Hsl) & Hfb & _).
  destruct (fallback_part_counts _ _ _ _ _ Hfb) as (Hfb1 & Hfb2 & Hfb3 & Hfb4).
  assert (chunk_run = (Ret r, advance w k (bulk ++ fb) ds)) as -> by apply Hrun.
  destruct (process_vessel_batch_runs cfg mmsi_batch w)
    as (r' & k' & evs' & ds' & Hrun' & Hconn' & Hone' & (j' & Hj' & Hsl') & _).
  assert (batch_run = (Ret r', advance w k' evs' ds')) as -> by apply Hrun'.
  simpl. rewrite !new_events_advance, sleeps_app, Hsl, Hfb2, Hsl', app_nil_r,
    !length_replicate.
  split_and!; eauto.
  exists bulk, fb. split_and!; done.
Qed.


(** C4, as the code has it. In the retry block of
    [run_continuous_queries] the delay slept after the k-th failed retry,
    counting from 1, is [RETRY_DELAY * k]. In [process_chunk] and
    [process_vessel_batch] every delay is the constant [RETRY_DELAY], slept
    after each failed attempt but the last. In all three, for a
    non-negative [RETRY_DELAY], a later delay is at least as long as an
    earlier one.

    The delays are slept where the policy puts them. The failures that a
    run reports are numbered 1, 2, ... in order; in the retry block each
    report is followed at once by a sleep of [RETRY_DELAY] times its
    number; in the two workers each report is followed at once by a sleep
    of [RETRY_DELAY], except the report of attempt [MAX_RETRIES], which is
    followed by no sleep; and a run sleeps at no other moment. A run whose
    first driver call raises reports a failure; a run under which every
    driver call raises reports [MAX_RETRIES] of them; a run under which
    none raises reports none and does not sleep. *)
Theorem backoff_delays cfg chunk (mmsi_batch : list value) (mmsi : value) w :
  let chunk_run := process_chunk cfg chunk w in
  let batch_run := process_vessel_batch cfg mmsi_batch w in
  let query_run := retry_query cfg mmsi w in
  (∃ j, (j ≤ MAX_RETRIES cfg)%nat
        ∧ sleeps (new_events w query_run.2)
          = (λ i, RETRY_DELAY cfg * (Z.of_nat i + 1)) <$> seq 0 j)
  ∧ linear_backoff (RETRY_DELAY cfg) (sleeps (new_events w query_run.2))
  ∧ (∃ j, (j ≤ MAX_RETRIES cfg - 1)%nat
          ∧ sleeps (new_events w chunk_run.2) = replicate j (RETRY_DELAY cfg))
  ∧ (∃ j, (j ≤ MAX_RETRIES cfg - 1)%nat
          ∧ sleeps (new_events w batch_run.2) = replicate j (RETRY_DELAY cfg))
  ∧ (0 ≤ RETRY_DELAY cfg →
       nondecreasing (sleeps (new_events w query_run.2))
       ∧ nondecreasing (sleeps (new_events w chunk_run.2))
       ∧ nondecreasing (sleeps (new_events w batch_run.2)))
  ∧ (∃ failed, (failed ≤ MAX_RETRIES cfg)%nat
       ∧ pauses retry_failure (new_events w query_run.2)
         = linear_pauses (RETRY_DELAY cfg) failed
       ∧ (fate w (calls w) ≠ Succeed → MAX_RETRIES cfg ≠ 0%nat →
            failed ≠ 0%nat)
       ∧ (down w → failed = MAX_RETRIES cfg)
       ∧ (calm w → failed = 0%nat))
  ∧ sleeps (new_events w query_run.2)
    = omap snd (pauses retry_failure (new_events w query_run.2))
  ∧ (∃ failed, (failed ≤ MAX_RETRIES cfg)%nat
       ∧ pauses chunk_failure (new_events w chunk_run.2)
         = constant_pauses (RETRY_DELAY cfg) (MAX_RETRIES cfg) failed
       ∧ (fate w (calls w) ≠ Succeed → MAX_RETRIES cfg ≠ 0%nat →
            failed ≠ 0%nat)
       ∧ (down w → failed = MAX_RETRIES cfg)
       ∧ (calm w → failed = 0%nat))
  ∧ sleeps (new_events w chunk_run.2)
    = omap snd (pauses chunk_failure (new_events w chunk_run.2))
  ∧ (∃ failed, (failed ≤ MAX_RETRIES cfg)%nat
       ∧ pauses batch_failure (new_events w batch_run.2)
         = constant_pauses (RETRY_DELAY cfg) (MAX_RETRIES cfg) failed
       ∧ (fate w (calls w) ≠ Succeed → MAX_RETRIES cfg ≠ 0%nat →
            failed ≠ 0%nat)
       ∧ (down w → failed = MAX_RETRIES cfg)
       ∧ (calm w → failed = 0%nat))
  ∧ sleeps (new_events w batch_run.2)
    = omap snd (pauses batch_failure (new_events w batch_run.2)).
Proof.
  intros chunk_run batch_run query_run.
  destruct (process_chunk_runs cfg chunk w)
    as (r & k & bulk & fb & ds & Hrun & _ & _ & _ & _ & (j & Hj & Hsl) & Hfb & _).
  destruct (fallback_part_counts _ _ _ _ _ Hfb) as (_ & Hfb2 & _).
  destruct (chunk_attempts_pauses cfg (MAX_RETRIES cfg) 0 chunk w eq_refl)
    as (rc & kc & evsc & dsc & fc & Hrunc & Hfc & Hpc & Hsc & Hcases).
  destruct (runs_inj _ _ _ _ _ _ _ _ _ _ Hrunc Hrun) as (_ & -> & _).
  assert (chunk_run = (Ret r, advance w k (bulk ++ fb) ds)) as -> by apply Hrun.
  destruct (process_vessel_batch_runs cfg mmsi_batch w)
    as (r' & k' & evs' & ds' & Hrun' & _ & _ & (j' & Hj' & Hsl') & _).
  destruct (vessel_batch_attempts_pauses cfg (MAX_RETRIES cfg) 0 mmsi_batch w
              eq_refl)
    as (rb & kb & evsb & dsb & fb' & Hrunb & Hfb' & Hpb & Hsb & Hcases').
  destruct (runs_inj _ _ _ _ _ _ _ _ _ _ Hrunb Hrun') as (_ & -> & _).
  assert (batch_run = (Ret r', advance w k' evs' ds')) as -> by apply Hrun'.
  destruct (query_retries_runs cfg (MAX_RETRIES cfg) 0 mmsi w)
    as (k'' & evs'' & Hrun'' & _ & j'' & Hj'' & Hsl'').
  destruct (query_retries_pauses cfg (MAX_RETRIES cfg) 0 mmsi w)
    as (kq & evsq & fq & Hrunq & Hfq & Hpq & Hsq & Hcases'').
  destruct (runs_inj _ _ _ _ _ _ _ _ _ _ Hrunq Hrun'') as (_ & -> & _).
  assert (query_run = (Ret tt, advance w k'' evs'' [])) as -> by apply Hrun''.
  cbn [fst snd]. rewrite !new_events_advance.
  assert (sleeps (bulk ++ fb) = replicate j (RETRY_DELAY cfg)) as Hsl0.
  { by rewrite sleeps_app, Hsl, Hfb2, app_nil_r. }
  split_and!; try done.
  - eauto.
  - rewrite Hsl''. apply linear_backoff_delays.
  - eauto.
  - eauto.
  - intros Hpos. rewrite Hsl0, Hsl', Hsl''. split_and!.
    + by apply nondecreasing_delays.
    + apply nondecreasing_replicate.
    + apply nondecreasing_replicate.
  - by exists fq.
  - by exists fc.
  - by exists fb'.
Qed.

End RetryClaims.

(** ** Numeric coercion: claims *)

Section CoercionClaims.
Context `{PyFloat}.
Implicit Types (d : doc) (docs : list doc).

(** C6, as the code has it. In a retained record each of the fields ROT,
    SOG, COG, Heading that is present and not null is rewritten: to its
    float value when it parses to a float that is not NaN, and to null when
    it does not parse or parses to NaN. The record is kept whatever its
    numeric fields hold: every record that passes the required-field check
    is in the filtered list, which has as many records as pass the check. *)
Theorem numeric_coercion d field v docs :
  field ∈ numeric_fields →
  d !! field = Some v →
  v ≠ VNone →
  coerce_numeric d !! field
  = Some (match py_float v with
          | Some x => if isnan x then VNone else VFloat x
          | None => VNone
          end)
  ∧ (∀ d0, d0 ∈ docs → has_required (del_id d0) = true →
       coerce_numeric (del_id d0) ∈ filter_docs docs [])
  ∧ length (filter_docs docs [])
    = length (List.filter has_required (del_id <$> docs)).
Proof.
  intros Hfield Hv Hnone. split_and!.
  - rewrite coerce_numeric_lookup.
    destruct (decide (field ∈ numeric_fields)); [|done].
    rewrite Hv. unfold coerced. destruct v; try done;
      repeat match goal with
             | |- context [match ?x with _ => _ end] => destruct x
             end; done.
  - intros d0 Hin Hreq. rewrite filter_docs_nil.
    apply list_elem_of_fmap. exists (del_id d0). split; [done|].
    apply list_elem_of_In, filter_In. split; [|done].
    apply list_elem_of_In, list_elem_of_fmap. eauto.
  - by rewrite filter_docs_nil, length_fmap.
Qed.

End CoercionClaims.

(** ** The chunk reader of [main] *)

Section ChunkerFacts.
Context `{PyFloat}.
Variable cfg : settings.
Hypothesis Hsize : 1 ≤ CHUNK_SIZE cfg.
Implicit Types (w : world) (rows chunk : list doc) (reader : list (list doc)).

Lemma slices_chain {A} (l : list A) n a m :
  concat ((λ j, slice l (j * n) n)%nat <$> seq a m)
  = take (m * n) (drop (a * n) l).
Proof.
  revert a. induction m as [|m IH]; intros a; [done|].
  cbn [seq fmap list_fmap concat]. rewrite IH. unfold slice.
  replace (S a * n)%nat with (a * n + n)%nat by lia.
  replace (S m * n)%nat with (n + m * n)%nat by lia.
  rewrite <- drop_drop. apply take_take_drop.
Qed.

Lemma frames_bounded n rows chunk :
  chunk ∈ frames n rows → (length chunk ≤ n)%nat.
Proof.
  unfold frames. destruct rows as [|d rows].
  - intros ->%list_elem_of_singleton. simpl. lia.
  - intros (i & -> & _)%list_elem_of_fmap. unfold slice.
    rewrite length_take. lia.
Qed.

(** The first [q] frames of a file are its first [q * n] rows. *)
Lemma concat_take_frames n rows q :
  (1 ≤ n)%nat → concat (take q (frames n rows)) = take (q * n) rows.
Proof.
  intros Hn. unfold frames. destruct rows as [|d rows].
  - rewrite take_nil. destruct q as [|q]; [done|]. simpl. by rewrite take_nil.
  - set (l := d :: rows). unfold range_step.
    rewrite <- list_fmap_compose.
    set (m := ((length l + n - 1) / n)%nat).
    rewrite <- fmap_take, take_seq.
    change (concat ((λ j, slice l (j * n) n)%nat <$> seq 0 (q `min` m))
            = take (q * n) l).
    rewrite slices_chain, drop_0.
    destruct (Nat.min_spec q m) as [[Hlt ->]|[Hge ->]]; [done|].
    assert (length l ≤ m * n)%nat as Hcover.
    { unfold m. pose proof (Nat.div_mod_eq (length l + n - 1) n) as Hdiv.
      pose proof (Nat.mod_upper_bound (length l + n - 1) n). nia. }
    rewrite !take_ge; [done|nia|done].
Qed.

Lemma floordiv_size a w :
  floordiv (a * CHUNK_SIZE cfg) (CHUNK_SIZE cfg) w = (Ret a, w).
Proof.
  unfold floordiv.
  destruct (Z.eqb_spec (CHUNK_SIZE cfg) 0) as [Hz|Hnz]; [lia|].
  unfold ret. by rewrite Z.div_mul.
Qed.

(** Within the window of a batch no chunk is cut as long as a whole chunk
    still fits under the ceiling. *)
Lemma collect_from total bs be i reader acc w :
  bs ≤ i →
  total + CHUNK_SIZE cfg ≤ TARGET_ROWS cfg →
  (∀ chunk, chunk ∈ reader → len chunk ≤ CHUNK_SIZE cfg) →
  collect_chunks cfg total bs be i reader acc w
  = (Ret (acc ++ take (Z.to_nat (be - i)) reader), w).
Proof.
  intros Hi Hfits. revert i acc Hi.
  induction reader as [|chunk reader IH]; intros i acc Hi Hbound.
  - simpl. unfold ret. by rewrite take_nil, app_nil_r.
  - cbn [collect_chunks]. unfold bind at 1. rewrite floordiv_size.
    destruct (Z.ltb_spec i bs) as [|_]; [lia|].
    unfold bind at 1. rewrite floordiv_size.
    destruct (Z.leb_spec be i) as [Hdone|Hmore].
    + unfold ret. replace (Z.to_nat (be - i)) with 0%nat by lia.
      by rewrite take_0, app_nil_r.
    + assert (len chunk ≤ CHUNK_SIZE cfg) as Hlen by (apply Hbound; left).
      destruct (Z.ltb_spec (TARGET_ROWS cfg) (total + len chunk)); [lia|].
      rewrite IH; [|lia|intros c Hc; apply Hbound; by right].
      replace (Z.to_nat (be - i)) with (S (Z.to_nat (be - (i + 1)))) by lia.
      by rewrite <- app_assoc.
Qed.

Lemma collect_window total bs be i reader acc w :
  0 ≤ i ≤ bs →
  total + CHUNK_SIZE cfg ≤ TARGET_ROWS cfg →
  (∀ chunk, chunk ∈ reader → len chunk ≤ CHUNK_SIZE cfg) →
  collect_chunks cfg total bs be i reader acc w
  = (Ret (acc ++ take (Z.to_nat (be - bs)) (drop (Z.to_nat (bs - i)) reader)),
     w).
Proof.
  intros Hi Hfits. revert i acc Hi.
  induction reader as [|chunk reader IH]; intros i acc Hi Hbound.
  - simpl. unfold ret. by rewrite drop_nil, take_nil, app_nil_r.
  - destruct (Z.eq_dec i bs) as [->|Hne].
    + rewrite collect_from; [|lia|done|done].
      by replace (Z.to_nat (bs - bs)) with 0%nat by lia.
    + cbn [collect_chunks]. unfold bind at 1. rewrite floordiv_size.
      destruct (Z.ltb_spec i bs) as [_|]; [|lia].
      rewrite IH; [|lia|intros c Hc; apply Hbound; by right].
      by replace (Z.to_nat (bs - i)) with (S (Z.to_nat (bs - (i + 1)))) by lia.
Qed.

Lemma concat_length_bound reader n :
  (∀ chunk, chunk ∈ reader → (length chunk ≤ n)%nat) →
  (length (concat reader) ≤ length reader * n)%nat.
Proof.
  induction reader as [|chunk reader IH]; intros Hbound; [done|].
  simpl. rewrite length_app.
  assert (length chunk ≤ n)%nat by (apply Hbound; left).
  assert (length (concat reader) ≤ length reader * n)%nat
    by (apply IH; intros c Hc; apply Hbound; by right).
  lia.
Qed.

Lemma runs_pure {A} (m : prog A) w a :
  m w = (Ret a, w) → runs m w (Ret a) 0 [] [].
Proof. intros Hm. unfold runs. by rewrite advance_zero. Qed.

(** One chunk in the pool: it is handed over once, and counted with at
    most its size. *)
Lemma pool_step_runs bi ti chunk w :
  (1 ≤ MAX_RETRIES cfg)%nat →
  ∃ n k evs ds,
    runs (pool_step cfg (bi, ti) chunk) w
         (Ret (bi + Z.of_nat n, ti + Z.of_nat n)) k evs ds
    ∧ submitted evs = [chunk]
    ∧ (n ≤ length chunk)%nat.
Proof.
  intros Hretries. unfold pool_step.
  set (w1 := advance w 0 [ESubmit chunk] []).
  destruct (process_chunk_runs cfg chunk w1)
    as (r & k & bulk & fb & ds & Hrun & _ & _ & _ & _ & _ & _ & _ & Hsome
        & _ & _ & _ & Hsubm).
  destruct Hsome as (n & -> & Hn); [lia|].
  assert (∃ evs',
    ∀ w', runs (if (ti + Z.of_nat n) mod 100000 =? 0
                then log (MsgProgress (ti + Z.of_nat n)) else ret tt)
               w' (Ret tt) 0 evs' []
    ∧ submitted evs' = []) as (evs' & Hlog).
  { destruct ((ti + Z.of_nat n) mod 100000 =? 0).
    - eexists. intros w'. split; [apply runs_emit|done].
    - eexists. intros w'. split; [apply runs_ret|done]. }
  exists n, (0 + (k + (0 + 0)))%nat,
    ([ESubmit chunk] ++ (bulk ++ fb) ++ evs' ++ []), ([] ++ ds ++ [] ++ []).
  split_and!; [| |done].
  2:{ rewrite submitted_app, (submitted_app (bulk ++ fb)), Hsubm,
        submitted_app, (proj2 (Hlog w)). done. }
  eapply runs_bind; [apply runs_emit|].
  eapply runs_bind; [apply Hrun|].
  eapply runs_bind; [apply Hlog|apply runs_ret].
Qed.

Lemma run_pool_runs chunks bi ti w :
  (1 ≤ MAX_RETRIES cfg)%nat →
  ∃ n k evs ds,
    runs (for_each (pool_step cfg) (bi, ti) chunks) w
         (Ret (bi + Z.of_nat n, ti + Z.of_nat n)) k evs ds
    ∧ submitted evs = chunks
    ∧ (n ≤ length (concat chunks))%nat.
Proof.
  intros Hretries. revert bi ti w.
  induction chunks as [|chunk chunks IH]; intros bi ti w.
  - exists 0%nat, 0%nat, [], []. split_and!; [|done..].
    eapply runs_eq; [apply runs_ret|f_equal; f_equal; lia|done..].
  - rewrite for_each_cons.
    destruct (pool_step_runs bi ti chunk w Hretries)
      as (n1 & k1 & evs1 & ds1 & Hrun1 & Hsubm1 & Hn1).
    destruct (IH (bi + Z.of_nat n1) (ti + Z.of_nat n1) (advance w k1 evs1 ds1))
      as (n & k & evs & ds & Hrun & Hsubm & Hn).
    exists (n1 + n)%nat, (k1 + k)%nat, (evs1 ++ evs), (ds1 ++ ds).
    split_and!.
    + eapply runs_eq; [by eapply runs_bind|f_equal; f_equal; lia|done..].
    + by rewrite submitted_app, Hsubm1, Hsubm.
    + simpl. rewrite length_app. lia.
Qed.

(** With a ceiling of [q] whole chunks, the batches from batch number [a]
    on hand to the pool the frames from number [10 * a] up to [q]. *)
Lemma batch_loop_runs rows q m a total w :
  (1 ≤ MAX_RETRIES cfg)%nat →
  csv w = Readable rows →
  TARGET_ROWS cfg = q * CHUNK_SIZE cfg →
  (a + m)%nat = Z.to_nat ((q + 9) / 10) →
  0 ≤ total ≤ Z.of_nat (10 * a) * CHUNK_SIZE cfg →
  ∃ r k evs ds,
    runs (batch_loop cfg q ((λ j, Z.of_nat j * 10) <$> seq a m) total)
         w r k evs ds
    ∧ submitted evs
      = take (Z.to_nat q - 10 * a)
             (drop (10 * a) (frames (Z.to_nat (CHUNK_SIZE cfg)) rows)).
Proof.
  intros Hretries Hcsv Haligned. revert a total w Hcsv.
  set (n := Z.to_nat (CHUNK_SIZE cfg)).
  set (reader := frames n rows).
  induction m as [|m IH]; intros a total w Hcsv Hbatches Htotal.
  - exists (Ret total), 0%nat, [], []. split; [apply runs_ret|].
    assert (q ≤ Z.of_nat (10 * a)) as Hq.
    { pose proof (Z.div_mod (q + 9) 10 ltac:(lia)) as Hdiv.
      pose proof (Z.mod_pos_bound (q + 9) 10 ltac:(lia)). lia. }
    replace (Z.to_nat q - 10 * a)%nat with 0%nat by lia. by rewrite take_0.
  - cbn [seq fmap list_fmap batch_loop].
    set (bs := Z.of_nat a * 10).
    set (be := Z.min (bs + main_batch_size) q).
    assert (bs < q) as Hbs.
    { pose proof (Z.div_mod (q + 9) 10 ltac:(lia)) as Hdiv.
      pose proof (Z.mod_pos_bound (q + 9) 10 ltac:(lia)). unfold bs.
      assert (0 ≤ (q + 9) / 10) by (apply Z.div_pos; lia). lia. }
    assert (read_csv (CHUNK_SIZE cfg) w = (Ret reader, w)) as Hread.
    { unfold read_csv. rewrite Hcsv.
      by destruct (Z.ltb_spec (CHUNK_SIZE cfg) 1); [lia|]. }
    assert (∀ chunk, chunk ∈ reader → len chunk ≤ CHUNK_SIZE cfg) as Hbound.
    { intros chunk Hin%frames_bounded. unfold len, n in *. lia. }
    set (chunks := take (Z.to_nat (be - bs)) (drop (Z.to_nat (bs - 0)) reader)).
    assert (collect_chunks cfg total bs be 0 reader [] w = (Ret chunks, w))
      as Hcollect.
    { rewrite collect_window; [done|lia| |done]. unfold bs in *. nia. }
    destruct (run_pool_runs chunks 0 total
                (advance (advance w 0 [ELog (MsgProcessingBatch
                             (bs / main_batch_size + 1) bs (be - 1))] [])
                   0 [EPrint (MsgProcessingBatch
                                (bs / main_batch_size + 1) bs (be - 1))] [])
                Hretries)
      as (ins & k1 & evs1 & ds1 & Hpool & Hsubm1 & Hins).
    assert (length (concat chunks) ≤ Z.to_nat (be - bs) * n)%nat as Hsum.
    { etransitivity; [apply (concat_length_bound _ n)|].
      - intros chunk Hin. apply frames_bounded with rows.
        by apply (subseteq_take _ _), (subseteq_drop _ _) in Hin.
      - apply Nat.mul_le_mono_r. unfold chunks. rewrite length_take. lia. }
    assert (bs < be ≤ q) as Hbe by (unfold be, main_batch_size; lia).
    assert (total + Z.of_nat ins ≤ be * CHUNK_SIZE cfg) as Hnext.
    { assert (Z.of_nat ins ≤ (be - bs) * CHUNK_SIZE cfg) as Hle.
      { apply Nat2Z.inj_le in Hins, Hsum.
        rewrite Nat2Z.inj_mul in Hsum. unfold n in Hsum.
        rewrite !Z2Nat.id in Hsum by lia. lia. }
      assert (total ≤ bs * CHUNK_SIZE cfg) by (unfold bs; nia).
      nia. }
    assert (chunks = take (Z.to_nat (be - bs)) (drop (10 * a) reader)) as Hchunks.
    { unfold chunks. f_equal. f_equal. unfold bs. lia. }
    destruct (Z.leb_spec (TARGET_ROWS cfg) (total + Z.of_nat ins)) as [Hdone|Hmore].
    + exists (Ret (total + Z.of_nat ins)), (0 + (0 + (0 + (0 + (k1 + (0 + 0))))))%nat,
        ([] ++ [] ++ [ELog (MsgProcessingBatch (bs / main_batch_size + 1) bs (be - 1))]
         ++ [EPrint (MsgProcessingBatch (bs / main_batch_size + 1) bs (be - 1))]
         ++ evs1 ++ [ELog (MsgBatchComplete (0 + Z.of_nat ins))] ++ []),
        ([] ++ [] ++ [] ++ [] ++ ds1 ++ [] ++ []).
      split.
      * eapply runs_bind; [apply runs_pure, Hread|].
        eapply runs_bind; [apply runs_pure; by rewrite !advance_zero|].
        eapply runs_bind; [apply runs_emit|].
        eapply runs_bind; [apply runs_emit|].
        eapply runs_bind; [rewrite !advance_zero; apply Hpool|].
        eapply runs_bind; [apply runs_emit|].
        destruct (Z.leb_spec (TARGET_ROWS cfg) (total + Z.of_nat ins)); [|lia].
        apply runs_ret.
      * rewrite !submitted_app, Hsubm1.
        cbn [submitted omap list_omap app]. rewrite app_nil_r, Hchunks.
        f_equal. unfold be, main_batch_size, bs in *. nia.
    + destruct (IH (S a) (total + Z.of_nat ins)
                  (advance w (0 + (0 + (0 + (0 + (k1 + 0)))))
                     ([] ++ [] ++ [ELog (MsgProcessingBatch (bs / main_batch_size + 1) bs (be - 1))]
                      ++ [EPrint (MsgProcessingBatch (bs / main_batch_size + 1) bs (be - 1))]
                      ++ evs1 ++ [ELog (MsgBatchComplete (0 + Z.of_nat ins))])
                     ([] ++ [] ++ [] ++ [] ++ ds1 ++ [])))
        as (r & k & evs & ds & Hrun & Hsubm); [done|lia| |].
      { unfold be, main_batch_size, bs in *. nia. }
      eexists r, _, _, _. split.
      * eapply runs_eq.
        { eapply runs_bind; [apply runs_pure, Hread|].
          eapply runs_bind; [apply runs_pure; by rewrite !advance_zero|].
          eapply runs_bind; [apply runs_emit|].
          eapply runs_bind; [apply runs_emit|].
          eapply runs_bind; [rewrite !advance_zero; apply Hpool|].
          eapply runs_bind; [apply runs_emit|].
          destruct (Z.leb_spec (TARGET_ROWS cfg) (total + Z.of_nat ins)); [lia|].
          rewrite !advance_advance. apply Hrun. }
        all: done.
      * rewrite !submitted_app, Hsubm1, Hsubm.
        cbn [submitted omap list_omap app]. rewrite Hchunks.
        unfold be, main_batch_size, bs.
        destruct (Z.min_spec (Z.of_nat a * 10 + 10) q) as [[Hlt ->]|[Hge ->]].
        -- replace (Z.to_nat (Z.of_nat a * 10 + 10 - Z.of_nat a * 10))
             with 10%nat by lia.
           replace (10 * S a)%nat with (10 * a + 10)%nat by lia.
           rewrite <- drop_drop, take_take_drop. f_equal. lia.
        -- replace (Z.to_nat q - 10 * S a)%nat with 0%nat by lia.
           rewrite take_0, app_nil_r. f_equal. lia.
Qed.

End ChunkerFacts.

(** ** The ingestion run: claims *)

Section IngestionClaims.
Context `{PyFloat}.
Implicit Types (w : world).

Lemma runs_path_exists w :
  runs path_exists w
       (Ret (match csv w with Missing => false | _ => true end)) 0 [] [].
Proof. unfold runs, path_exists. by rewrite advance_zero. Qed.

Lemma runs_count_rows_unreadable w :
  csv w = Unreadable → runs count_rows w Exc 0 [] [].
Proof. intros Hcsv. unfold runs, count_rows. by rewrite Hcsv, advance_zero. Qed.

(** [main] catches every exception: the script always exits with status
    0. *)
Lemma run_script_status cfg w : (run_script cfg w).1 = 0.
Proof.
  unfold run_script, main, try_except.
  destruct (bind path_exists _ w) as [[[]|] w']; done.
Qed.

(** C7, as the code has it. When the input file is missing, or exists but
    cannot be opened, the run of [main] ends at once: no driver call is
    made (no connection is attempted), nothing is stored, and one message,
    logged and printed, names the failure. [main] returns normally, so the
    script exits with status 0, as it does on every path. *)
Theorem unreadable_input_aborts cfg w :
  csv w = Missing ∨ csv w = Unreadable →
  let run := run_script cfg w in
  run.1 = 0
  ∧ calls run.2 = calls w
  ∧ stored run.2 = stored w
  ∧ count is_driver_call (new_events w run.2) = 0%nat
  ∧ new_events w run.2
    = match csv w with
      | Missing => [ELog MsgCsvNotFound; EPrint MsgCsvNotFound]
      | _ => [ELog MsgUnhandled; EPrint MsgUnhandled]
      end.
Proof.
  intros Hcsv run.
  assert (∃ m, runs (main cfg) w (Ret tt) 0 [ELog m; EPrint m] []
               ∧ match csv w with
                 | Missing => m = MsgCsvNotFound
                 | _ => m = MsgUnhandled
                 end) as (m & Hrun & Hm).
  { pose proof (runs_path_exists w) as Hexists.
    unfold main. destruct Hcsv as [Hcsv|Hcsv]; rewrite Hcsv in *.
    - exists MsgCsvNotFound. split; [|done].
      apply runs_try.
      eapply runs_eq.
      { eapply runs_bind; [apply Hexists|]. simpl.
        eapply runs_bind; apply runs_emit. }
      all: done.
    - exists MsgUnhandled. split; [|done].
      eapply runs_eq.
      { eapply runs_except.
        - eapply runs_bind; [apply Hexists|]. simpl.
          apply runs_bind_exc. by apply runs_count_rows_unreadable.
        - eapply runs_bind; apply runs_emit. }
      all: done. }
  assert (run = (0, advance w 0 [ELog m; EPrint m] [])) as ->.
  { unfold run, run_script. by rewrite Hrun. }
  simpl. rewrite new_events_advance, app_nil_r, Nat.add_0_r.
  split_and!; try done.
  destruct (csv w); by subst m.
Qed.

(** The chunk partition under an aligned ceiling: when the row ceiling is
    a whole number [q] of chunks, the batch loop of [main], whatever store
    calls fail, hands to the workers the first [q] frames of the file, each
    of at most [CHUNK_SIZE] rows, and they concatenate, in order, to the
    first [min(R, T)] rows. No chunk has to be cut in that case. *)
Lemma aligned_ceiling_respected cfg rows q w :
  (1 ≤ MAX_RETRIES cfg)%nat →
  1 ≤ CHUNK_SIZE cfg →
  0 ≤ q →
  TARGET_ROWS cfg = q * CHUNK_SIZE cfg →
  csv w = Readable rows →
  let total_chunks :=
    (TARGET_ROWS cfg + CHUNK_SIZE cfg - 1) / CHUNK_SIZE cfg in
  let run :=
    batch_loop cfg total_chunks (zrange_step total_chunks main_batch_size) 0 w in
  total_chunks = q
  ∧ (∀ chunk, chunk ∈ submitted (new_events w run.2) →
       len chunk ≤ CHUNK_SIZE cfg)
  ∧ concat (submitted (new_events w run.2))
    = take (Z.to_nat (TARGET_ROWS cfg)) rows.
Proof.
  intros Hretries Hsize Hq Haligned Hcsv total_chunks run.
  assert (total_chunks = q) as Htotal.
  { unfold total_chunks. rewrite Haligned.
    replace (q * CHUNK_SIZE cfg + CHUNK_SIZE cfg - 1)
      with (CHUNK_SIZE cfg - 1 + q * CHUNK_SIZE cfg) by lia.
    rewrite Z.div_add by lia. rewrite Z.div_small; lia. }
  destruct (batch_loop_runs cfg Hsize rows q (Z.to_nat ((q + 9) / 10)) 0 0 w)
    as (r & k & evs & ds & Hrun & Hsubm); [done..|simpl; lia|].
  assert (run = (r, advance w k evs ds)) as ->.
  { unfold run. rewrite Htotal. unfold zrange_step, main_batch_size.
    by replace (q + 10 - 1) with (q + 9) by lia. }
  simpl. rewrite new_events_advance, Hsubm.
  rewrite Nat.sub_0_r, drop_0. split_and!; [done| |].
  - intros chunk Hin%(subseteq_take _ _)%frames_bounded. unfold len. lia.
  - rewrite concat_take_frames by lia. f_equal. rewrite Haligned. nia.
Qed.

End IngestionClaims.

(** ** The claims on concrete runs *)

Section Runs.
#[local] Existing Instance binary64.
Import Example.

(** The end-to-end run of the filter over three vessels on a store that
    does not fail: A keeps 130 of its 150 records, B (50 records) and C
    (no record passes) keep none. *)
Example filter_three_vessels :
  let run := process_vessel_batch filter_settings
               [vessel_A; vessel_B; vessel_C] (filter_world Example.calm) in
  run.1 = Ret (Some (Counters 3 1 320 130))
  ∧ length (stored run.2) = 130%nat
  ∧ count is_bulk_insert (trace run.2) = 1%nat.
Proof. by vm_compute. Qed.

(** ["12.5"] becomes the float 12.5 (that is, 7036874417766400 * 2^-49),
    ["abc"] becomes null, and so does ["nan"], which [float] accepts. *)
Example coerce_examples :
  coerce_numeric (rot "12.5") !! "ROT"
  = Some (VFloat (S754_finite false 7036874417766400 (-49)))
  ∧ 7036874417766400 * 2 = 25 * 2 ^ 49
  ∧ coerce_numeric (rot "abc") !! "ROT" = Some VNone
  ∧ py_float (VStr "nan") = Some S754_nan
  ∧ coerce_numeric (rot "nan") !! "ROT" = Some VNone.
Proof. split_and!; reflexivity. Qed.

(** [vessel_group_filtering] on vessel A: 150 records, 20 of them without
    a latitude, give exactly 130 written records; on vessel D: 105
    records, 5 of them with a required field that is null, empty, the text
    NaN, a NaN or absent, give exactly the 100 complete ones; the check
    refuses each of the five. *)
Lemma vessel_group_filtering_witness :
  (let round := process_vessel zero vessel_A (filter_world Example.calm) in
   length (stored round.2) = 130%nat)
  ∧ (let round := process_vessel zero vessel_D checks_world in
     stored round.2
     = (coerce_numeric ∘ del_id ∘ record 219000004 <$> seq 0 100))
  ∧ Forall (λ d, has_required (del_id d) = false) unusable_records.
Proof.
  split_and!.
  - intros round.
    destruct (vessel_group_filtering filter_settings [] zero vessel_A
                (filter_world Example.calm)) as (_ & _ & _ & Hlarge & _).
    unfold round. rewrite Hlarge.
    + by vm_compute.
    + by vm_compute.
    + exists (Counters 1 1 150 130). by vm_compute.
  - intros round.
    destruct (vessel_group_filtering filter_settings [] zero vessel_D
                checks_world) as (_ & _ & _ & Hlarge & _).
    unfold round. rewrite Hlarge.
    + reflexivity.
    + by vm_compute.
    + exists (Counters 1 1 105 100). by vm_compute.
  - destruct (vessel_group_filtering filter_settings [] zero vessel_D
                checks_world) as (Hcheck & _).
    unfold unusable_records.
    repeat (apply Forall_cons; split; [rewrite Hcheck; by vm_compute|]).
    by apply Forall_nil.
Defined.

(** [retry_bound] on a chunk whose bulk insert fails twice. *)
Lemma retry_bound_witness :
  let run := process_chunk insert_settings (rows 7)
               (ingest_world Missing two_failures) in
  ∃ r, run.1 = Ret r.
Proof.
  intros run.
  by destruct (retry_bound insert_settings (rows 7) [] vessel_A
                 (ingest_world Missing two_failures)) as (Hret & _).
Defined.



(** C4, refuted for [process_chunk]: after the first and the second failed
    attempt it sleeps 5 and 5 seconds, not 5 and 10. *)
Lemma constant_delay_not_linear :
  let run := process_chunk insert_settings (rows 7)
               (ingest_world Missing two_failures) in
  run.1 = Ret (Some 7%nat)
  ∧ sleeps (trace run.2) = [5; 5]
  ∧ ¬ linear_backoff (RETRY_DELAY insert_settings) (sleeps (trace run.2)).
Proof.
  intros run.
  assert (sleeps (trace run.2) = [5; 5]) as Hsleeps by by vm_compute.
  split_and!; [by vm_compute|done|].
  rewrite Hsleeps. intros Hlinear.
  by specialize (Hlinear 1%nat 5 eq_refl).
Qed.

(** [backoff_delays] on the query retries: two failed retries sleep 5 and
    10 seconds. With the store down throughout, the three retries of the
    demo are followed by sleeps of 5, 10 and 15 seconds; the three attempts
    of either worker by sleeps of 5 and 5 seconds and, after the third, by
    none. *)
Lemma backoff_delays_witness :
  let run := retry_query filter_settings vessel_A
               (filter_world (λ n, if (n <? 2)%nat then Raise [] else Succeed)) in
  let w := filter_world always_down in
  let query_run := retry_query filter_settings vessel_A w in
  let chunk_run := process_chunk filter_settings (rows 7) w in
  let batch_run := process_vessel_batch filter_settings [vessel_A] w in
  nondecreasing (sleeps (new_events (filter_world
      (λ n, if (n <? 2)%nat then Raise [] else Succeed)) run.2))
  ∧ pauses retry_failure (new_events w query_run.2)
    = [(1%nat, Some 5); (2%nat, Some 10); (3%nat, Some 15)]
  ∧ sleeps (new_events w query_run.2) = [5; 10; 15]
  ∧ pauses chunk_failure (new_events w chunk_run.2)
    = [(1%nat, Some 5); (2%nat, Some 5); (3%nat, None)]
  ∧ sleeps (new_events w chunk_run.2) = [5; 5]
  ∧ pauses batch_failure (new_events w batch_run.2)
    = [(1%nat, Some 5); (2%nat, Some 5); (3%nat, None)]
  ∧ sleeps (new_events w batch_run.2) = [5; 5].
Proof.
  intros run w query_run chunk_run batch_run.
  destruct (backoff_delays filter_settings [] [] vessel_A
              (filter_world (λ n, if (n <? 2)%nat then Raise [] else Succeed)))
    as (_ & _ & _ & _ & Hmono & _).
  assert (0 ≤ RETRY_DELAY filter_settings) as Hdelay by done.
  destruct (Hmono Hdelay) as [Hquery _].
  destruct (backoff_delays filter_settings (rows 7) [vessel_A] vessel_A w)
    as (_ & _ & _ & _ & _
        & (fq & _ & Hpq & _ & Hdownq & _) & Hsq
        & (fc & _ & Hpc & _ & Hdownc & _) & Hsc
        & (fb & _ & Hpb & _ & Hdownb & _) & Hsb).
  assert (down w) as Hdown by done.
  rewrite (Hdownq Hdown) in Hpq. rewrite (Hdownc Hdown) in Hpc.
  rewrite (Hdownb Hdown) in Hpb.
  fold query_run in Hpq, Hsq. fold chunk_run in Hpc, Hsc.
  fold batch_run in Hpb, Hsb.
  rewrite Hsq, Hsc, Hsb, Hpq, Hpc, Hpb.
  split_and!; [exact Hquery|reflexivity..].
Defined.

(** C5, violated by the code: with 10 rows per chunk and a ceiling of 25
    rows, a file of 30 rows is handed to the workers whole, in three chunks
    of 10, and 30 rows are stored: the last chunk is not cut to 5 rows. *)
Lemma ceiling_overrun :
  let w := ingest_world (Readable (rows 30)) Example.calm in
  let run := main small_settings w in
  TARGET_ROWS small_settings = 25
  ∧ length <$> submitted (trace run.2) = [10; 10; 10]%nat
  ∧ concat (submitted (trace run.2)) = rows 30
  ∧ concat (submitted (trace run.2)) ≠ take 25 (rows 30)
  ∧ length (stored run.2) = 30%nat.
Proof.
  intros w run. split_and!.
  - done.
  - by vm_compute.
  - reflexivity.
  - intros Heq. apply (f_equal length) in Heq. vm_compute in Heq. discriminate.
  - by vm_compute.
Qed.

(** With a ceiling that is a multiple of the chunk size the same file is
    cut at the ceiling. *)
Example ceiling_aligned :
  let w := ingest_world (Readable (rows 30)) Example.calm in
  let run := main {| MAX_RETRIES := 3; RETRY_DELAY := 5; CHUNK_SIZE := 10;
                     TARGET_ROWS := 20 |} w in
  concat (submitted (trace run.2)) = take 20 (rows 30)
  ∧ length (stored run.2) = 20%nat.
Proof. split; [reflexivity|by vm_compute]. Qed.

(** C6, refuted as stated, on a record that the filter keeps: a complete
    record whose ROT is the text nan passes the check and is written; its
    ROT is accepted by [float], as a NaN, and the field is rewritten to
    null, not to that float. *)
Lemma parsed_nan_becomes_null :
  has_required (del_id rot_nan_record) = true
  ∧ py_float (VStr "nan") = Some S754_nan
  ∧ filter_docs [rot_nan_record] [] = [coerce_numeric (del_id rot_nan_record)]
  ∧ coerce_numeric (del_id rot_nan_record) !! "ROT" = Some VNone
  ∧ ¬ (∀ (docs : list doc) (d : doc) field v x,
         d ∈ docs →
         has_required (del_id d) = true →
         field ∈ numeric_fields → d !! field = Some v → v ≠ VNone →
         py_float v = Some x →
         ∃ d', d' ∈ filter_docs docs []
               ∧ d' = coerce_numeric (del_id d)
               ∧ d' !! field = Some (VFloat x)).
Proof.
  assert (has_required (del_id rot_nan_record) = true) as Hkept
    by by vm_compute.
  assert (coerce_numeric (del_id rot_nan_record) !! "ROT" = Some VNone)
    as Hnull by reflexivity.
  split_and!; [done|reflexivity|reflexivity|done|].
  intros Hclaim.
  assert ("ROT" ∈ numeric_fields) as Hfield
    by (apply (bool_decide_unpack _); by vm_compute).
  destruct (Hclaim [rot_nan_record] rot_nan_record "ROT" (VStr "nan") S754_nan)
    as (d' & _ & -> & Hfloat); [by left|done|done|reflexivity|done|reflexivity|].
  rewrite Hnull in Hfloat. discriminate.
Qed.

(** [numeric_coercion] on [ROT = "12.5"] alone, and on a complete record
    with [ROT = "12.5"] and [SOG = "abc"]: the record is kept, with its ROT
    the float 12.5 and its SOG null. *)
Lemma numeric_coercion_witness :
  coerce_numeric (rot "12.5") !! "ROT"
  = Some (VFloat (S754_finite false 7036874417766400 (-49)))
  ∧ coerce_numeric (del_id (record 219000001 0)) !! "ROT"
    = Some (VFloat (S754_finite false 7036874417766400 (-49)))
  ∧ coerce_numeric (del_id (record 219000001 0)) !! "SOG" = Some VNone
  ∧ coerce_numeric (del_id (record 219000001 0))
    ∈ filter_docs [record 219000001 0] [].
Proof.
  assert ("ROT" ∈ numeric_fields) as Hrot
    by (apply (bool_decide_unpack _); by vm_compute).
  assert ("SOG" ∈ numeric_fields) as Hsog
    by (apply (bool_decide_unpack _); by vm_compute).
  destruct (numeric_coercion (rot "12.5") "ROT" (VStr "12.5") [] Hrot eq_refl)
    as [Halone _]; [done|].
  destruct (numeric_coercion (del_id (record 219000001 0)) "ROT" (VStr "12.5")
              [record 219000001 0] Hrot eq_refl)
    as (Hfloat & Hkept & _); [done|].
  destruct (numeric_coercion (del_id (record 219000001 0)) "SOG" (VStr "abc")
              [] Hsog eq_refl)
    as [Hnull _]; [done|].
  split_and!.
  - rewrite Halone. reflexivity.
  - rewrite Hfloat. reflexivity.
  - rewrite Hnull. reflexivity.
  - apply Hkept; [by left|by vm_compute].
Defined.

(** C7, refuted: with the input file missing the script exits with
    status 0. *)
Lemma missing_file_exits_zero :
  ¬ ((run_script insert_settings (ingest_world Missing Example.calm)).1 ≠ 0).
Proof. intros Hnonzero. apply Hnonzero. by vm_compute. Qed.

(** [unreadable_input_aborts] on a missing file. *)
Lemma unreadable_input_aborts_witness :
  calls (run_script insert_settings (ingest_world Missing Example.calm)).2
  = 0%nat.
Proof.
  destruct (unreadable_input_aborts insert_settings
              (ingest_world Missing Example.calm)) as (_ & Hcalls & _).
  - by left.
  - exact Hcalls.
Defined.

(** [counters_invariant] on the three vessels, the bulk insert failing in
    every attempt. *)
Lemma counters_invariant_witness :
  ∃ c, (process_vessel_batch filter_settings [vessel_A; vessel_B; vessel_C]
          (filter_world bulk_insert_down)).1 = Ret (Some c).
Proof.
  destruct (counters_invariant filter_settings [vessel_A; vessel_B; vessel_C]
              (filter_world bulk_insert_down)) as [_ Hsome].
  apply Hsome. simpl. lia.
Defined.

(** [written_documents_frame] on the first document written for vessel
    A. *)
Lemma written_documents_frame_witness :
  coerce_numeric (del_id (record 219000001 0)) !! "_id" = None.
Proof.
  destruct (written_documents_frame filter_settings [vessel_A]
              (filter_world Example.calm)
              (coerce_numeric (del_id (record 219000001 0))))
    as (mmsi & d & _ & _ & Hid & _).
  - apply (list_elem_of_lookup_2 _ 0%nat). reflexivity.
  - exact Hid.
Defined.

(** [empty_group_not_counted] on vessel C: 120 records, none of which
    passes the check. *)
Lemma empty_group_not_counted_witness :
  let round := process_vessel zero vessel_C (filter_world Example.calm) in
  stored round.2 = [].
Proof.
  intros round.
  destruct (empty_group_not_counted zero vessel_C (filter_world Example.calm))
    as [Hempty _].
  destruct Hempty as (_ & Hstored & _).
  - by vm_compute.
  - intros d Hd. apply list_elem_of_fmap in Hd as (i & -> & _). by vm_compute.
  - exact Hstored.
Defined.

End Runs.

(** * Further properties *)

(** ** The records the filter writes *)

Section WrittenRecords.
Context `{PyFloat}.
Implicit Types (d : doc) (w : world).

Lemma required_not_numeric field :
  field ∈ required_fields → field ∉ numeric_fields.
Proof.
  unfold required_fields. intros Hin Hnum.
  repeat (apply elem_of_cons in Hin as [->|Hin]);
    try (by apply elem_of_nil in Hin);
    apply (bool_decide_pack _) in Hnum; by vm_compute in Hnum.
Qed.

(** The coercion leaves the required fields alone, so it does not change
    the verdict of the check. *)
Lemma has_required_coerce d : has_required (coerce_numeric d) = has_required d.
Proof.
  unfold has_required. apply eq_true_iff_eq.
  rewrite !forallb_forall. split; intros Hall field Hin.
  - specialize (Hall field Hin). apply list_elem_of_In in Hin.
    rewrite coerce_numeric_lookup in Hall.
    case_decide; [by apply required_not_numeric in Hin|done].
  - specialize (Hall field Hin). apply list_elem_of_In in Hin.
    rewrite coerce_numeric_lookup.
    case_decide; [by apply required_not_numeric in Hin|done].
Qed.

Lemma coerced_shape entry :
  coerced entry = None
  ∨ coerced entry = Some VNone
  ∨ ∃ x, coerced entry = Some (VFloat x) ∧ isnan x = false.
Proof.
  destruct entry as [v|]; [|by left]. right.
  assert (∀ o : option F,
    match o with
    | Some x => if isnan x then Some VNone else Some (VFloat x)
    | None => Some VNone
    end = Some VNone
    ∨ ∃ x, match o with
           | Some x => if isnan x then Some VNone else Some (VFloat x)
           | None => Some VNone
           end = Some (VFloat x) ∧ isnan x = false) as Hcases.
  { intros [x|]; [|by left]. destruct (isnan x) eqn:Hnan; [by left|].
    right. by exists x. }
  destruct v; [by left|apply (Hcases (py_float _))..].
Qed.

Lemma coerced_idempotent entry : coerced (coerced entry) = coerced entry.
Proof.
  destruct (coerced_shape entry) as [->| [->|(x & -> & Hnan)]]; [done..|].
  simpl. by rewrite Hnan.
Qed.

Lemma coerce_numeric_idempotent d :
  coerce_numeric (coerce_numeric d) = coerce_numeric d.
Proof.
  apply map_eq. intros key. rewrite !coerce_numeric_lookup.
  case_decide; [apply coerced_idempotent|done].
Qed.

Lemma coerce_numeric_no_id d : d !! "_id" = None → coerce_numeric d !! "_id" = None.
Proof.
  intros Hid. rewrite coerce_numeric_lookup.
  case_decide as Hnum; [by apply id_not_numeric in Hnum|done].
Qed.

Lemma refilter_kept (kept : list doc) :
  (∀ d, d ∈ kept → has_required d = true ∧ d !! "_id" = None) →
  filter_docs (coerce_numeric <$> kept) [] = coerce_numeric <$> kept.
Proof.
  rewrite filter_docs_nil.
  induction kept as [|d kept IH]; intros Hkept; [done|].
  destruct (Hkept d) as [Hreq Hid]; [left|].
  cbn [fmap list_fmap]. unfold del_id at 1.
  rewrite (delete_id (coerce_numeric d)) by by apply coerce_numeric_no_id.
  cbn [List.filter]. rewrite has_required_coerce, Hreq.
  cbn [fmap list_fmap]. rewrite coerce_numeric_idempotent. f_equal.
  apply IH. intros d' Hin. apply Hkept. by right.
Qed.

(** X1. Filtering is idempotent: the record loop of
    [process_vessel_batch], run on the records it produced, keeps every one
    of them, unchanged and in the same order. *)
Theorem filter_docs_idempotent (docs : list doc) :
  filter_docs (filter_docs docs []) [] = filter_docs docs [].
Proof.
  rewrite (filter_docs_nil docs). apply refilter_kept.
  intros d [Hin Hreq]%list_elem_of_In%filter_In. split; [done|].
  apply list_elem_of_In, list_elem_of_fmap in Hin as (d0 & -> & _).
  apply lookup_delete_eq.
Qed.

(** X2. Every record that [process_vessel_batch] writes, whatever the
    store's failures, passes the required-field check as it is stored:
    the coercion of the numeric fields cannot invalidate a record. *)
Theorem written_records_valid cfg (mmsi_batch : list value) w d' :
  d' ∈ new_docs w (process_vessel_batch cfg mmsi_batch w).2 →
  has_required d' = true.
Proof.
  destruct (process_vessel_batch_runs cfg mmsi_batch w)
    as (r & k & evs & ds & Hrun & _ & _ & _ & Hsub & _).
  rewrite Hrun. simpl. rewrite new_docs_advance.
  intros (mmsi & _ & Hin)%Hsub%elem_of_all_retained.
  apply elem_of_retained in Hin as (_ & d & _ & Hreq & ->).
  by rewrite has_required_coerce.
Qed.

(** X3. In a record that [process_vessel_batch] writes, a numeric field
    is absent (when the source record had none), null, or a float that is
    not NaN: text, integers and NaN never reach the target. *)
Theorem written_numeric_fields cfg (mmsi_batch : list value) w d' field :
  d' ∈ new_docs w (process_vessel_batch cfg mmsi_batch w).2 →
  field ∈ numeric_fields →
  d' !! field = None
  ∨ d' !! field = Some VNone
  ∨ ∃ x, d' !! field = Some (VFloat x) ∧ isnan x = false.
Proof.
  destruct (process_vessel_batch_runs cfg mmsi_batch w)
    as (r & k & evs & ds & Hrun & _ & _ & _ & Hsub & _).
  rewrite Hrun. simpl. rewrite new_docs_advance.
  intros (mmsi & _ & Hin)%Hsub%elem_of_all_retained Hfield.
  apply elem_of_retained in Hin as (_ & d & _ & _ & ->).
  rewrite coerce_numeric_lookup. rewrite decide_True by done.
  apply coerced_shape.
Qed.

End WrittenRecords.

(** ** The counters of a vessel batch, and the pool of [full_filter.py] *)

Section FilterPoolFacts.
Context `{PyFloat}.
Variable cfg : settings.
Implicit Types (w : world) (evs : list event) (ds : list doc)
  (c : counters) (batch : list value).

Let plus (c c' : counters) : counters :=
  {| vessels_processed := vessels_processed c + vessels_processed c';
     vessels_filtered := vessels_filtered c + vessels_filtered c';
     total_docs := total_docs c + total_docs c';
     filtered_docs := filtered_docs c + filtered_docs c' |}.

Lemma tally_plus src c c0 batch :
  tally src (plus c c0) batch = plus c (tally src c0 batch).
Proof.
  revert c0. induction batch as [|mmsi batch IH]; intros c0; [done|].
  cbn [tally foldl]. fold (tally src (count_vessel c0 (src mmsi)) batch).
  rewrite <- IH. unfold tally. f_equal.
  unfold count_vessel, plus; simpl. f_equal; lia.
Qed.

Lemma tally_app src c batch1 batch2 :
  tally src c (batch1 ++ batch2) = tally src (tally src c batch1) batch2.
Proof. apply foldl_app. Qed.

Lemma tally_processed src c batch :
  vessels_processed (tally src c batch) = vessels_processed c + len batch.
Proof.
  revert c. induction batch as [|mmsi batch IH]; intros c.
  - unfold len; simpl; lia.
  - cbn [tally foldl]. fold (tally src (count_vessel c (src mmsi)) batch).
    rewrite IH. unfold len; simpl. lia.
Qed.

Lemma tally_filtered_docs src c batch :
  filtered_docs (tally src c batch)
  = filtered_docs c + len (all_retained src batch).
Proof.
  revert c. induction batch as [|mmsi batch IH]; intros c.
  - unfold len; simpl; lia.
  - cbn [tally foldl]. fold (tally src (count_vessel c (src mmsi)) batch).
    rewrite IH. unfold all_retained; simpl.
    unfold len. rewrite length_app. lia.
Qed.

Lemma tally_total_docs src c batch :
  total_docs (tally src c batch) = total_docs c + len (flat_map src batch).
Proof.
  revert c. induction batch as [|mmsi batch IH]; intros c.
  - unfold len; simpl; lia.
  - cbn [tally foldl]. fold (tally src (count_vessel c (src mmsi)) batch).
    rewrite IH. simpl. unfold len. rewrite length_app. lia.
Qed.

(** The retry loop of [process_vessel_batch], from any attempt on: the
    filtered documents it reports were written by the attempt that
    succeeded. *)
Lemma vessel_batch_attempts_written n a batch w :
  ∃ r k evs ds,
    runs (vessel_batch_attempts cfg (seq a n) batch) w (Ret r) k evs ds
    ∧ ∀ c, r = Some c → filtered_docs c ≤ len ds.
Proof.
  revert a w. induction n as [|n IH]; intros a w.
  - exists None, 0%nat, [], []. split; [apply runs_ret|done].
  - cbn [seq vessel_batch_attempts].
    destruct (vessel_batch_attempt_runs batch w)
      as (r1 & k1 & evs1 & ds1 & Hrun1 & _ & _ & _ & _ & Hret1 & _).
    destruct r1 as [c1|].
    { destruct (Hret1 c1 eq_refl) as [-> ->].
      eexists _, _, _, _. split.
      - apply runs_try. eapply runs_bind; [apply Hrun1|apply runs_ret].
      - intros c [= <-]. rewrite tally_filtered_docs, !app_nil_r. simpl. lia. }
    set (w1 := advance w k1 evs1 ds1).
    set (e1 := ELog (MsgBatchError (a + 1) (MAX_RETRIES cfg))).
    destruct (a <? MAX_RETRIES cfg - 1)%nat.
    + destruct (IH (S a) (advance (advance w1 0 [e1] []) 0
                                   [ESleep (RETRY_DELAY cfg)] []))
        as (r & k & evs & ds & Hrun & Hle).
      eexists _, _, _, _. split.
      * eapply runs_except; [by apply runs_bind_exc|].
        eapply runs_bind; [apply runs_emit|].
        eapply runs_bind; [apply runs_emit|]. apply Hrun.
      * intros c Hc. specialize (Hle c Hc). unfold len in *.
        rewrite !length_app. simpl. lia.
    + eexists _, _, _, _. split.
      * eapply runs_except; [by apply runs_bind_exc|].
        eapply runs_bind; [apply runs_emit|].
        eapply runs_bind; [apply runs_emit|]. apply runs_ret.
      * intros c [= <-]. unfold len. simpl. lia.
Qed.

(** X4. The counters that [process_vessel_batch] returns never
    over-report, whatever the store's failures: the filtered documents
    counted were written during the call, and the vessels counted are at
    most those of the batch. After a retry the target may hold more
    documents than the counters say, never fewer. *)
Theorem batch_counters_never_overreport (mmsi_batch : list value) w c :
  let run := process_vessel_batch cfg mmsi_batch w in
  run.1 = Ret (Some c) →
  filtered_docs c ≤ len (new_docs w run.2)
  ∧ vessels_processed c ≤ len mmsi_batch
  ∧ total_docs c ≤ len (flat_map (source w) mmsi_batch).
Proof.
  intros run. unfold run, process_vessel_batch.
  destruct (vessel_batch_attempts_written (MAX_RETRIES cfg) 0 mmsi_batch w)
    as (r & k & evs & ds & Hrun & Hle).
  destruct (process_vessel_batch_runs cfg mmsi_batch w)
    as (r' & k' & evs' & ds' & Hrun' & _ & _ & _ & _ & Htally & _).
  destruct (runs_inj _ _ _ _ _ _ _ _ _ _ Hrun Hrun') as ([= <-] & _ & _).
  rewrite Hrun. simpl. rewrite new_docs_advance. intros [= ->].
  split; [by apply Hle|].
  destruct (Htally c eq_refl) as [->| ->].
  - rewrite tally_processed, tally_total_docs. simpl. lia.
  - unfold len; simpl. lia.
Qed.

End FilterPoolFacts.

Section FilterPool.
Context `{PyFloat}.
Implicit Types (w : world) (evs : list event) (ds : list doc)
  (c : counters) (batch : list value).

(** The batches, by their number [m] and their size [n]. *)
Lemma mmsi_batches_slices (distinct_mmsis : list value) :
  let count_distinct := len distinct_mmsis in
  let batch_size := mmsi_batch_size count_distinct in
  mmsi_batches distinct_mmsis
  = (λ j, slice distinct_mmsis (j * Z.to_nat batch_size) (Z.to_nat batch_size))%nat
      <$> seq 0 (Z.to_nat ((count_distinct + batch_size - 1) / batch_size)).
Proof.
  intros count_distinct batch_size. unfold mmsi_batches, zrange_step.
  fold count_distinct. fold batch_size.
  rewrite <- list_fmap_compose. apply list_fmap_ext. intros _ j _. simpl.
  f_equal. assert (1 ≤ batch_size) by (unfold batch_size, mmsi_batch_size; lia).
  rewrite Z2Nat.inj_mul, Nat2Z.id by lia. done.
Qed.

Lemma batch_count_bounds (count_distinct : Z) :
  0 ≤ count_distinct →
  let batch_size := mmsi_batch_size count_distinct in
  let m := (count_distinct + batch_size - 1) / batch_size in
  1 ≤ batch_size
  ∧ (m - 1) * batch_size < count_distinct ≤ m * batch_size
  ∧ 0 ≤ m ≤ 15
  ∧ (N_PROCESSES < count_distinct → N_PROCESSES < m)
  ∧ (N_PROCESSES * 2 ≤ count_distinct → N_PROCESSES * 2 ≤ m).
Proof.
  intros Hcount batch_size m.
  assert (1 ≤ batch_size) as Hsize
    by (unfold batch_size, mmsi_batch_size; lia).
  pose proof (Z.mul_div_le (count_distinct + batch_size - 1) batch_size) as Hlo.
  pose proof (Z.mul_succ_div_gt (count_distinct + batch_size - 1) batch_size)
    as Hhi.
  fold m in Hlo, Hhi.
  pose proof (Z.mul_div_le count_distinct 8) as Hklo.
  pose proof (Z.mul_succ_div_gt count_distinct 8) as Hkhi.
  assert (batch_size = Z.max 1 (count_distinct / 8)) as Hbs by done.
  unfold N_PROCESSES.
  destruct (Z.le_gt_cases (count_distinct / 8) 1) as [Hk|Hk].
  - assert (batch_size = 1) as Hone by lia. rewrite Hone in *.
    split_and!; try lia.
  - assert (batch_size = count_distinct / 8) as Hk' by lia.
    rewrite <- Hk' in *. split_and!; try nia.
Qed.

Lemma mmsi_batches_concat (distinct_mmsis : list value) :
  concat (mmsi_batches distinct_mmsis) = distinct_mmsis.
Proof.
  rewrite mmsi_batches_slices.
  destruct (batch_count_bounds (len distinct_mmsis))
    as (Hsize & Hcover & Hm & _); [unfold len; lia|].
  set (batch_size := mmsi_batch_size (len distinct_mmsis)) in *.
  set (m := (len distinct_mmsis + batch_size - 1) / batch_size) in *.
  rewrite slices_chain. simpl. rewrite drop_0. apply take_ge.
  unfold len in Hcover. nia.
Qed.

(** X5. The batches that [main] of [full_filter.py] hands to the pool
    are a partition of the vessel identifiers: in order, none lost, none
    twice, no batch empty and none longer than [batch_size]. There are at
    most 15 batches, and more batches than worker processes as soon as
    there are more identifiers than processes. *)
Theorem mmsi_batches_partition (distinct_mmsis : list value) :
  let batches := mmsi_batches distinct_mmsis in
  concat batches = distinct_mmsis
  ∧ (∀ batch, batch ∈ batches →
       batch ≠ [] ∧ len batch ≤ mmsi_batch_size (len distinct_mmsis))
  ∧ len batches ≤ 15
  ∧ (N_PROCESSES < len distinct_mmsis → N_PROCESSES < len batches)
  ∧ (distinct_mmsis = [] → batches = []).
Proof.
  intros batches. unfold batches. rewrite mmsi_batches_slices.
  destruct (batch_count_bounds (len distinct_mmsis))
    as (Hsize & Hcover & Hm & Hmore & _); [unfold len; lia|].
  set (batch_size := mmsi_batch_size (len distinct_mmsis)) in *.
  set (m := (len distinct_mmsis + batch_size - 1) / batch_size) in *.
  split_and!.
  - rewrite <- mmsi_batches_slices. apply mmsi_batches_concat.
  - intros batch (j & -> & Hj)%list_elem_of_fmap.
    apply elem_of_seq in Hj. unfold slice, len in *. split.
    + intros Hnil%(f_equal length). revert Hnil.
      rewrite length_take, length_drop. simpl. nia.
    + rewrite length_take. lia.
  - unfold len. rewrite length_fmap, length_seq. lia.
  - intros Hgt. specialize (Hmore Hgt). unfold len.
    rewrite length_fmap, length_seq. lia.
  - intros ->. unfold m, batch_size. done.
Qed.

Let plus (c c' : counters) : counters :=
  {| vessels_processed := vessels_processed c + vessels_processed c';
     vessels_filtered := vessels_filtered c + vessels_filtered c';
     total_docs := total_docs c + total_docs c';
     filtered_docs := filtered_docs c + filtered_docs c' |}.

Let zero : counters := Counters 0 0 0 0.

Lemma plus_zero c : plus c zero = c.
Proof. destruct c. unfold plus; simpl. f_equal; lia. Qed.

Lemma zero_plus c : plus zero c = c.
Proof. by destruct c. Qed.

Lemma plus_assoc c1 c2 c3 : plus (plus c1 c2) c3 = plus c1 (plus c2 c3).
Proof. unfold plus; simpl. f_equal; lia. Qed.

Lemma plus_ok c1 c2 : counters_ok c1 → counters_ok c2 → counters_ok (plus c1 c2).
Proof. unfold counters_ok, plus; simpl. lia. Qed.

(** The loop over the results of the pool. *)
Lemma pool_loop_runs cfg (batches : list (list value)) acc w :
  (1 ≤ MAX_RETRIES cfg)%nat →
  ∃ t k evs ds,
    runs (for_each (add_result cfg) acc batches) w (Ret (plus acc t)) k evs ds
    ∧ counters_ok t
    ∧ vessels_processed t ≤ len (concat batches)
    ∧ filtered_docs t ≤ len ds
    ∧ (∀ d, d ∈ ds → d ∈ all_retained (source w) (concat batches))
    ∧ (calm w →
         t = tally (source w) zero (concat batches)
         ∧ ds = all_retained (source w) (concat batches)).
Proof.
  intros Hretries. revert acc w.
  induction batches as [|batch batches IH]; intros acc w.
  - exists zero, 0%nat, [], []. split.
    { rewrite plus_zero. apply runs_ret. }
    split_and!; settle.
  - rewrite for_each_cons. unfold add_result at 1.
    destruct (process_vessel_batch_runs cfg batch w)
      as (r1 & k1 & evs1 & ds1 & Hrun1 & _ & _ & _ & Hsub1 & Htally & Hsome
          & Hcalm1).
    destruct Hsome as [c1 ->]; [lia|].
    destruct (vessel_batch_attempts_written cfg (MAX_RETRIES cfg) 0 batch w)
      as (r1' & k1' & evs1' & ds1' & Hrun1' & Hle1).
    destruct (runs_inj _ _ _ _ _ _ _ _ _ _ Hrun1 Hrun1') as ([= <-] & _ & <-).
    specialize (Hle1 c1 eq_refl).
    destruct (IH (plus acc c1) (advance w k1 evs1 ds1))
      as (t & k & evs & ds & Hrun & Hok & Hvp & Hfd & Hsub & Hcalm).
    assert (runs (add_result cfg acc batch) w (Ret (plus acc c1)) k1 evs1 ds1)
      as Hstep.
    { eapply runs_eq.
      { eapply runs_bind; [apply Hrun1|apply runs_ret]. }
      all: try done; try lia; by rewrite app_nil_r. }
    exists (plus c1 t), (k1 + k)%nat, (evs1 ++ evs), (ds1 ++ ds).
    split.
    { rewrite <- plus_assoc. eapply runs_bind; [apply Hstep|apply Hrun]. }
    assert (counters_ok c1 ∧ vessels_processed c1 ≤ len batch) as [Hok1 Hvp1].
    { destruct (Htally c1 eq_refl) as [->| ->].
      - split; [apply tally_ok, zero_counters_ok|].
        rewrite tally_processed. simpl. lia.
      - split; [apply zero_counters_ok|]. unfold len; simpl; lia. }
    simpl in Hsub, Hcalm. cbn [concat].
    unfold all_retained in *. rewrite flat_map_app.
    fold (all_retained (source w) batch).
    fold (all_retained (source w) (concat batches)) in *.
    split_and!.
    + by apply plus_ok.
    + unfold len in *. rewrite length_app. simpl. lia.
    + unfold len in *. rewrite !length_app. simpl. lia.
    + intros d [Hin|Hin]%elem_of_app; apply elem_of_app; [left|right]; auto.
    + intros Hc. destruct (Hcalm1 Hc) as ([= ->] & -> & _); [lia|].
      destruct Hcalm as [-> ->]; [by apply calm_advance|].
      split; [|done].
      rewrite tally_app. change (Counters 0 0 0 0) with zero.
      transitivity (tally (source w) (plus (tally (source w) zero batch) zero)
                          (concat batches)); [|by rewrite plus_zero].
      symmetry. apply (tally_plus (source w)).
Qed.

(** X6. The pool of [full_filter.py], on any list of vessel
    identifiers and whatever the store's failures: it ends with four
    totals, which keep the order of the counters (filtered at most
    processed), count at most the vessels given, and never count more
    filtered documents than were written. Only retained records of the
    given vessels are written. On a store that does not fail, cutting the
    list into batches changes nothing: the totals are those of the whole
    list, and the written records are its retained records, each as often
    as it is retained (in no particular order: the workers run side by
    side). *)
Theorem filter_pool_totals cfg (distinct_mmsis : list value) w :
  (1 ≤ MAX_RETRIES cfg)%nat →
  let run := filter_pool cfg distinct_mmsis w in
  ∃ totals,
    run.1 = Ret totals
    ∧ counters_ok totals
    ∧ vessels_processed totals ≤ len distinct_mmsis
    ∧ filtered_docs totals ≤ len (new_docs w run.2)
    ∧ (∀ d, d ∈ new_docs w run.2 → d ∈ all_retained (source w) distinct_mmsis)
    ∧ (calm w →
         totals = tally (source w) (Counters 0 0 0 0) distinct_mmsis
         ∧ new_docs w run.2 ≡ₚ all_retained (source w) distinct_mmsis).
Proof.
  intros Hretries run.
  destruct (pool_loop_runs cfg (mmsi_batches distinct_mmsis) zero w Hretries)
    as (t & k & evs & ds & Hrun & Hok & Hvp & Hfd & Hsub & Hcalm).
  rewrite mmsi_batches_concat in *. rewrite zero_plus in Hrun.
  assert (run = (Ret t, advance w k evs ds)) as -> by exact Hrun.
  exists t. simpl. rewrite new_docs_advance. split_and!; try done.
  intros Hc. destruct (Hcalm Hc) as [-> ->]. done.
Qed.

End FilterPool.

(** ** What [process_chunk] stores and what it reports *)

Section ChunkStored.
Context `{PyFloat}.
Variable cfg : settings.
Implicit Types (w : world) (evs : list event) (ds chunk : list doc).

(** The record-by-record loop: every insert that is counted stored its
    record. *)
Lemma insert_counted_stored records acc w :
  ∃ ds,
    runs (for_each insert_counted acc records) w
         (Ret (acc + returning (fate w) (calls w) (length records))%nat)
         (length records) (EInsertOne <$> records) ds
    ∧ (returning (fate w) (calls w) (length records) ≤ length ds)%nat
    ∧ (returning (fate w) (calls w) (length records) = length records →
       ds = records).
Proof.
  revert acc w. induction records as [|d records IH]; intros acc w.
  - exists []. split; [|done].
    eapply runs_eq; [apply runs_ret|simpl; f_equal; lia|done..].
  - rewrite for_each_cons. unfold insert_counted at 1.
    pose proof (runs_insert_one d w) as Hins.
    cbn [returning length].
    destruct (fate w (calls w)) as [|accepted] eqn:Hfate.
    + destruct (IH (acc + 1)%nat (advance w (1 + 0) ([EInsertOne d] ++ []) ([d] ++ [])))
        as (ds & Hrun & Hle & Hall).
      simpl in Hle, Hall.
      replace (calls w + 1)%nat with (S (calls w)) in Hle, Hall by lia.
      exists (([d] ++ []) ++ ds). split_and!.
      * eapply runs_eq.
        { eapply runs_bind; [|apply Hrun].
          apply runs_try. eapply runs_bind; [apply Hins|apply runs_ret]. }
        -- simpl.
           replace (calls w + 1)%nat with (S (calls w)) by lia. f_equal. lia.
        -- done.
        -- done.
        -- done.
      * simpl. lia.
      * intros Hn. simpl. f_equal. apply Hall. lia.
    + destruct (IH acc (advance w (1 + 0) ([EInsertOne d] ++ [])
                                (accepted_docs accepted [d] ++ [])))
        as (ds & Hrun & Hle & Hall).
      simpl in Hle, Hall.
      replace (calls w + 1)%nat with (S (calls w)) in Hle, Hall by lia.
      exists ((accepted_docs accepted [d] ++ []) ++ ds). split_and!.
      * eapply runs_eq.
        { eapply runs_bind; [|apply Hrun].
          eapply runs_except; [by apply runs_bind_exc|apply runs_ret]. }
        -- simpl.
           by replace (calls w + 1)%nat with (S (calls w)) by lia.
        -- done.
        -- done.
        -- done.
      * rewrite length_app. simpl. lia.
      * pose proof (returning_le (fate w) (S (calls w)) (length records)).
        simpl. lia.
Qed.

Lemma last_resort_stored chunk w :
  ∃ r k evs ds,
    runs (last_resort chunk) w (Ret r) k evs ds
    ∧ ∀ n, r = Some n →
        (n ≤ length ds)%nat ∧ (n = length chunk → ∀ d, d ∈ chunk → d ∈ ds).
Proof.
  unfold last_resort, connect, close, insert_individually.
  pose proof (runs_plain_call EConnect w) as Hconn.
  destruct (fate w (calls w)) as [|accepted] eqn:Hfate.
  2:{ eexists _, _, _, _. split.
      - eapply runs_except; [by apply runs_bind_exc|].
        eapply runs_bind; [apply runs_emit|apply runs_ret].
      - intros n [= <-]. split; [lia|].
        intros Hnil d Hin. destruct chunk; [by apply elem_of_nil in Hin|done]. }
  set (w1 := advance w 1 [EConnect] []) in *.
  destruct (insert_counted_stored chunk 0%nat w1) as (ds & Hloop & Hle & Hall).
  set (n := returning (fate w1) (calls w1) (length chunk)) in *.
  set (w2 := advance w1 (length chunk) (EInsertOne <$> chunk) ds) in *.
  pose proof (runs_plain_call EClose w2) as Hclose.
  destruct (fate w2 (calls w2)) as [|accepted].
  - eexists _, _, _, _. split.
    + apply runs_try.
      eapply runs_bind; [apply Hconn|].
      eapply runs_bind; [apply Hloop|].
      eapply runs_bind; [apply Hclose|apply runs_ret].
    + intros ? [= <-]. rewrite !app_nil_r. simpl. split; [done|].
      intros Hn d Hin. by rewrite Hall.
  - eexists _, _, _, _. split.
    + eapply runs_except.
      * eapply runs_bind; [apply Hconn|].
        eapply runs_bind; [apply Hloop|]. by apply runs_bind_exc.
      * eapply runs_bind; [apply runs_emit|apply runs_ret].
    + intros ? [= <-]. split; [lia|].
      intros Hnil d Hin. destruct chunk; [by apply elem_of_nil in Hin|done].
Qed.

Lemma chunk_attempts_stored n a chunk w :
  ∃ r k evs ds,
    runs (chunk_attempts cfg (seq a n) chunk) w (Ret r) k evs ds
    ∧ ∀ m, r = Some m →
        (m ≤ length ds)%nat ∧ (m = length chunk → ∀ d, d ∈ chunk → d ∈ ds).
Proof.
  revert a w. induction n as [|n IH]; intros a w.
  - exists None, 0%nat, [], []. split; [apply runs_ret|done].
  - cbn [seq chunk_attempts].
    destruct (bulk_attempt_runs chunk w)
      as (r1 & k1 & evs1 & ds1 & Hrun1 & _ & _ & _ & _ & _ & Hret1 & _).
    destruct r1 as [x|].
    { destruct (Hret1 x eq_refl) as [-> ->].
      eexists _, _, _, _. split; [by apply runs_try|].
      by intros m [= <-]. }
    set (w1 := advance w k1 evs1 ds1).
    set (e1 := ELog (MsgChunkError (a + 1) (MAX_RETRIES cfg))).
    destruct (a <? MAX_RETRIES cfg - 1)%nat.
    + destruct (IH (S a) (advance (advance w1 0 [e1] []) 0
                                   [ESleep (RETRY_DELAY cfg)] []))
        as (r & k & evs & ds & Hrun & Hle).
      eexists _, _, _, _. split.
      * eapply runs_except; [apply Hrun1|].
        eapply runs_bind; [apply runs_emit|].
        eapply runs_bind; [apply runs_emit|]. apply Hrun.
      * intros m Hm. destruct (Hle m Hm) as [Hlen Hall].
        rewrite !length_app. simpl. split; [lia|].
        intros Hfull d Hin. apply elem_of_app. right. by apply Hall.
    + destruct (last_resort_stored chunk (advance w1 0 [e1] []))
        as (r & k & evs & ds & Hrun & Hle).
      eexists _, _, _, _. split.
      * eapply runs_except; [apply Hrun1|].
        eapply runs_bind; [apply runs_emit|]. apply Hrun.
      * intros m Hm. destruct (Hle m Hm) as [Hlen Hall].
        rewrite !length_app. simpl. split; [lia|].
        intros Hfull d Hin. apply elem_of_app. right. by apply Hall.
Qed.

(** X7. The number that [process_chunk] returns never over-reports,
    whatever the store's failures: at least that many records of the chunk
    were stored during the call, and when the number is the size of the
    chunk, every record of the chunk was stored. (A retry after a bulk
    insert that failed half-way may store a record twice, and a last
    resort whose [close] fails reports 0: the number can be too small.) *)
Theorem chunk_count_never_overreports chunk w n :
  let run := process_chunk cfg chunk w in
  run.1 = Ret (Some n) →
  (n ≤ length (new_docs w run.2))%nat
  ∧ (n = length chunk → ∀ d, d ∈ chunk → d ∈ new_docs w run.2)
  ∧ (∀ d, d ∈ new_docs w run.2 → d ∈ chunk).
Proof.
  intros run.
  destruct (chunk_attempts_stored (MAX_RETRIES cfg) 0 chunk w)
    as (r & k & evs & ds & Hrun & Hle).
  destruct (process_chunk_runs cfg chunk w)
    as (r' & k' & bulk & fb & ds' & Hrun' & _ & _ & _ & _ & _ & _ & Hsub & _).
  destruct (runs_inj _ _ _ _ _ _ _ _ _ _ Hrun Hrun') as (_ & _ & <-).
  assert (run = (Ret r, advance w k evs ds)) as -> by exact Hrun.
  simpl. rewrite new_docs_advance. intros [= ->].
  destruct (Hle n eq_refl). done.
Qed.

(** One bulk attempt on an empty chunk: [if records:] skips the insert. *)
Lemma bulk_attempt_empty w :
  ∃ r k evs,
    runs (bulk_attempt []) w r k evs []
    ∧ count is_bulk_insert evs = 0%nat.
Proof.
  unfold bulk_attempt, connect, close.
  pose proof (runs_plain_call EConnect w) as Hconn.
  destruct (fate w (calls w)) as [|accepted].
  2:{ exists Exc, 1%nat, [EConnect]. split; [by apply runs_bind_exc|done]. }
  set (w1 := advance w 1 [EConnect] []) in *.
  pose proof (runs_plain_call EClose (advance w1 0 [] [])) as Hclose.
  destruct (fate (advance w1 0 [] []) (calls (advance w1 0 [] [])))
    as [|accepted].
  - eexists _, _, ([EConnect] ++ [] ++ [EClose] ++ []). split; [|done].
    eapply (runs_bind _ _ _ _ _ _ []); [apply Hconn|].
    eapply (runs_bind _ _ _ _ _ _ []); [apply runs_ret|].
    eapply (runs_bind _ _ _ _ _ _ []); [apply Hclose|apply runs_ret].
  - eexists _, _, ([EConnect] ++ [] ++ [EClose]). split; [|done].
    eapply (runs_bind _ _ _ _ _ _ []); [apply Hconn|].
    eapply (runs_bind _ _ _ _ _ _ []); [apply runs_ret|].
    by apply runs_bind_exc.
Qed.

Lemma chunk_attempts_empty n a w :
  ∃ r k evs ds,
    runs (chunk_attempts cfg (seq a n) []) w (Ret r) k evs ds
    ∧ count is_bulk_insert evs = 0%nat.
Proof.
  revert a w. induction n as [|n IH]; intros a w.
  - exists None, 0%nat, [], []. split; [apply runs_ret|done].
  - cbn [seq chunk_attempts].
    destruct (bulk_attempt_empty w) as (r1 & k1 & evs1 & Hrun1 & Hno1).
    destruct r1 as [x|].
    { eexists _, _, _, _. split; [by apply runs_try|done]. }
    set (w1 := advance w k1 evs1 []).
    set (e1 := ELog (MsgChunkError (a + 1) (MAX_RETRIES cfg))).
    destruct (a <? MAX_RETRIES cfg - 1)%nat.
    + destruct (IH (S a) (advance (advance w1 0 [e1] []) 0
                                   [ESleep (RETRY_DELAY cfg)] []))
        as (r & k & evs & ds & Hrun & Hno).
      eexists _, _, _, _. split.
      * eapply runs_except; [apply Hrun1|].
        eapply runs_bind; [apply runs_emit|].
        eapply runs_bind; [apply runs_emit|]. apply Hrun.
      * rewrite !count_app, Hno1, Hno. done.
    + destruct (last_resort_runs [] (advance w1 0 [e1] []))
        as (r & k & evs & ds & Hrun & _ & Hfb).
      apply fallback_outcome_events in Hfb as (Hev & _).
      apply fallback_events_quiet in Hev as [Hno _].
      eexists _, _, _, _. split.
      * eapply runs_except; [apply Hrun1|].
        eapply runs_bind; [apply runs_emit|]. apply Hrun.
      * rewrite !count_app, Hno1, Hno. done.
Qed.

(** X8. On an empty chunk [process_chunk] never calls an insert of
    either kind, whatever the store's failures: it stores nothing and
    returns 0. *)
Theorem empty_chunk_inserts_nothing w :
  (1 ≤ MAX_RETRIES cfg)%nat →
  let run := process_chunk cfg [] w in
  run.1 = Ret (Some 0%nat)
  ∧ stored run.2 = stored w
  ∧ count is_bulk_insert (new_events w run.2) = 0%nat
  ∧ count is_single_insert (new_events w run.2) = 0%nat.
Proof.
  intros Hretries run.
  destruct (chunk_attempts_empty (MAX_RETRIES cfg) 0 w)
    as (r & k & evs & ds & Hrun & Hno).
  destruct (process_chunk_runs cfg [] w)
    as (r' & k' & bulk & fb & ds' & Hrun' & _ & _ & Hone & _ & _ & Hfb & Hsub
        & Hsome & _).
  destruct (runs_inj _ _ _ _ _ _ _ _ _ _ Hrun Hrun') as ([= <-] & -> & <-).
  assert (run = (Ret r, advance w k (bulk ++ fb) ds)) as -> by exact Hrun.
  destruct Hsome as (m & -> & Hm); [lia|].
  destruct (fallback_part_counts _ _ _ _ _ Hfb) as (_ & _ & _ & Hfbone).
  simpl in *. rewrite new_events_advance.
  assert (ds = []) as ->.
  { destruct ds as [|d ds]; [done|].
    exfalso. eapply elem_of_nil, (Hsub d). left. }
  rewrite app_nil_r. rewrite count_app in *.
  split_and!; [do 2 f_equal; lia|done|lia|rewrite count_app; lia].
Qed.

(** X9. On a store that does not fail, [process_chunk] stores a
    chunk that is not empty exactly once, with three driver calls (connect,
    one bulk insert, close), no sleep and no error line, and returns the
    size of the chunk. *)
Theorem healthy_chunk_stored_once chunk w :
  (1 ≤ MAX_RETRIES cfg)%nat →
  chunk ≠ [] →
  calm w →
  let run := process_chunk cfg chunk w in
  run.1 = Ret (Some (length chunk))
  ∧ stored run.2 = stored w ++ chunk
  ∧ new_events w run.2 = [EConnect; EInsertMany chunk; EClose]
  ∧ calls run.2 = (calls w + 3)%nat.
Proof.
  intros Hretries Hchunk Hcalm run.
  assert (runs (process_chunk cfg chunk) w (Ret (Some (length chunk))) 3
               [EConnect; EInsertMany chunk; EClose] chunk) as Hrun.
  { unfold process_chunk.
    destruct (MAX_RETRIES cfg) as [|m]; [lia|]. cbn [seq chunk_attempts].
    apply runs_try. unfold bulk_attempt, connect, close.
    destruct chunk as [|d chunk]; [done|].
    pose proof (runs_plain_call EConnect w) as Hconn.
    rewrite (calm_next w Hcalm) in Hconn.
    set (w1 := advance w 1 [EConnect] []) in *.
    assert (calm w1) as Hcalm1 by by apply calm_advance.
    pose proof (runs_insert_many d chunk w1) as Hins.
    rewrite (calm_next w1 Hcalm1) in Hins.
    set (w2 := advance w1 1 [EInsertMany (d :: chunk)] (d :: chunk)) in *.
    assert (calm w2) as Hcalm2 by by apply calm_advance.
    pose proof (runs_plain_call EClose w2) as Hclose.
    rewrite (calm_next w2 Hcalm2) in Hclose.
    eapply runs_eq.
    { eapply runs_bind; [apply Hconn|].
      eapply runs_bind; [apply Hins|].
      eapply runs_bind; [apply Hclose|apply runs_ret]. }
    all: try done. simpl. by rewrite app_nil_r. }
  assert (run = (Ret (Some (length chunk)),
                 advance w 3 [EConnect; EInsertMany chunk; EClose] chunk))
    as -> by exact Hrun.
  simpl. by rewrite new_events_advance.
Qed.

End ChunkStored.

(** ** The query retries of the demo: when they stop *)

Section QueryOutcome.
Context `{PyFloat}.
Variable cfg : settings.
Implicit Types (w : world) (evs : list event).

Let delay (i : nat) : Z := RETRY_DELAY cfg * (Z.of_nat i + 1).

Lemma query_attempt_outcome a mmsi w :
  ∃ recovered k evs,
    runs (query_attempt cfg a mmsi) w (Ret recovered) k evs []
    ∧ count is_connect evs = 1%nat
    ∧ sleeps evs = (if recovered : bool then [] else [delay a])
    ∧ count is_recovered evs = (if recovered : bool then 1 else 0)%nat
    ∧ (k ≤ 2)%nat.
Proof.
  unfold query_attempt, connect, find_limit.
  set (e1 := EPrint (MsgRetryFailed (a + 1) (MAX_RETRIES cfg) (delay a))).
  assert (∀ w', runs
            (bind (print (MsgRetryFailed (a + 1) (MAX_RETRIES cfg) (delay a)))
               (λ _, bind (sleep (delay a)) (λ _, ret false)))
            w' (Ret false) (0 + (0 + 0)) ([e1] ++ [ESleep (delay a)] ++ [])
            ([] ++ [] ++ [])) as Hhandler.
  { intros w'. eapply runs_bind; [apply runs_emit|].
    eapply runs_bind; [apply runs_emit|apply runs_ret]. }
  pose proof (runs_plain_call EConnect w) as Hconn.
  destruct (fate w (calls w)) as [|accepted] eqn:Hfate.
  2:{ exists false, (1 + (0 + (0 + 0)))%nat,
        ([EConnect] ++ [e1] ++ [ESleep (delay a)] ++ []).
      split; [|subst e1; split_and!; try done; simpl; lia].
      eapply runs_eq; [eapply runs_except;
                         [by apply runs_bind_exc|apply Hhandler]|done..]. }
  set (w1 := advance w 1 [EConnect] []) in *.
  pose proof (runs_find mmsi w1) as Hfind.
  destruct (fate w1 (calls w1)) as [|accepted] eqn:Hfate1.
  2:{ exists false, ((1 + 1) + (0 + (0 + 0)))%nat,
        (([EConnect] ++ [EFind mmsi]) ++ [e1] ++ [ESleep (delay a)] ++ []).
      split; [|subst e1; split_and!; try done; simpl; lia].
      eapply runs_eq.
      { eapply runs_except; [|apply Hhandler].
        eapply runs_bind; [apply Hconn|].
        apply runs_bind_exc. by apply runs_bind_exc. }
      all: done. }
  exists true, (1 + ((1 + 0) + (0 + 0)))%nat,
    ([EConnect] ++ ([EFind mmsi] ++ []) ++ [EPrint (MsgRecovered a)] ++ []).
  split; [|split_and!; try done; simpl; lia].
  eapply runs_eq.
  { apply runs_try.
    eapply runs_bind; [apply Hconn|].
    eapply runs_bind; [eapply runs_bind; [apply Hfind|apply runs_ret]|].
    eapply runs_bind; [apply runs_emit|apply runs_ret]. }
  all: done.
Qed.

(** The retries from number [a] on, with [n] left: [j] of them fail, and
    the loop goes on to the next one only after a failure. *)
Lemma query_retries_outcome n a mmsi w :
  ∃ k evs j,
    runs (query_retries cfg (seq a n) mmsi) w (Ret tt) k evs []
    ∧ (j ≤ n)%nat
    ∧ sleeps evs = delay <$> seq a j
    ∧ count is_recovered evs = (if decide (j < n)%nat then 1 else 0)%nat
    ∧ count is_connect evs = (j + count is_recovered evs)%nat
    ∧ (k ≤ 2 * n)%nat.
Proof.
  revert a w. induction n as [|n IH]; intros a w.
  - exists 0%nat, [], 0%nat. split; [apply runs_ret|]. done.
  - cbn [seq query_retries].
    destruct (query_attempt_outcome a mmsi w)
      as (recovered & k1 & evs1 & Hrun1 & Hconn1 & Hsl1 & Hrec1 & Hk1).
    destruct recovered.
    + exists (k1 + 0)%nat, (evs1 ++ []), 0%nat.
      split; [eapply runs_eq;
                [eapply runs_bind; [apply Hrun1|apply runs_ret]|done..]|].
      rewrite app_nil_r, Hconn1, Hsl1, Hrec1.
      rewrite decide_True by lia. split_and!; try done; lia.
    + destruct (IH (S a) (advance w k1 evs1 []))
        as (k & evs & j & Hrun & Hj & Hsl & Hrec & Hconn & Hk).
      exists (k1 + k)%nat, (evs1 ++ evs), (S j).
      split; [eapply runs_eq;
                [eapply runs_bind; [apply Hrun1|apply Hrun]|done..]|].
      rewrite !count_app, sleeps_app, Hconn1, Hsl1, Hsl, Hrec1, Hconn, Hrec.
      split_and!; try done; try lia.
      destruct (decide (j < n)%nat), (decide (S j < S n)%nat); lia.
Qed.

Lemma sum_delays a j :
  2 * foldr Z.add 0 (delay <$> seq a j)
  = RETRY_DELAY cfg * Z.of_nat j * (2 * Z.of_nat a + Z.of_nat j + 1).
Proof.
  revert a. induction j as [|j IH]; intros a; [simpl; lia|].
  cbn [seq fmap list_fmap foldr]. fold (fmap delay (seq (S a) j)).
  specialize (IH (S a)). unfold delay at 1. nia.
Qed.

(** X10. The retry loop of the demo's query stops at the first
    retry that succeeds and gives up after [MAX_RETRIES] failures; either
    way it returns and writes nothing. With [failed] the number of failed
    retries, it slept [RETRY_DELAY * failed * (failed + 1) / 2] seconds in
    all, it connected once per failed retry and once more when it
    recovered, which it did exactly when fewer than [MAX_RETRIES] retries
    failed, and it made at most two driver calls per retry. *)
Theorem query_retry_stops_at_first_success mmsi w :
  let run := retry_query cfg mmsi w in
  let evs := new_events w run.2 in
  let failed := length (sleeps evs) in
  run.1 = Ret tt
  ∧ stored run.2 = stored w
  ∧ (failed ≤ MAX_RETRIES cfg)%nat
  ∧ 2 * total_sleep evs
    = RETRY_DELAY cfg * Z.of_nat failed * (Z.of_nat failed + 1)
  ∧ count is_recovered evs
    = (if decide (failed < MAX_RETRIES cfg)%nat then 1 else 0)%nat
  ∧ count is_connect evs = (failed + count is_recovered evs)%nat
  ∧ (calls run.2 ≤ calls w + 2 * MAX_RETRIES cfg)%nat.
Proof.
  intros run evs failed.
  destruct (query_retries_outcome (MAX_RETRIES cfg) 0 mmsi w)
    as (k & evs' & j & Hrun & Hj & Hsl & Hrec & Hconn & Hk).
  assert (run = (Ret tt, advance w k evs' [])) as Heq by exact Hrun.
  unfold failed, evs, total_sleep. rewrite Heq. simpl.
  rewrite new_events_advance, Hsl, length_fmap, length_seq, sum_delays.
  rewrite app_nil_r. split_and!; try done; lia.
Qed.

End QueryOutcome.

(** ** The header of the demo *)

Section HeaderFacts.

Lemma append_cons c (s1 s2 : string) :
  String c s1 +:+ s2 = String c (s1 +:+ s2).
Proof. done. Qed.

Lemma append_empty (s : string) : s +:+ "" = s.
Proof.
  induction s as [|c s IH]; [done|]. by rewrite append_cons, IH.
Qed.

Lemma length_append (s1 s2 : string) :
  String.length (s1 +:+ s2) = (String.length s1 + String.length s2)%nat.
Proof.
  induction s1 as [|c s1 IH]; [done|]. rewrite append_cons. simpl.
  by rewrite IH.
Qed.

Lemma length_repeat_char c n : String.length (repeat_char c n) = n.
Proof. induction n as [|n IH]; simpl; [done|]. by rewrite IH. Qed.

(** For an even width the extra space of an odd padding goes to the
    right. *)
Lemma center_even (s : string) (width : nat) :
  Nat.even width = true →
  ∃ left right,
    center s width = repeat_char " " left +:+ s +:+ repeat_char " " right
    ∧ (left + right = width - String.length s)%nat
    ∧ (left ≤ right ≤ left + 1)%nat.
Proof.
  intros Heven. unfold center.
  destruct (width <=? String.length s)%nat eqn:Hwide.
  - apply Nat.leb_le in Hwide. exists 0%nat, 0%nat.
    change (repeat_char " " 0) with "". rewrite append_empty.
    split_and!; try done; lia.
  - apply Nat.leb_gt in Hwide.
    set (marg := (width - String.length s)%nat).
    assert (Nat.land (Nat.land marg width) 1 = 0%nat) as ->.
    { rewrite <- Nat.land_assoc.
      replace (Nat.land width 1) with 0%nat; [apply Nat.land_0_r|].
      apply Nat.even_spec in Heven as [half ->].
      rewrite (Nat.land_even_l half 1). simpl. by rewrite Nat.land_0_r. }
    rewrite Nat.add_0_r.
    exists (marg / 2)%nat, (marg - marg / 2)%nat.
    pose proof (Nat.div_mod_eq marg 2) as Hdiv.
    pose proof (Nat.mod_upper_bound marg 2) as Hmod.
    split_and!; try done; lia.
Qed.

(** X11. [print_header] prints three lines: two separators of 80
    characters and, between them, the title with one space on each side,
    centred in 80 columns: the padding on the left is the padding on the
    right or one less. No line is shorter than 80 characters, and none is
    longer unless the title has more than 78. *)
Theorem print_header_layout (title : string) :
  ∃ left right,
    print_header title
    = [repeat_char "=" 80;
       repeat_char " " left +:+ (" " +:+ title +:+ " ") +:+ repeat_char " " right;
       repeat_char "=" 80]
    ∧ (left + right = 78 - String.length title)%nat
    ∧ (left ≤ right ≤ left + 1)%nat
    ∧ ∀ line, line ∈ print_header title →
        (80 ≤ String.length line ≤ 80 `max` (String.length title + 2))%nat.
Proof.
  destruct (center_even (" " +:+ title +:+ " ") 80 eq_refl)
    as (left & right & Hcenter & Hsum & Hbal).
  assert (String.length (" " +:+ title +:+ " ") = String.length title + 2)%nat
    as Hlen.
  { rewrite !length_append. simpl. lia. }
  rewrite Hlen in Hsum.
  exists left, right. unfold print_header, print_separator.
  rewrite Hcenter. split_and!; [done|lia..|].
  intros line Hin. cbn [app] in Hin.
  repeat (apply elem_of_cons in Hin as [->|Hin]);
    try (by apply elem_of_nil in Hin).
  - rewrite length_repeat_char. lia.
  - rewrite !length_append, !length_repeat_char. simpl. lia.
  - rewrite length_repeat_char. lia.
Qed.

End HeaderFacts.

(** ** The ingestion run as a whole *)

Section IngestionRun.
Context `{PyFloat}.
Variable cfg : settings.
Implicit Types (w : world) (evs : list event) (ds chunk : list doc).
Local Open Scope prog_scope.

(** The connection test and the index creation at the start of [main]. *)
Let startup : prog bool :=
  try_except
    (connect ;; ping ;; close ;;
     log MsgConnectionOk ;;
     connect ;; create_index ;; close ;;
     log MsgIndexCreated ;;
     ret true)
    (log MsgConnectionError ;;
     print MsgConnectionError ;;
     ret false).

Let started : list event :=
  [EConnect; EPing; EClose; ELog MsgConnectionOk;
   EConnect; ECreateIndex; EClose; ELog MsgIndexCreated].

Lemma startup_ok w :
  (∀ j, (j < 6)%nat → fate w (calls w + j) = Succeed) →
  runs startup w (Ret true) 6 started [].
Proof.
  intros Hsucc.
  assert (∀ n, (calls w ≤ n < calls w + 6)%nat → fate w n = Succeed) as Hrange.
  { intros n Hn. replace n with (calls w + (n - calls w))%nat by lia.
    apply Hsucc. lia. }
  unfold startup, connect, ping, close, create_index. apply runs_try.
  eapply runs_eq.
  { repeat first
      [ eapply call_returns; [simpl; apply Hrange; simpl; lia|]
      | eapply emit_then
      | apply runs_ret ]. }
  all: done.
Qed.

Lemma startup_fails w i :
  (i < 6)%nat →
  (∀ j, (j < i)%nat → fate w (calls w + j) = Succeed) →
  fate w (calls w + i) ≠ Succeed →
  runs startup w (Ret false) (S i)
       (take (S i + (if (3 <=? i)%nat then 1 else 0)) started
        ++ [ELog MsgConnectionError; EPrint MsgConnectionError]) [].
Proof.
  intros Hi Hsucc Hfail.
  assert (∀ n, (calls w ≤ n < calls w + i)%nat → fate w n = Succeed) as Hrange.
  { intros n Hn. replace n with (calls w + (n - calls w))%nat by lia.
    apply Hsucc. lia. }
  assert (∀ n, n = (calls w + i)%nat → fate w n ≠ Succeed) as Hfail'
    by by intros n ->.
  unfold startup, connect, ping, close, create_index.
  destruct i as [|[|[|[|[|[|i]]]]]]; [..|lia].
  all: eapply runs_eq;
    [eapply runs_except;
       [repeat first
          [ eapply call_returns; [simpl; apply Hrange; simpl; lia|]
          | eapply emit_then
          | (eapply call_raises; simpl; apply Hfail'; simpl; lia) ]
       |eapply emit_then; eapply emit_then; apply runs_ret]
    |done..].
Qed.

(** The start either goes through, or stops at the first call that
    fails. *)
Lemma startup_cases w :
  (∀ j, (j < 6)%nat → fate w (calls w + j) = Succeed)
  ∨ ∃ i, (i < 6)%nat
         ∧ (∀ j, (j < i)%nat → fate w (calls w + j) = Succeed)
         ∧ fate w (calls w + i) ≠ Succeed.
Proof.
  assert (∀ n, (n ≤ 6)%nat →
    (∀ j, (j < n)%nat → fate w (calls w + j) = Succeed)
    ∨ ∃ i, (i < 6)%nat
           ∧ (∀ j, (j < i)%nat → fate w (calls w + j) = Succeed)
           ∧ fate w (calls w + i) ≠ Succeed) as Hall.
  { induction n as [|n IH]; intros Hn; [left; lia|].
    destruct IH as [Hsucc|Hfail]; [lia| |by right].
    destruct (fate w (calls w + n)) as [|accepted] eqn:Hfate.
    - left. intros j Hj. destruct (decide (j = n)) as [->|]; [done|].
      apply Hsucc. lia.
    - right. exists n. split_and!; [lia|done|]. by rewrite Hfate. }
  by apply (Hall 6%nat).
Qed.

Let banner (rows : list doc) : list event :=
  [ELog (MsgTotalRows (1 + len rows - 1));
   EPrint (MsgTotalRows (1 + len rows - 1));
   EPrint (MsgTargetRows (TARGET_ROWS cfg))].

Let after_banner w (rows : list doc) : world :=
  advance (advance (advance w 0 [ELog (MsgTotalRows (1 + len rows - 1))] [])
                   0 [EPrint (MsgTotalRows (1 + len rows - 1))] [])
          0 [EPrint (MsgTargetRows (TARGET_ROWS cfg))] [].

Lemma runs_count_rows rows w :
  csv w = Readable rows → runs count_rows w (Ret (1 + len rows - 1)) 0 [] [].
Proof.
  intros Hcsv. apply runs_pure. unfold count_rows. by rewrite Hcsv.
Qed.

Lemma main_not_started rows w k evs :
  csv w = Readable rows →
  runs startup (after_banner w rows) (Ret false) k evs [] →
  runs (main cfg) w (Ret tt) k (banner rows ++ evs) [].
Proof.
  intros Hcsv Hstart. unfold main. apply runs_try.
  pose proof (runs_path_exists w) as Hexists. rewrite Hcsv in Hexists.
  eapply runs_eq.
  { eapply runs_bind; [apply Hexists|]. rewrite advance_zero. cbn [negb].
    eapply runs_bind; [by apply runs_count_rows|]. rewrite advance_zero.
    eapply emit_then. eapply emit_then. eapply emit_then.
    eapply runs_bind; [apply Hstart|]. cbn [negb]. apply runs_ret. }
  all: try done; simpl; try lia. by rewrite app_nil_r.
Qed.

Lemma main_started rows w k0 evs0 t k evs ds :
  csv w = Readable rows →
  CHUNK_SIZE cfg ≠ 0 →
  let total_chunks :=
    (TARGET_ROWS cfg + CHUNK_SIZE cfg - 1) / CHUNK_SIZE cfg in
  runs startup (after_banner w rows) (Ret true) k0 evs0 [] →
  runs (batch_loop cfg total_chunks (zrange_step total_chunks main_batch_size) 0)
       (advance (after_banner w rows) k0 evs0 []) (Ret t) k evs ds →
  runs (main cfg) w (Ret tt) (k0 + k)
       (banner rows ++ evs0 ++ evs
        ++ [EPrint (MsgSummary t); ELog (MsgSummary t)]) ds.
Proof.
  intros Hcsv Hsize total_chunks Hstart Hloop. unfold main. apply runs_try.
  pose proof (runs_path_exists w) as Hexists. rewrite Hcsv in Hexists.
  eapply runs_eq.
  { eapply runs_bind; [apply Hexists|]. rewrite advance_zero. cbn [negb].
    eapply runs_bind; [by apply runs_count_rows|]. rewrite advance_zero.
    eapply emit_then. eapply emit_then. eapply emit_then.
    eapply runs_bind; [apply Hstart|]. cbn [negb].
    eapply runs_bind.
    { apply runs_pure. unfold floordiv.
      destruct (Z.eqb_spec (CHUNK_SIZE cfg) 0); [done|]. reflexivity. }
    rewrite advance_zero.
    eapply runs_bind; [apply Hloop|].
    eapply emit_then. eapply runs_emit. }
  all: try done; simpl; try lia. by rewrite app_nil_r.
Qed.

(** One chunk in the pool: only records of the chunk are stored, and on a
    store that does not fail the chunk is stored as it is. *)
Lemma pool_step_stored bi ti chunk w :
  (1 ≤ MAX_RETRIES cfg)%nat →
  ∃ n k evs ds,
    runs (pool_step cfg (bi, ti) chunk) w
         (Ret (bi + Z.of_nat n, ti + Z.of_nat n)) k evs ds
    ∧ submitted evs = [chunk]
    ∧ (∀ d, d ∈ ds → d ∈ chunk)
    ∧ (calm w → ds = chunk).
Proof.
  intros Hretries. unfold pool_step.
  set (w1 := advance w 0 [ESubmit chunk] []).
  destruct (process_chunk_runs cfg chunk w1)
    as (r & k & bulk & fb & ds & Hrun & _ & _ & _ & _ & _ & _ & Hsub & Hsome
        & _ & _ & Hcalm & Hsubm).
  destruct Hsome as (n & -> & Hn); [lia|].
  assert (∃ evs',
    ∀ w', runs (if (ti + Z.of_nat n) mod 100000 =? 0
                then log (MsgProgress (ti + Z.of_nat n)) else ret tt)
               w' (Ret tt) 0 evs' []
    ∧ submitted evs' = []) as (evs' & Hlog).
  { destruct ((ti + Z.of_nat n) mod 100000 =? 0).
    - eexists. intros w'. split; [apply runs_emit|done].
    - eexists. intros w'. split; [apply runs_ret|done]. }
  exists n, (0 + (k + (0 + 0)))%nat,
    ([ESubmit chunk] ++ (bulk ++ fb) ++ evs' ++ []), ([] ++ ds ++ [] ++ []).
  split_and!.
  - eapply runs_bind; [apply runs_emit|].
    eapply runs_bind; [apply Hrun|].
    eapply runs_bind; [apply Hlog|apply runs_ret].
  - rewrite submitted_app, (submitted_app (bulk ++ fb)), Hsubm,
      submitted_app, (proj2 (Hlog w)). done.
  - simpl. by rewrite app_nil_r.
  - intros Hc. simpl. rewrite app_nil_r.
    apply Hcalm; [by apply calm_advance|lia].
Qed.

Lemma run_pool_stored chunks bi ti w :
  (1 ≤ MAX_RETRIES cfg)%nat →
  ∃ n k evs ds,
    runs (for_each (pool_step cfg) (bi, ti) chunks) w
         (Ret (bi + Z.of_nat n, ti + Z.of_nat n)) k evs ds
    ∧ submitted evs = chunks
    ∧ (∀ d, d ∈ ds → d ∈ concat chunks)
    ∧ (calm w → ds = concat chunks).
Proof.
  intros Hretries. revert bi ti w.
  induction chunks as [|chunk chunks IH]; intros bi ti w.
  - exists 0%nat, 0%nat, [], []. split_and!; [|done..].
    eapply runs_eq; [apply runs_ret|f_equal; f_equal; lia|done..].
  - rewrite for_each_cons.
    destruct (pool_step_stored bi ti chunk w Hretries)
      as (n1 & k1 & evs1 & ds1 & Hrun1 & Hsubm1 & Hsub1 & Hcalm1).
    destruct (IH (bi + Z.of_nat n1) (ti + Z.of_nat n1) (advance w k1 evs1 ds1))
      as (n & k & evs & ds & Hrun & Hsubm & Hsub & Hcalm).
    exists (n1 + n)%nat, (k1 + k)%nat, (evs1 ++ evs), (ds1 ++ ds).
    split_and!.
    + eapply runs_eq; [by eapply runs_bind|f_equal; f_equal; lia|done..].
    + by rewrite submitted_app, Hsubm1, Hsubm.
    + intros d [Hin|Hin]%elem_of_app; simpl; apply elem_of_app; auto.
    + intros Hc. simpl. rewrite (Hcalm1 Hc). f_equal.
      by apply Hcalm, calm_advance.
Qed.

Lemma startup_prefix_quiet n :
  submitted (take n started) = []
  ∧ count is_bulk_insert (take n started) = 0%nat
  ∧ count is_single_insert (take n started) = 0%nat.
Proof.
  unfold started.
  destruct n as [|[|[|[|[|[|[|[|[|n]]]]]]]]]; split_and!; reflexivity.
Qed.

(** X12. No exception leaves [main] of [parallel_insert.py]: whatever
    the input file, the settings and the store's failures, [main] returns,
    and the script exits with status 0. *)
Theorem main_never_raises w :
  (main cfg w).1 = Ret tt ∧ (run_script cfg w).1 = 0.
Proof.
  unfold run_script, main, try_except.
  by destruct (bind path_exists _ w) as [[[]|] w'].
Qed.

(** X13. When one of the six driver calls at the start of [main] (the
    connection test: connect, ping, close; the index: connect,
    create_index, close) fails, the run ends there: the failing call is the
    last driver call, the error is logged and printed, no chunk is handed
    to the pool, no insert is attempted and nothing is stored. *)
Theorem failed_start_ingests_nothing rows w i :
  csv w = Readable rows →
  (i < 6)%nat →
  (∀ j, (j < i)%nat → fate w (calls w + j) = Succeed) →
  fate w (calls w + i) ≠ Succeed →
  let run := main cfg w in
  run.1 = Ret tt
  ∧ stored run.2 = stored w
  ∧ calls run.2 = (calls w + i + 1)%nat
  ∧ submitted (new_events w run.2) = []
  ∧ count is_bulk_insert (new_events w run.2) = 0%nat
  ∧ count is_single_insert (new_events w run.2) = 0%nat
  ∧ ∃ evs, new_events w run.2
           = evs ++ [ELog MsgConnectionError; EPrint MsgConnectionError].
Proof.
  intros Hcsv Hi Hsucc Hfail run.
  assert (runs startup (after_banner w rows) (Ret false) (S i)
            (take (S i + (if (3 <=? i)%nat then 1 else 0)) started
             ++ [ELog MsgConnectionError; EPrint MsgConnectionError]) [])
    as Hstart.
  { apply startup_fails; [done| |]; simpl.
    - intros j Hj. rewrite !Nat.add_0_r. by apply Hsucc.
    - by rewrite !Nat.add_0_r. }
  apply (main_not_started rows w) in Hstart; [|done].
  assert (run = (Ret tt,
                 advance w (S i)
                   (banner rows
                    ++ take (S i + (if (3 <=? i)%nat then 1 else 0)) started
                    ++ [ELog MsgConnectionError; EPrint MsgConnectionError]) []))
    as -> by exact Hstart.
  destruct (startup_prefix_quiet (S i + (if (3 <=? i)%nat then 1 else 0)))
    as (Hsubm & Hbulk & Hone).
  set (pre := take (S i + (if (3 <=? i)%nat then 1 else 0)) started) in *.
  cbn [fst snd]. rewrite new_events_advance.
  rewrite !submitted_app, !count_app, Hsubm, Hbulk, Hone.
  split_and!; try done.
  - simpl. by rewrite app_nil_r.
  - simpl. lia.
  - eexists. by rewrite app_assoc.
Qed.

Hypothesis Hsize : 1 ≤ CHUNK_SIZE cfg.

(** The chunks of one batch, whatever the ceiling: at most the frames of
    the batch's window, each a frame of the reader or the head of one. *)
Lemma collect_bounded total bs be i reader acc w :
  ∃ chunks,
    collect_chunks cfg total bs be i reader acc w = (Ret (acc ++ chunks), w)
    ∧ (length chunks ≤ Z.to_nat (be - Z.max i bs))%nat
    ∧ ∀ chunk, chunk ∈ chunks →
        ∃ frame j, frame ∈ reader ∧ chunk = take j frame.
Proof.
  revert i acc. induction reader as [|frame reader IH]; intros i acc.
  - exists []. rewrite app_nil_r. split_and!; [done|simpl; lia|].
    by intros ? ?%elem_of_nil.
  - cbn [collect_chunks]. unfold bind at 1. rewrite (floordiv_size cfg Hsize).
    destruct (Z.ltb_spec i bs) as [Hskip|Hin].
    + destruct (IH (i + 1) acc) as (chunks & Hrun & Hlen & Hsub).
      exists chunks. split_and!; [done|lia|].
      intros chunk (f & j & Hf & ->)%Hsub. exists f, j. split; [by right|done].
    + unfold bind at 1. rewrite (floordiv_size cfg Hsize).
      destruct (Z.leb_spec be i) as [Hdone|Hmore].
      * exists []. rewrite app_nil_r. split_and!; [done|simpl; lia|].
        by intros ? ?%elem_of_nil.
      * set (chunk_df :=
          if TARGET_ROWS cfg <? total + len frame
          then head (TARGET_ROWS cfg - total) frame else frame).
        assert (∃ j, chunk_df = take j frame) as [j0 Hj0].
        { unfold chunk_df, head.
          destruct (TARGET_ROWS cfg <? total + len frame);
            [|exists (length frame); by rewrite firstn_all].
          destruct (0 <=? TARGET_ROWS cfg - total); by eexists. }
        destruct (IH (i + 1) (acc ++ [chunk_df])) as (chunks & Hrun & Hlen & Hsub).
        exists (chunk_df :: chunks). split_and!.
        -- rewrite Hrun. by rewrite <- app_assoc.
        -- simpl. lia.
        -- intros chunk [->|Hc]%elem_of_cons.
           ++ exists frame, j0. split; [left|done].
           ++ apply Hsub in Hc as (f & j & Hf & ->). exists f, j.
              split; [by right|done].
Qed.

Lemma frame_rows n rows frame d :
  frame ∈ frames n rows → d ∈ frame → d ∈ rows.
Proof.
  unfold frames. destruct rows as [|row rows].
  - intros ->%list_elem_of_singleton Hd. by apply elem_of_nil in Hd.
  - intros (i & -> & _)%list_elem_of_fmap Hd. by apply slice_subset in Hd.
Qed.

(** The batches from batch number [a] on, whatever the ceiling and the
    store's failures. *)
Lemma batch_loop_bounded rows q m a total w :
  (1 ≤ MAX_RETRIES cfg)%nat →
  csv w = Readable rows →
  ∃ t k evs ds,
    runs (batch_loop cfg q ((λ j, Z.of_nat j * 10) <$> seq a m) total)
         w (Ret t) k evs ds
    ∧ (length (submitted evs) ≤ Z.to_nat q - 10 * a)%nat
    ∧ (∀ chunk, chunk ∈ submitted evs →
         ∃ frame j,
           frame ∈ frames (Z.to_nat (CHUNK_SIZE cfg)) rows
           ∧ chunk = take j frame)
    ∧ (∀ d, d ∈ ds → d ∈ concat (submitted evs))
    ∧ (calm w → ds = concat (submitted evs)).
Proof.
  intros Hretries. revert a total w.
  set (n := Z.to_nat (CHUNK_SIZE cfg)).
  set (reader := frames n rows).
  induction m as [|m IH]; intros a total w Hcsv.
  - exists total, 0%nat, [], []. split; [apply runs_ret|].
    split_and!; settle. simpl. lia.
  - cbn [seq fmap list_fmap batch_loop].
    set (bs := Z.of_nat a * 10).
    set (be := Z.min (bs + main_batch_size) q).
    assert (read_csv (CHUNK_SIZE cfg) w = (Ret reader, w)) as Hread.
    { unfold read_csv. rewrite Hcsv.
      by destruct (Z.ltb_spec (CHUNK_SIZE cfg) 1); [lia|]. }
    destruct (collect_bounded total bs be 0 reader [] w)
      as (chunks & Hcollect & Hlen & Hframes).
    rewrite app_nil_l in Hcollect.
    set (e1 := ELog (MsgProcessingBatch (bs / main_batch_size + 1) bs (be - 1))).
    set (e2 := EPrint (MsgProcessingBatch (bs / main_batch_size + 1) bs (be - 1))).
    destruct (run_pool_stored chunks 0 total
                (advance (advance w 0 [e1] []) 0 [e2] []) Hretries)
      as (ins & k1 & evs1 & ds1 & Hpool & Hsubm1 & Hsub1 & Hcalm1).
    set (e3 := ELog (MsgBatchComplete (0 + Z.of_nat ins))).
    assert (length chunks ≤ Z.to_nat q - 10 * a
            ∧ (length chunks ≤ 10)%nat)%nat as [Hwindow Hten].
    { unfold be, bs, main_batch_size in Hlen. lia. }
    destruct (Z.leb_spec (TARGET_ROWS cfg) (total + Z.of_nat ins))
      as [Hdone|Hmore].
    + exists (total + Z.of_nat ins), (0 + (0 + (0 + (0 + (k1 + (0 + 0))))))%nat,
        ([] ++ [] ++ [e1] ++ [e2] ++ evs1 ++ [e3] ++ []),
        ([] ++ [] ++ [] ++ [] ++ ds1 ++ [] ++ []).
      split.
      * eapply runs_bind; [apply runs_pure, Hread|].
        eapply runs_bind; [apply runs_pure; by rewrite !advance_zero|].
        eapply runs_bind; [apply runs_emit|].
        eapply runs_bind; [apply runs_emit|].
        eapply runs_bind; [rewrite !advance_zero; apply Hpool|].
        eapply runs_bind; [apply runs_emit|].
        destruct (Z.leb_spec (TARGET_ROWS cfg) (total + Z.of_nat ins)); [|lia].
        apply runs_ret.
      * subst e1 e2 e3. rewrite !submitted_app, Hsubm1.
        cbn [submitted omap list_omap app]. rewrite !app_nil_r.
        split_and!; [lia|done|done|].
        intros Hc. apply Hcalm1. by do 2 apply calm_advance.
    + destruct (IH (S a) (total + Z.of_nat ins)
                  (advance w (0 + (0 + (0 + (0 + (k1 + 0)))))
                     ([] ++ [] ++ [e1] ++ [e2] ++ evs1 ++ [e3])
                     ([] ++ [] ++ [] ++ [] ++ ds1 ++ [])))
        as (t & k & evs & ds & Hrun & Hcount & Hsub & Hds & Hcalm); [done|].
      eexists t, _, _, _. split.
      * eapply runs_eq.
        { eapply runs_bind; [apply runs_pure, Hread|].
          eapply runs_bind; [apply runs_pure; by rewrite !advance_zero|].
          eapply runs_bind; [apply runs_emit|].
          eapply runs_bind; [apply runs_emit|].
          eapply runs_bind; [rewrite !advance_zero; apply Hpool|].
          eapply runs_bind; [apply runs_emit|].
          destruct (Z.leb_spec (TARGET_ROWS cfg) (total + Z.of_nat ins)); [lia|].
          rewrite !advance_advance. apply Hrun. }
        all: done.
      * subst e1 e2 e3. rewrite !submitted_app, Hsubm1.
        cbn [submitted omap list_omap app]. rewrite concat_app, length_app.
        split_and!.
        -- lia.
        -- intros chunk [Hc|Hc]%elem_of_app; auto.
        -- intros d [Hd|Hd]%elem_of_app; apply elem_of_app; auto.
        -- intros Hc. f_equal.
           ++ apply Hcalm1. by do 2 apply calm_advance.
           ++ by apply Hcalm, calm_advance.
Qed.

Lemma prefix_of_frame rows chunk :
  (∃ frame j, frame ∈ frames (Z.to_nat (CHUNK_SIZE cfg)) rows
              ∧ chunk = take j frame) →
  len chunk ≤ CHUNK_SIZE cfg ∧ ∀ d, d ∈ chunk → d ∈ rows.
Proof.
  intros (frame & j & Hframe & ->). split.
  - apply frames_bounded in Hframe as Hlen. unfold len.
    rewrite length_take. lia.
  - intros d Hd%(subseteq_take _ _). by eapply frame_rows.
Qed.

(** X14. The ceiling of [main], whatever its value, the input file and
    the store's failures: every chunk handed to the pool holds at most
    [CHUNK_SIZE] rows of the file, at most [total_chunks] chunks are
    handed over, and so fewer than [TARGET_ROWS + CHUNK_SIZE] rows in
    all: the ceiling is exceeded by less than one chunk. Only rows of the
    file are stored, and on a store that does not fail the stored rows
    are the rows of the chunks handed over, each as often as it was
    handed over (in no particular order: the workers run side by side). *)
Theorem ceiling_overshoot_bounded rows w :
  (1 ≤ MAX_RETRIES cfg)%nat →
  csv w = Readable rows →
  let total_chunks :=
    (TARGET_ROWS cfg + CHUNK_SIZE cfg - 1) / CHUNK_SIZE cfg in
  let run := main cfg w in
  let chunks := submitted (new_events w run.2) in
  run.1 = Ret tt
  ∧ (∀ chunk, chunk ∈ chunks →
       len chunk ≤ CHUNK_SIZE cfg ∧ ∀ d, d ∈ chunk → d ∈ rows)
  ∧ len chunks ≤ Z.max 0 total_chunks
  ∧ len (concat chunks) ≤ Z.max 0 (TARGET_ROWS cfg + CHUNK_SIZE cfg - 1)
  ∧ (∀ d, d ∈ new_docs w run.2 → d ∈ rows)
  ∧ (calm w → new_docs w run.2 ≡ₚ concat chunks).
Proof.
  intros Hretries Hcsv total_chunks run chunks.
  destruct (startup_cases (after_banner w rows)) as [Hok|(i & Hi & Hsucc & Hfail)].
  2:{ pose proof (startup_fails _ i Hi Hsucc Hfail) as Hstart.
      apply (main_not_started rows w) in Hstart; [|done].
      destruct (startup_prefix_quiet (S i + (if (3 <=? i)%nat then 1 else 0)))
        as (Hsubm & _).
      unfold chunks.
      assert (run = (Ret tt,
                 advance w (S i)
                   (banner rows
                    ++ take (S i + (if (3 <=? i)%nat then 1 else 0)) started
                    ++ [ELog MsgConnectionError; EPrint MsgConnectionError]) []))
        as -> by exact Hstart.
      set (pre := take (S i + (if (3 <=? i)%nat then 1 else 0)) started) in *.
      cbn [fst snd]. rewrite new_events_advance, new_docs_advance.
      rewrite !submitted_app, Hsubm. simpl.
      split_and!; settle; unfold len; simpl; lia. }
  apply startup_ok in Hok.
  destruct (batch_loop_bounded rows total_chunks
              (Z.to_nat ((total_chunks + main_batch_size - 1) / main_batch_size))
              0 0 (advance (after_banner w rows) 6 started []) Hretries Hcsv)
    as (t & k & evs & ds & Hloop & Hcount & Hframes & Hds & Hcalm).
  pose proof (main_started rows w _ _ t k evs ds Hcsv ltac:(lia) Hok Hloop)
    as Hmain.
  unfold chunks.
  assert (run = (Ret tt,
                 advance w (6 + k)
                   (banner rows ++ started ++ evs
                    ++ [EPrint (MsgSummary t); ELog (MsgSummary t)]) ds))
    as -> by exact Hmain.
  cbn [fst snd]. rewrite new_events_advance, new_docs_advance.
  assert (submitted (banner rows ++ started ++ evs
                     ++ [EPrint (MsgSummary t); ELog (MsgSummary t)])
          = submitted evs) as ->.
  { rewrite !submitted_app. simpl. by rewrite app_nil_r. }
  assert (∀ chunk, chunk ∈ submitted evs →
            len chunk ≤ CHUNK_SIZE cfg ∧ ∀ d, d ∈ chunk → d ∈ rows) as Hchunks.
  { intros chunk Hc. by apply prefix_of_frame, Hframes. }
  pose proof (Z.mul_div_le (TARGET_ROWS cfg + CHUNK_SIZE cfg - 1)
                (CHUNK_SIZE cfg) ltac:(lia)) as Hq.
  fold total_chunks in Hq.
  split_and!; try done.
  - unfold len. lia.
  - pose proof (concat_length_bound (submitted evs)
                  (Z.to_nat (CHUNK_SIZE cfg))) as Hsum.
    unfold len in *.
    assert (length (concat (submitted evs))
            ≤ length (submitted evs) * Z.to_nat (CHUNK_SIZE cfg))%nat as Hle.
    { apply Hsum. intros chunk Hc. destruct (Hchunks chunk Hc). lia. }
    nia.
  - intros d Hd%Hds. apply list_elem_of_In, in_concat in Hd as (chunk & Hc & Hd).
    apply list_elem_of_In in Hc, Hd.
    destruct (Hchunks chunk Hc) as [_ Hrows]. by apply Hrows.
  - intros Hc. rewrite Hcalm; [done|]. apply calm_advance.
    unfold after_banner. by do 3 apply calm_advance.
Qed.

(** X15. With a ceiling that is a whole number of chunks, once the start
    of [main] has gone through, the chunks handed to the pool are exactly
    the first [TARGET_ROWS] rows of the file (all of them when the file is
    shorter), whatever the later failures of the store; on a store that
    does not fail these rows are what the run stores, once each (in no
    particular order: the workers run side by side). *)
Theorem aligned_run_ingests_prefix rows q w :
  (1 ≤ MAX_RETRIES cfg)%nat →
  0 ≤ q →
  TARGET_ROWS cfg = q * CHUNK_SIZE cfg →
  csv w = Readable rows →
  (∀ j, (j < 6)%nat → fate w (calls w + j) = Succeed) →
  let run := main cfg w in
  run.1 = Ret tt
  ∧ concat (submitted (new_events w run.2))
    = take (Z.to_nat (TARGET_ROWS cfg)) rows
  ∧ (calm w → new_docs w run.2 ≡ₚ take (Z.to_nat (TARGET_ROWS cfg)) rows).
Proof.
  intros Hretries Hq Haligned Hcsv Hsucc run.
  assert (runs startup (after_banner w rows) (Ret true) 6 started []) as Hok.
  { apply startup_ok. intros j Hj. simpl. rewrite !Nat.add_0_r. by apply Hsucc. }
  assert ((TARGET_ROWS cfg + CHUNK_SIZE cfg - 1) / CHUNK_SIZE cfg = q) as Htotal.
  { rewrite Haligned.
    replace (q * CHUNK_SIZE cfg + CHUNK_SIZE cfg - 1)
      with (CHUNK_SIZE cfg - 1 + q * CHUNK_SIZE cfg) by lia.
    rewrite Z.div_add by lia. rewrite Z.div_small; lia. }
  set (w1 := advance (after_banner w rows) 6 started []).
  destruct (batch_loop_bounded rows q
              (Z.to_nat ((q + main_batch_size - 1) / main_batch_size))
              0 0 w1 Hretries Hcsv)
    as (t & k & evs & ds & Hloop & _ & _ & _ & Hcalm).
  destruct (batch_loop_runs cfg Hsize rows q (Z.to_nat ((q + 9) / 10)) 0 0 w1)
    as (r' & k' & evs' & ds' & Hloop' & Hsubm); [done..|simpl; lia|].
  replace (q + 9) with (q + main_batch_size - 1) in Hloop'
    by (unfold main_batch_size; lia).
  destruct (runs_inj _ _ _ _ _ _ _ _ _ _ Hloop Hloop') as (_ & <- & _).
  rewrite Nat.sub_0_r, drop_0, <- Htotal in Hsubm.
  pose proof (main_started rows w 6 started t k evs ds Hcsv ltac:(lia)) as Hmain.
  rewrite Htotal in Hmain. specialize (Hmain Hok Hloop).
  assert (run = (Ret tt,
                 advance w (6 + k)
                   (banner rows ++ started ++ evs
                    ++ [EPrint (MsgSummary t); ELog (MsgSummary t)]) ds))
    as -> by exact Hmain.
  cbn [fst snd]. rewrite new_events_advance, new_docs_advance.
  assert (submitted (banner rows ++ started ++ evs
                     ++ [EPrint (MsgSummary t); ELog (MsgSummary t)])
          = submitted evs) as ->.
  { rewrite !submitted_app. simpl. by rewrite app_nil_r. }
  assert (concat (submitted evs) = take (Z.to_nat (TARGET_ROWS cfg)) rows)
    as Hprefix.
  { rewrite Hsubm, Htotal, concat_take_frames by lia.
    f_equal. rewrite Haligned. nia. }
  split_and!; [done|done|].
  intros Hc. rewrite Hcalm, Hprefix; [done|].
  apply calm_advance. unfold after_banner. by do 3 apply calm_advance.
Qed.

End IngestionRun.

(** ** The sub-batches of a vessel group *)

Section SubBatches.
Context `{PyFloat}.
Implicit Types (w : world) (evs : list event) (ds filtered : list doc).

Lemma bulk_batches_app evs1 evs2 :
  bulk_batches (evs1 ++ evs2) = bulk_batches evs1 ++ bulk_batches evs2.
Proof. apply omap_app. Qed.

(** The sub-batch loop from batch number [a] on, for [n] rounds: [j]
    rounds are run, each with a bulk insert of the next 500 records at
    most. *)
Lemma insert_batches_from_batches filtered n a w :
  ∃ r k evs ds j,
    runs (for_each (insert_slice filtered) tt ((λ j, j * 500)%nat <$> seq a n))
         w r k evs ds
    ∧ (j ≤ n)%nat
    ∧ (length (bulk_batches evs) ≤ j)%nat
    ∧ (∀ batch, batch ∈ bulk_batches evs → (1 ≤ length batch ≤ 500)%nat)
    ∧ concat (bulk_batches evs) = take (j * 500) (drop (a * 500) filtered)
    ∧ (r = Ret tt → j = n).
Proof.
  revert a w. induction n as [|n IH]; intros a w.
  - exists (Ret tt), 0%nat, [], [], 0%nat. split; [apply runs_ret|].
    split_and!; settle.
  - cbn [seq fmap list_fmap]. rewrite for_each_cons.
    unfold insert_slice at 1.
    destruct (slice filtered (a * 500) 500) as [|d batch] eqn:Hslice.
    + destruct (IH (S a) (advance w 0 [] []))
        as (r & k & evs & ds & j & Hrun & Hj & Hlen & Hsize & Hcat & Hret).
      exists r, (0 + k)%nat, ([] ++ evs), ([] ++ ds), (S j).
      split; [eapply runs_bind; [apply runs_ret|done]|].
      rewrite app_nil_l. split_and!; try done; try lia.
      * by rewrite Hcat, <- slices_step, Hslice.
      * intros Hr. f_equal. by apply Hret.
    + assert (1 ≤ length (d :: batch) ≤ 500)%nat as Hbatch.
      { pose proof (f_equal length Hslice) as Hl. unfold slice in Hl.
        rewrite length_take in Hl. cbn [length] in *. lia. }
      pose proof (runs_insert_many d batch w) as Hins.
      destruct (fate w (calls w)) as [|accepted] eqn:Hfate.
      * destruct (IH (S a) (advance w 1 [EInsertMany (d :: batch)] (d :: batch)))
          as (r & k & evs & ds & j & Hrun & Hj & Hlen & Hsize & Hcat & Hret).
        exists r, (1 + k)%nat, ([EInsertMany (d :: batch)] ++ evs),
               ((d :: batch) ++ ds), (S j).
        split; [eapply runs_bind; [apply Hins|done]|].
        rewrite bulk_batches_app. cbn [bulk_batches omap list_omap app].
        split_and!; try done; try lia.
        -- simpl. lia.
        -- intros b [->|Hb]%elem_of_cons; [done|by apply Hsize].
        -- cbn [concat]. rewrite <- slices_step, Hslice. by f_equal.
        -- intros Hr. f_equal. by apply Hret.
      * exists Exc, 1%nat, [EInsertMany (d :: batch)],
               (accepted_docs accepted (d :: batch)), 1%nat.
        split; [by apply runs_bind_exc|].
        cbn [bulk_batches omap list_omap app concat].
        split_and!; try done; try lia.
        -- by intros b ->%list_elem_of_singleton.
        -- rewrite app_nil_r, <- Hslice. unfold slice.
           by replace (1 * 500)%nat with 500%nat by lia.
Qed.

Lemma insert_batches_batches filtered w :
  ∃ r k evs ds j,
    runs (insert_batches filtered) w r k evs ds
    ∧ (length (bulk_batches evs) ≤ (length filtered + 500 - 1) / 500)%nat
    ∧ (∀ batch, batch ∈ bulk_batches evs → (1 ≤ length batch ≤ 500)%nat)
    ∧ concat (bulk_batches evs) = take (j * 500) filtered
    ∧ (r = Ret tt → concat (bulk_batches evs) = filtered).
Proof.
  unfold insert_batches, range_step.
  destruct (insert_batches_from_batches filtered
              ((length filtered + 500 - 1) / 500) 0 w)
    as (r & k & evs & ds & j & Hrun & Hj & Hlen & Hsize & Hcat & Hret).
  simpl in Hcat. rewrite drop_0 in Hcat.
  exists r, k, evs, ds, j. split_and!; try done; try lia.
  intros Hr. rewrite Hcat, (Hret Hr).
  apply take_ge, range_step_covers.
Qed.

(** X16. The records kept for a vessel group are written in bulk
    inserts of at least 1 and at most 500 records, whatever the store's
    failures: the batches given to [insert_many] are consecutive pieces of
    the retained records, from the first one on, and there are at most
    [ceil(n / 500)] of them for [n] retained records. When the round
    returns, the batches together are the retained records, each once and
    in order. *)
Theorem bulk_inserts_in_batches c mmsi w :
  let kept := retained (source w mmsi) in
  let round := process_vessel c mmsi w in
  let batches := bulk_batches (new_events w round.2) in
  (∀ batch, batch ∈ batches → (1 ≤ length batch ≤ 500)%nat)
  ∧ (length batches ≤ (length kept + 500 - 1) / 500)%nat
  ∧ (∃ j, concat batches = take (j * 500) kept)
  ∧ (∀ c', round.1 = Ret c' → concat batches = kept).
Proof.
  intros kept round batches.
  assert (∃ r k evs ds,
    runs (process_vessel c mmsi) w r k evs ds
    ∧ (∀ batch, batch ∈ bulk_batches evs → (1 ≤ length batch ≤ 500)%nat)
    ∧ (length (bulk_batches evs) ≤ (length kept + 500 - 1) / 500)%nat
    ∧ (∃ j, concat (bulk_batches evs) = take (j * 500) kept)
    ∧ (∀ c', r = Ret c' → concat (bulk_batches evs) = kept))
    as (r & k & evs & ds & Hrun & Hsize & Hlen & Hcat & Hret).
  { unfold kept, process_vessel.
    pose proof (runs_find mmsi w) as Hfind.
    destruct (fate w (calls w)) as [|accepted] eqn:Hfate.
    2:{ exists Exc, 1%nat, [EFind mmsi], [].
        split; [by apply runs_bind_exc|].
        split_and!; settle;
          cbn [bulk_batches omap list_omap app concat length];
          first [lia|by exists 0%nat]. }
    set (docs := source w mmsi) in *.
    destruct (Z.ltb_spec (len docs) 100) as [Hsmall|Hlarge].
    - eexists _, _, ([EFind mmsi] ++ []), _. split.
      { eapply runs_bind; [apply Hfind|]. simpl.
        rewrite (proj2 (Z.ltb_lt _ _) Hsmall). apply runs_ret. }
      rewrite (retained_small docs Hsmall).
      split_and!; settle;
          cbn [bulk_batches omap list_omap app concat length];
          first [lia|by exists 0%nat].
    - rewrite (retained_large docs Hlarge).
      destruct (filter_docs docs []) as [|d0 filtered] eqn:Hfiltered.
      + eexists _, _, ([EFind mmsi] ++ []), _. split.
        { eapply runs_bind; [apply Hfind|]. simpl.
          rewrite (proj2 (Z.ltb_ge _ _) Hlarge), Hfiltered. apply runs_ret. }
        split_and!; settle;
          cbn [bulk_batches omap list_omap app concat length];
          first [lia|by exists 0%nat].
      + destruct (insert_batches_batches (d0 :: filtered)
                    (advance w 1 [EFind mmsi] []))
          as (r & k & evs & ds & j & Hrun & Hlen & Hsize & Hcat & Hret).
        destruct r as [[]|].
        * eexists _, _, ([EFind mmsi] ++ evs ++ []), _. split.
          { eapply runs_bind; [apply Hfind|]. simpl.
            rewrite (proj2 (Z.ltb_ge _ _) Hlarge), Hfiltered.
            eapply runs_bind; [apply Hrun|]. apply runs_ret. }
          rewrite !bulk_batches_app, app_nil_r. cbn [bulk_batches omap list_omap app].
          split_and!; settle.
        * eexists _, _, ([EFind mmsi] ++ evs), _. split.
          { eapply runs_bind; [apply Hfind|]. simpl.
            rewrite (proj2 (Z.ltb_ge _ _) Hlarge), Hfiltered.
            by apply runs_bind_exc. }
          rewrite !bulk_batches_app. cbn [bulk_batches omap list_omap app].
          split_and!; settle. }
  unfold batches.
  assert (round = (r, advance w k evs ds)) as -> by exact Hrun.
  cbn [fst snd]. rewrite new_events_advance. done.
Qed.

End SubBatches.

(** ** The further properties on concrete runs *)

Section FurtherRuns.
#[local] Existing Instance binary64.
Import Example.

(** The first call of the start succeeds, the second (the ping) fails. *)
Let ping_fails : nat → outcome :=
  λ n, if (n =? 1)%nat then Raise [] else Succeed.

(** [written_records_valid] on the first document written for vessel A. *)
Lemma written_records_valid_witness :
  has_required (coerce_numeric (del_id (record 219000001 0))) = true.
Proof.
  apply (written_records_valid filter_settings [vessel_A]
           (filter_world Example.calm)).
  apply (list_elem_of_lookup_2 _ 0%nat). reflexivity.
Defined.

(** [written_numeric_fields] on the rate of turn of the first document
    written for vessel A. *)
Lemma written_numeric_fields_witness :
  let d' := coerce_numeric (del_id (record 219000001 0)) in
  d' !! "ROT" = None
  ∨ d' !! "ROT" = Some VNone
  ∨ ∃ x, d' !! "ROT" = Some (VFloat x) ∧ isnan x = false.
Proof.
  apply (written_numeric_fields filter_settings [vessel_A]
           (filter_world Example.calm)).
  - apply (list_elem_of_lookup_2 _ 0%nat). reflexivity.
  - apply (bool_decide_unpack _). by vm_compute.
Defined.

(** [batch_counters_never_overreport] on vessel A, on a store that does
    not fail. *)
Lemma batch_counters_never_overreport_witness :
  let w := filter_world Example.calm in
  let run := process_vessel_batch filter_settings [vessel_A] w in
  130 ≤ len (new_docs w run.2).
Proof.
  intros w run.
  destruct (batch_counters_never_overreport filter_settings [vessel_A] w
              (Counters 1 1 150 130)) as (Hwritten & _).
  - by vm_compute.
  - exact Hwritten.
Defined.

(** [filter_pool_totals] on the three vessels, the bulk insert failing in
    every attempt of the first batch. *)
Lemma filter_pool_totals_witness :
  ∃ totals,
    (filter_pool filter_settings [vessel_A; vessel_B; vessel_C]
       (filter_world bulk_insert_down)).1 = Ret totals
    ∧ counters_ok totals.
Proof.
  destruct (filter_pool_totals filter_settings [vessel_A; vessel_B; vessel_C]
              (filter_world bulk_insert_down))
    as (totals & Hret & Hok & _).
  - simpl. lia.
  - exists totals. split; [exact Hret|exact Hok].
Defined.

(** [chunk_count_never_overreports] on a chunk whose bulk insert fails
    twice. *)
Lemma chunk_count_never_overreports_witness :
  let w := ingest_world Missing two_failures in
  let run := process_chunk insert_settings (rows 7) w in
  (7 ≤ length (new_docs w run.2))%nat.
Proof.
  intros w run.
  destruct (chunk_count_never_overreports insert_settings (rows 7) w 7)
    as (Hstored & _).
  - by vm_compute.
  - exact Hstored.
Defined.

(** [empty_chunk_inserts_nothing] on a store whose second and fourth
    calls fail. *)
Lemma empty_chunk_inserts_nothing_witness :
  (process_chunk insert_settings [] (ingest_world Missing two_failures)).1
  = Ret (Some 0%nat).
Proof.
  destruct (empty_chunk_inserts_nothing insert_settings
              (ingest_world Missing two_failures)) as (Hret & _).
  - simpl. lia.
  - exact Hret.
Defined.

(** [healthy_chunk_stored_once] on a chunk of seven rows. *)
Lemma healthy_chunk_stored_once_witness :
  let w := ingest_world Missing Example.calm in
  new_events w (process_chunk insert_settings (rows 7) w).2
  = [EConnect; EInsertMany (rows 7); EClose].
Proof.
  intros w.
  destruct (healthy_chunk_stored_once insert_settings (rows 7) w)
    as (_ & _ & Hevents & _).
  - simpl. lia.
  - discriminate.
  - intros n _. reflexivity.
  - exact Hevents.
Defined.

(** [failed_start_ingests_nothing] on a run whose ping fails. *)
Lemma failed_start_ingests_nothing_witness :
  let w := ingest_world (Readable (rows 30)) ping_fails in
  stored (main small_settings w).2 = stored w
  ∧ calls (main small_settings w).2 = 2%nat.
Proof.
  intros w.
  destruct (failed_start_ingests_nothing small_settings (rows 30) w 1)
    as (_ & Hstored & Hcalls & _).
  - reflexivity.
  - lia.
  - intros j Hj. destruct j as [|j]; [reflexivity|lia].
  - discriminate.
  - split; [exact Hstored|exact Hcalls].
Defined.

(** [ceiling_overshoot_bounded] on 30 rows, 10 rows per chunk and a
    ceiling of 25 rows. *)
Lemma ceiling_overshoot_bounded_witness :
  let w := ingest_world (Readable (rows 30)) Example.calm in
  len (concat (submitted (new_events w (main small_settings w).2))) ≤ 34.
Proof.
  intros w.
  destruct (ceiling_overshoot_bounded small_settings ltac:(simpl; lia)
              (rows 30) w) as (_ & _ & _ & Hrows & _).
  - simpl. lia.
  - reflexivity.
  - exact Hrows.
Defined.

(** [aligned_run_ingests_prefix] on 30 rows, 10 rows per chunk and a
    ceiling of 20 rows. *)
Lemma aligned_run_ingests_prefix_witness :
  let cfg := {| MAX_RETRIES := 3; RETRY_DELAY := 5; CHUNK_SIZE := 10;
                TARGET_ROWS := 20 |} in
  let w := ingest_world (Readable (rows 30)) Example.calm in
  concat (submitted (new_events w (main cfg w).2)) = take 20 (rows 30).
Proof.
  intros cfg w.
  destruct (aligned_run_ingests_prefix cfg ltac:(simpl; lia) (rows 30) 2 w)
    as (_ & Hprefix & _).
  - simpl. lia.
  - lia.
  - reflexivity.
  - reflexivity.
  - intros j _. reflexivity.
  - exact Hprefix.
Defined.

End FurtherRuns.
